(** * Schedule synthesis and dispatch engine of bblp-bot (src/index.js)

    A shallow embedding of the scheduling core of [src/index.js] and the
    properties of its specification.

    Conventions of the embedding.
    - An instant (an ISO string in the source, always read back through
      [new Date(iso).getTime()]) is its epoch time in milliseconds, a [Z].
    - Counts (events per hour, hours, seconds) are [Z]; the dispatch cursor
      [sentCount], which starts at 0 and is only incremented, is a [nat].
    - Monetary amounts are exact rationals ([Qc]); floating-point rounding
      is outside the model.
    - [Math.random] is an explicit oracle argument ([Oracle]).
    - The outside world of the dispatcher (corrected clock, outcome of the
      HTTP send, [fs.existsSync]) is an explicit argument ([World]); what the
      dispatcher does to the outside world is returned as a list of
      [Effect]s. *)

From Stdlib Require Import ZArith QArith Qround Qcanon Lia Permutation Sorted.
From stdpp Require Import base list gmap sets strings.

Local Open Scope Z_scope.

(** ** Hour buckets (index.js, lines 219-227) *)

(** [floorToHourTs]: [d.setUTCMinutes(0, 0, 0)] on the UTC time line. *)
Definition floorToHourTs (timestampMs : Z) : Z :=
  timestampMs - timestampMs `mod` 3600000.

Definition secondOfHour (timestampMs : Z) : Z :=
  (timestampMs - floorToHourTs timestampMs) `div` 1000.

(** [Math.round(ms / 1000)] on an integer number of milliseconds: JS rounds
    halves towards plus infinity, that is [floor (x + 1/2)]. *)
Definition roundMsToSec (ms : Z) : Z := (ms + 500) `div` 1000.

(** [Math.ceil(ms / 1000)] on an integer number of milliseconds. *)
Definition ceilMsToSec (ms : Z) : Z := - ((- ms) `div` 1000).

(** [Math.floor(ms / 1000)]. *)
Definition floorMsToSec (ms : Z) : Z := ms `div` 1000.

(** [Math.max(1, Math.round((a - b) / 1000))]. *)
Definition deltaSecOf (a b : Z) : Z := Z.max 1 (roundMsToSec (a - b)).

(** ** The interval uniqueness enforcer (index.js, lines 229-318) *)

Module Enforcer.

(** The three mutable objects of [enforceUniqueIntervals]. *)
Record t := mk {
  times : list Z;
  usedIntervals : gset Z;
  hourToSeconds : gmap Z (gset Z)
}.

(** Lines 236-241: one pass registering the second of each timestamp in
    the set of its hour. *)
Definition registerSecond (m : gmap Z (gset Z)) (ts : Z) : gmap Z (gset Z) :=
  let hourKey := floorToHourTs ts in
  let sec := secondOfHour ts in
  <[hourKey := {[sec]} ∪ default ∅ (m !! hourKey)]> m.

Definition initHourToSeconds (ts : list Z) : gmap Z (gset Z) :=
  fold_left registerSecond ts ∅.

(** Lines 283-293 and 299-306: a candidate second is accepted when it is
    free in its hour and the gap it creates has not been used. *)
Definition acceptable (usedSecs usedInts : gset Z) (hourStart prev candSec : Z)
  : option (Z * Z) :=
  if bool_decide (candSec ∈ usedSecs) then None
  else
    let candTs := hourStart + candSec * 1000 in
    let candDelta := deltaSecOf candTs prev in
    if bool_decide (candDelta ∈ usedInts) then None
    else Some (candTs, candDelta).

(** The inner [for (const candSec of candidates)] of the radius search. *)
Fixpoint firstAcceptable (usedSecs usedInts : gset Z) (hourStart prev : Z)
    (candidates : list Z) : option (Z * Z) :=
  match candidates with
  | [] => None
  | candSec :: rest =>
      match acceptable usedSecs usedInts hourStart prev candSec with
      | Some hit => Some hit
      | None => firstAcceptable usedSecs usedInts hourStart prev rest
      end
  end.

(** Lines 278-282. *)
Definition candidatesAt (baseSec lbSec ubSec r : Z) : list Z :=
  let plus := baseSec + r in
  let minus := baseSec - r in
  (if plus <=? ubSec then [plus] else []) ++
  (if lbSec <=? minus then [minus] else []).

(** Lines 277-294: [for (r = 1; r <= radiusLimit && !found; r += 1)];
    [todo] counts the radii not tried yet. *)
Fixpoint radiusSearch (todo : nat) (r : Z) (usedSecs usedInts : gset Z)
    (hourStart prev baseSec lbSec ubSec : Z) : option (Z * Z) :=
  match todo with
  | O => None
  | S todo' =>
      match firstAcceptable usedSecs usedInts hourStart prev
              (candidatesAt baseSec lbSec ubSec r) with
      | Some hit => Some hit
      | None => radiusSearch todo' (r + 1) usedSecs usedInts
                  hourStart prev baseSec lbSec ubSec
      end
  end.

Definition radiusLimit : nat := 300.

(** Lines 296-308: [for (sec = lbSec; sec <= ubSec; sec += 1)]. *)
Fixpoint linearScan (todo : nat) (sec : Z) (usedSecs usedInts : gset Z)
    (hourStart prev : Z) : option (Z * Z) :=
  match todo with
  | O => None
  | S todo' =>
      match acceptable usedSecs usedInts hourStart prev sec with
      | Some hit => Some hit
      | None => linearScan todo' (sec + 1) usedSecs usedInts hourStart prev
      end
  end.

(** Lines 271-308: radius search, then the sequential fallback. *)
Definition search (usedSecs usedInts : gset Z)
    (hourStart prev baseSec lbSec ubSec : Z) : option (Z * Z) :=
  match radiusSearch radiusLimit 1 usedSecs usedInts
          hourStart prev baseSec lbSec ubSec with
  | Some hit => Some hit
  | None => linearScan (Z.to_nat (ubSec - lbSec + 1)) lbSec
              usedSecs usedInts hourStart prev
  end.

(** Lines 245-314: the body of the main loop at index [i]. *)
Definition step (st : t) (i : nat) : t :=
  match times st !! (i - 1)%nat, times st !! i with
  | Some prev, Some curr =>
      let deltaSec := deltaSecOf curr prev in
      if bool_decide (deltaSec ∈ usedIntervals st) then
        let hourKey := floorToHourTs curr in
        let hourStart := hourKey in
        let hourEnd := hourStart + 3600000 - 1 in
        let lowerBound := Z.max hourStart (prev + 1000) in
        let upperBound :=
          match times st !! S i with
          | Some next => Z.min hourEnd (next - 1000)
          | None => hourEnd
          end in
        if upperBound <? lowerBound then
          mk (times st) ({[deltaSec]} ∪ usedIntervals st) (hourToSeconds st)
        else
          let currentSecOfHour := secondOfHour curr in
          let usedSecsInHour :=
            default ∅ (hourToSeconds st !! hourKey) ∖ {[currentSecOfHour]} in
          let baseSec := secondOfHour curr in
          let lbSec := ceilMsToSec (lowerBound - hourStart) in
          let ubSec := floorMsToSec (upperBound - hourStart) in
          let '(curr', deltaSec') :=
            match search usedSecsInHour (usedIntervals st)
                    hourStart prev baseSec lbSec ubSec with
            | Some hit => hit
            | None => (curr, deltaSec)
            end in
          mk (<[i := curr']> (times st))
             ({[deltaSec']} ∪ usedIntervals st)
             (<[hourKey := {[secondOfHour curr']} ∪ usedSecsInHour]>
                (hourToSeconds st))
      else
        mk (times st) ({[deltaSec]} ∪ usedIntervals st) (hourToSeconds st)
  | _, _ => st
  end.

(** Line 244: [for (let i = 1; i < times.length; i += 1)]. *)
Definition loop (st : t) : t :=
  fold_left step (seq 1 (length (times st) - 1)) st.

End Enforcer.

Definition enforceUniqueIntervals (schedule : list Z) : list Z :=
  if (length schedule <=? 1)%nat then schedule
  else
    Enforcer.times
      (Enforcer.loop
         (Enforcer.mk schedule ∅ (Enforcer.initHourToSeconds schedule))).

(** [output[i] > output[i-1]] for all [i >= 1]. *)
Definition strictlyIncreasing (l : list Z) : Prop :=
  ∀ (i : nat) (a b : Z), l !! i = Some a → l !! S i = Some b → a < b.

(** ** Configuration (index.js, lines 618-631: the object [defaulted]) *)

(** [config.specialPhase]. The source reads every field of it through a
    truthiness test or an [||] default, so each may be absent. *)
Record SpecialPhase := mkSpecialPhase {
  enabled : option bool;
  countdownStartUtc : option Z;
  presaleStartUtc : option Z;
  initialBurstMinutes : option Z;
  initialBurstCount : option Z
}.

Record Config := mkConfig {
  startTimeUtc : Z;
  endTimeUtc : Z;
  targetTotalUsd : Qc;
  amountPerMessageUsd : Qc;
  minPerHour : Z;
  maxPerHour : Z;
  tokensPerHundred : Qc;
  startRaisedUsd : Qc;
  enforceHardStopAtEnd : bool;
  BOT_TOKEN : string;
  TARGET_CHAT_ID : string;
  specialPhase : option SpecialPhase
}.

(** ** Randomness

    Every use of [Math.random] is read from an oracle.
    - [rnd_weight i]: the weight [diurnal * weekdayBias * noise] that
      [generatePerHourWeights] (lines 320-332) computes for hour [i].
    - [rnd_shuffle k n]: the order produced by the [k]-th
      [Array.from({ length: n }, (_, i) => i).sort(() => Math.random() - 0.5)]
      of [generateSchedule] (1: lines 365/377, 2: line 402, 3: lines 419/431).
    - [rnd_seconds h count]: what the rejection sampling of
      [sampleUniqueSecondsWithinHour] (lines 208-212) returns for hour [h].
    - [rnd_burst count span]: the same for [sampleUniqueSeconds]
      (lines 468-472). *)
Record Oracle := mkOracle {
  rnd_weight : nat → Q;
  rnd_shuffle : nat → nat → list nat;
  rnd_seconds : nat → Z → list Z;
  rnd_burst : Z → Z → list Z
}.

(** A sort rearranges its input whatever the comparator answers: a shuffle
    permutes the indices [0 .. n-1]. *)
Definition shufflesPermute (o : Oracle) : Prop :=
  ∀ k n, Permutation (rnd_shuffle o k n) (seq 0 n).

(** ** Sampling (lines 203-213 and 463-473) *)

(** [Array.from({ length: n }, (_, i) => i)] as integers. *)
Definition range (n : Z) : list Z := Z.of_nat <$> seq 0 (Z.to_nat n).

Definition sampleUniqueSecondsWithinHour (o : Oracle) (h : nat) (count : Z)
  : list Z :=
  let max := 3600 in
  if max <=? count then range max
  else if count <=? 0 then []
  else rnd_seconds o h count.

Definition sampleUniqueSeconds (o : Oracle) (count spanSeconds : Z) : list Z :=
  let max := Z.max 1 spanSeconds in
  if max <=? count then range max
  else if count <=? 0 then []
  else rnd_burst o count spanSeconds.

(** ** The rate envelope (lines 334-442) *)

(** [perHour.reduce((a, b) => a + b, 0)]. *)
Definition sumZ (l : list Z) : Z := foldl Z.add 0 l.

(** [Math.ceil(a / b)] on integers. *)
Definition ceilDiv (a b : Z) : Z := - ((- a) `div` b).

(** Line 338: [Math.ceil(config.targetTotalUsd / amountPerMessage)]. *)
Definition totalMessagesNeeded (cfg : Config) : Z :=
  Qceiling (targetTotalUsd cfg / amountPerMessageUsd cfg)%Qc.

(** Lines 340-349: the hour span, extended when [maxPerHour] events an hour
    cannot hold the total. *)
Definition spanHours (cfg : Config) : Z :=
  let initialHours := ceilDiv (endTimeUtc cfg - startTimeUtc cfg) 3600000 in
  let hours := Z.max 1 initialHours in
  let maxPossible := hours * maxPerHour cfg in
  if maxPossible <? totalMessagesNeeded cfg then
    let additionalHours :=
      ceilDiv (totalMessagesNeeded cfg - maxPossible) (maxPerHour cfg) in
    hours + additionalHours
  else hours.

Definition generatePerHourWeights (o : Oracle) (hours : Z) : list Q :=
  rnd_weight o <$> seq 0 (Z.to_nat hours).

(** [Math.round] on a rational. *)
Definition roundQ (x : Q) : Z := Qfloor (x + (1 # 2))%Q.

(** Line 354. *)
Definition initialPerHour (weights : list Q) (total : Z) : list Z :=
  let sumWeights := foldl Qplus 0%Q weights in
  (λ w, roundQ ((w / sumWeights) * inject_Z total)%Q) <$> weights.

(** Lines 366-374 and 420-428: hand out [diff] in the order [idxs], never
    lifting an hour above [maxPerHour]. Returns the array and what is left
    of [diff]. *)
Fixpoint addPass (maxPerHour : Z) (idxs : list nat) (perHour : list Z)
    (diff : Z) : list Z * Z :=
  match idxs with
  | [] => (perHour, diff)
  | i :: rest =>
      if diff <=? 0 then (perHour, diff)
      else
        let headroom := maxPerHour - perHour !!! i in
        if 0 <? headroom then
          let add := Z.min headroom diff in
          addPass maxPerHour rest (<[i := perHour !!! i + add]> perHour)
            (diff - add)
        else addPass maxPerHour rest perHour diff
  end.

(** Lines 378-386, 403-411 and 432-440: take [remaining] away in the order
    [idxs], never pushing an hour below [floor] ([0] in the two exact-total
    passes, [minPerHour] when the soft floor is repaid). *)
Fixpoint takePass (floor : Z) (idxs : list nat) (perHour : list Z)
    (remaining : Z) : list Z * Z :=
  match idxs with
  | [] => (perHour, remaining)
  | i :: rest =>
      if remaining <=? 0 then (perHour, remaining)
      else
        let reducible := Z.max 0 (perHour !!! i - floor) in
        if 0 <? reducible then
          let r := Z.min reducible remaining in
          takePass floor rest (<[i := perHour !!! i - r]> perHour)
            (remaining - r)
        else takePass floor rest perHour remaining
  end.

(** The exact-total pass shared by lines 363-387 and 415-442. *)
Definition adjustToTotal (maxPerHour total : Z) (idxs : list nat)
    (perHour : list Z) : list Z :=
  let diff := total - sumZ perHour in
  if 0 <? diff then (addPass maxPerHour idxs perHour diff).1
  else if diff <? 0 then (takePass 0 idxs perHour (- diff)).1
  else perHour.

(** Lines 357-388: clamp to [maxPerHour] and rebalance, only when the
    rounded allocation misses the total. *)
Definition clampAndRebalance (maxPerHour total : Z) (idxs : list nat)
    (perHour : list Z) : list Z :=
  if bool_decide (sumZ perHour = total) then perHour
  else
    adjustToTotal maxPerHour total idxs
      ((λ n, Z.min n maxPerHour) <$> perHour).

(** Lines 392-399: raise every hour below [minPerHour], returning the
    array and the deficit this created. *)
Fixpoint raiseToFloor (minPerHour : Z) (perHour : list Z) : list Z * Z :=
  match perHour with
  | [] => ([], 0)
  | n :: rest =>
      let '(rest', deficit) := raiseToFloor minPerHour rest in
      if n <? minPerHour then
        let need := minPerHour - n in
        ((n + need) :: rest', need + deficit)
      else (n :: rest', deficit)
  end.

(** Lines 390-412. *)
Definition softFloor (minPerHour : Z) (idxs : list nat) (perHour : list Z)
  : list Z :=
  let '(raised, deficit) := raiseToFloor minPerHour perHour in
  if 0 <? deficit then (takePass minPerHour idxs raised deficit).1
  else raised.

(** Lines 351-354: the allocation as rounded from the weights. *)
Definition roundedAllocation (cfg : Config) (o : Oracle) : list Z :=
  initialPerHour (generatePerHourWeights o (spanHours cfg))
    (totalMessagesNeeded cfg).

(** Lines 351-442: the per-hour allocation of [generateSchedule]. *)
Definition perHourAllocation (cfg : Config) (o : Oracle) : list Z :=
  let total := totalMessagesNeeded cfg in
  let hours := spanHours cfg in
  let n := Z.to_nat hours in
  let perHour0 := roundedAllocation cfg o in
  let perHour1 :=
    clampAndRebalance (maxPerHour cfg) total (rnd_shuffle o 1 n) perHour0 in
  let perHour2 := softFloor (minPerHour cfg) (rnd_shuffle o 2 n) perHour1 in
  adjustToTotal (maxPerHour cfg) total (rnd_shuffle o 3 n) perHour2.

(** ** Sorting

    [Array.prototype.sort] is stable; so is this insertion sort. *)
Fixpoint insertByKey {A} (key : A → Z) (x : A) (l : list A) : list A :=
  match l with
  | [] => [x]
  | y :: l' =>
      if key x <? key y then x :: y :: l' else y :: insertByKey key x l'
  end.

Definition sortByKey {A} (key : A → Z) (l : list A) : list A :=
  foldl (λ acc x, insertByKey key x acc) [] l.

(** ** [generateSchedule] (lines 334-461) *)

(** Lines 444-452. *)
Definition hourEvents (o : Oracle) (start : Z) (perHour : list Z) : list Z :=
  mjoin (imap (λ h count,
                 let hourStart := start + Z.of_nat h * 3600000 in
                 (λ s, hourStart + s * 1000) <$>
                   sampleUniqueSecondsWithinHour o h count)
              perHour).

Record Generated := mkGenerated {
  gen_schedule : list Z;
  gen_effectiveEnd : Z;
  gen_totalMessagesNeeded : Z
}.

Definition generateSchedule (cfg : Config) (o : Oracle) : Generated :=
  let start := startTimeUtc cfg in
  let perHour := perHourAllocation cfg o in
  let schedule := sortByKey id (hourEvents o start perHour) in
  let uniqueSchedule := enforceUniqueIntervals schedule in
  let effectiveEnd := start + spanHours cfg * 3600000 in
  mkGenerated uniqueSchedule effectiveEnd (totalMessagesNeeded cfg).

(** ** Schedule entries (lines 514, 527, 536, 549) *)

(** [kind]: ['buy'], ['countdown'], ['start']; anything else (a missing
    kind as well) takes the "unknown type" branch of the dispatcher. *)
Inductive Kind := Buy | Countdown | Start | OtherKind.

(** Message texts. [CountdownText m] is the template literal of lines
    504-513 at [minutes = m], [LaunchText] the literal of lines 517-526
    (the same text as the fallback of lines 806-815), [BuyText] the text
    that [buildMessage] (lines 563-590) renders from the corrected time, the
    new running total and [tokensPerHundred]; [RawText] is any other text
    found in a persisted entry. *)
Inductive Text :=
| CountdownText (minutes : Z)
| LaunchText
| BuyText (nowUtc : Z) (nextTotalUsd tokens : Qc)
| RawText (s : string).

(** An entry object [{ at, kind, text, image }]; [text] and [image] are
    absent on ['buy'] entries. *)
Record Event := mkEvent {
  at_ : Z;
  kind : Kind;
  text : option Text;
  image : option string
}.

#[global] Instance Kind_eq_dec : EqDecision Kind.
Proof. solve_decision. Defined.
#[global] Instance Text_eq_dec : EqDecision Text.
Proof. solve_decision. Defined.
#[global] Instance Event_eq_dec : EqDecision Event.
Proof. solve_decision. Defined.

(** ** [generateFullSchedule] (lines 475-557) *)

(** [!!x] on an optional boolean. *)
Definition truthy (x : option bool) : bool := default false x.

(** Lines 492-500. *)
Definition countdownMessages : list (Z * string) :=
  [(59, "59.png"); (30, "30.png"); (5, "5.png"); (4, "4.png");
   (3, "3.png"); (2, "2.png"); (1, "1.png")]%string.

(** What the special phase (lines 484-543) leaves behind: the entries
    pushed so far, [remainingMessages] and [normalStartIso]. *)
Record SpecialPlan := mkSpecialPlan {
  sp_entries : list Event;
  sp_remainingMessages : Z;
  sp_normalStart : Z
}.

(** Lines 476-543. [None] is the [RangeError] that [toISOString] throws
    when the special phase is enabled without a [presaleStartUtc]. *)
Definition specialPhasePlan (cfg : Config) (o : Oracle) : option SpecialPlan :=
  let totalMessagesNeeded := totalMessagesNeeded cfg in
  let plain := mkSpecialPlan [] totalMessagesNeeded (startTimeUtc cfg) in
  match specialPhase cfg with
  | None => Some plain
  | Some sp =>
      if truthy (enabled sp) then
        match presaleStartUtc sp with
        | None => None
        | Some presaleStart =>
            let initialBurstMinutes :=
              match initialBurstMinutes sp with
              | Some m => if m =? 0 then 10 else m
              | None => 10
              end in
            let initialBurstCount := default 0 (initialBurstCount sp) in
            let countdown :=
              (λ '(minutes, image),
                 mkEvent (presaleStart - minutes * 60000) Countdown
                   (Some (CountdownText minutes)) (Some image))
                <$> countdownMessages in
            let launch :=
              mkEvent presaleStart Start (Some LaunchText)
                (Some "live.png"%string) in
            if 0 <? initialBurstCount then
              let burstStart := presaleStart in
              let burstSpanSec := initialBurstMinutes * 60 in
              let secs :=
                sampleUniqueSeconds o initialBurstCount burstSpanSec in
              let buys :=
                (λ s, mkEvent (burstStart + s * 1000) Buy None None) <$> secs in
              Some (mkSpecialPlan
                      (countdown ++ [launch] ++ buys)
                      (totalMessagesNeeded
                       - Z.min initialBurstCount totalMessagesNeeded)
                      (burstStart + burstSpanSec * 1000))
            else
              Some (mkSpecialPlan (countdown ++ [launch])
                      totalMessagesNeeded presaleStart)
        end
      else Some plain
  end.


(** Line 547: [{ ...config, startTimeUtc: normalStartIso,
    targetTotalUsd: remainingMessages * amountPerMessage }]. *)
Definition normalConfig (cfg : Config) (normalStart remainingMessages : Z)
  : Config :=
  mkConfig normalStart (endTimeUtc cfg)
    (Q2Qc (inject_Z remainingMessages) * amountPerMessageUsd cfg)%Qc
    (amountPerMessageUsd cfg) (minPerHour cfg) (maxPerHour cfg)
    (tokensPerHundred cfg) (startRaisedUsd cfg) (enforceHardStopAtEnd cfg)
    (BOT_TOKEN cfg) (TARGET_CHAT_ID cfg) (specialPhase cfg).

Definition buyAt (iso : Z) : Event := mkEvent iso Buy None None.

(** Lines 545-557. *)
Definition generateFullSchedule (cfg : Config) (o : Oracle)
  : option (list Event * Z) :=
  match specialPhasePlan cfg o with
  | None => None
  | Some sp =>
      if 0 <? sp_remainingMessages sp then
        let g :=
          generateSchedule
            (normalConfig cfg (sp_normalStart sp) (sp_remainingMessages sp))
            o in
        let entries := sp_entries sp ++ (buyAt <$> gen_schedule g) in
        Some (sortByKey at_ entries, gen_effectiveEnd g)
      else
        let entries := sortByKey at_ (sp_entries sp) in
        let lastAt :=
          match last entries with
          | Some e => at_ e
          | None => startTimeUtc cfg
          end in
        Some (entries, lastAt)
  end.

(** ** The configuration signature (lines 59-78)

    [getConfigSignature] builds an object of the scheduling fields and
    returns its [JSON.stringify]. The signature is modelled by that object:
    a list of keys with a scalar or, for [specialPhase], a nested object of
    scalars. [JSON.stringify] leaves out a field whose value is
    [undefined]. *)
Inductive SigAtom :=
| SigNull
| SigBool (b : bool)
| SigTime (iso : Z)
| SigInt (n : Z)
| SigNum (x : Qc).

Inductive SigValue :=
| SigLeaf (a : SigAtom)
| SigObject (fields : list (string * SigAtom)).

#[global] Instance SigAtom_eq_dec : EqDecision SigAtom.
Proof. solve_decision. Defined.
#[global] Instance SigValue_eq_dec : EqDecision SigValue.
Proof. solve_decision. Defined.

(** A field that [JSON.stringify] prints only when it is defined. *)
Definition optionalField (key : string) (v : option SigAtom)
  : list (string * SigAtom) :=
  match v with
  | Some a => [(key, a)]
  | None => []
  end.

Definition getConfigSignature (config : Config) : list (string * SigValue) :=
  [ ("startTimeUtc", SigLeaf (SigTime (startTimeUtc config)));
    ("endTimeUtc", SigLeaf (SigTime (endTimeUtc config)));
    ("targetTotalUsd", SigLeaf (SigNum (targetTotalUsd config)));
    ("minPerHour", SigLeaf (SigInt (minPerHour config)));
    ("maxPerHour", SigLeaf (SigInt (maxPerHour config)));
    ("amountPerMessageUsd", SigLeaf (SigNum (amountPerMessageUsd config)));
    ("tokensPerHundred", SigLeaf (SigNum (tokensPerHundred config)));
    ("enforceHardStopAtEnd", SigLeaf (SigBool (enforceHardStopAtEnd config)));
    ("specialPhase",
     match specialPhase config with
     | Some sp =>
         SigObject
           ([("enabled", SigBool (truthy (enabled sp)))]
            ++ optionalField "countdownStartUtc"
                 (SigTime <$> countdownStartUtc sp)
            ++ optionalField "presaleStartUtc"
                 (SigTime <$> presaleStartUtc sp)
            ++ optionalField "initialBurstMinutes"
                 (SigInt <$> initialBurstMinutes sp)
            ++ optionalField "initialBurstCount"
                 (SigInt <$> initialBurstCount sp))
     | None => SigLeaf SigNull
     end) ].

(** ** Execution state (lines 642-649) *)

(** An element of [state.schedule]: an ISO string (a ['buy']) or an entry
    object. *)
Inductive Item :=
| IsoItem (iso : Z)
| EventItem (e : Event).

#[global] Instance Item_eq_dec : EqDecision Item.
Proof. solve_decision. Defined.

Record State := mkState {
  configSignature : list (string * SigValue);
  schedule : list Item;
  effectiveEnd : Z;
  sentCount : nat;
  totalUsdRaised : Qc;
  completed : bool
}.

(** [typeof item === 'string' ? item : item.at]. *)
Definition itemAt (item : Item) : Z :=
  match item with
  | IsoItem iso => iso
  | EventItem e => at_ e
  end.

(** [typeof item === 'string' ? { kind: 'buy', at: item } : { ...item }]. *)
Definition itemEvent (item : Item) : Event :=
  match item with
  | IsoItem iso => mkEvent iso Buy None None
  | EventItem e => e
  end.

Definition setSentCount (st : State) (n : nat) : State :=
  mkState (configSignature st) (schedule st) (effectiveEnd st) n
    (totalUsdRaised st) (completed st).

Definition setTotalUsdRaised (st : State) (x : Qc) : State :=
  mkState (configSignature st) (schedule st) (effectiveEnd st) (sentCount st)
    x (completed st).

Definition setCompleted (st : State) (b : bool) : State :=
  mkState (configSignature st) (schedule st) (effectiveEnd st) (sentCount st)
    (totalUsdRaised st) b.

Definition setSchedule (st : State) (l : list Item) : State :=
  mkState (configSignature st) l (effectiveEnd st) (sentCount st)
    (totalUsdRaised st) (completed st).

(** ** Start-up (lines 638-659 and 843-851) *)

(** Lines 642-649: the state [main] writes after generating a plan;
    [None] when [generateFullSchedule] throws. *)
Definition freshState (cfg : Config) (o : Oracle) : option State :=
  '(schedule, effectiveEnd) ← generateFullSchedule cfg o;
  Some (mkState (getConfigSignature cfg) (EventItem <$> schedule)
          effectiveEnd 0 (startRaisedUsd cfg) false).

(** Lines 638-650: keep the persisted state when its signature is that of
    the configuration, generate a fresh one otherwise. [persisted] is what
    [readJsonFile(STATE_FILE, null)] returns. *)
Definition loadOrGenerate (cfg : Config) (o : Oracle)
    (persisted : option State) : option State :=
  let configSig := getConfigSignature cfg in
  match persisted with
  | Some state =>
      if bool_decide (configSignature state = configSig) then Some state
      else freshState cfg o
  | None => freshState cfg o
  end.

(** Lines 843-851: the hard-stop trim. *)
Definition hardStopTrim (cfg : Config) (state : State) : State :=
  if enforceHardStopAtEnd cfg then
    let endTs := endTimeUtc cfg in
    setSchedule state
      (filter (λ item, itemAt item ≤ endTs) (schedule state))
  else state.

(** The state with which [main] starts the loop (line 854). *)
Definition startup (cfg : Config) (o : Oracle) (persisted : option State)
  : option State :=
  hardStopTrim cfg <$> loadOrGenerate cfg o persisted.

(** ** The dispatch check [sendNextIfDue] (lines 743-841) *)

(** What one check reads from outside: the corrected clock
    ([getCurrentUtcTime()]), whether the Telegram request of this check
    succeeds, and [fs.existsSync]. *)
Record World := mkWorld {
  internetNow : Z;
  sendSucceeds : bool;
  existsSync : string → bool
}.

Inductive Request :=
| SendPhoto (photoPath : string) (caption : option Text)
| SendMessage (msg : option Text).

(** What one check does to the outside: [writeJsonFile(STATE_FILE, state)],
    a Telegram request (tagged with the cursor [state.sentCount] at the time
    of the call) and [setTimeout(sendNextIfDue, ms)]. *)
Inductive Effect :=
| WriteState (st : State)
| Send (cursor : nat) (req : Request)
| SetTimeout (ms : Z).

(** Line 760. *)
Definition MAX_ALLOWED_DELAY_MS : Z := 30 * 1000.

Inductive SkipOutcome :=
| AllSent (st : State) (trace : list Effect)
| Pending (st : State) (nextEvent : Event) (msUntil : Z)
    (trace : list Effect).

Definition traced (pre : list Effect) (r : SkipOutcome) : SkipOutcome :=
  match r with
  | AllSent st trace => AllSent st (pre ++ trace)
  | Pending st ev ms trace => Pending st ev ms (pre ++ trace)
  end.

(** Lines 761-779. Every round moves the cursor, so
    [length schedule - sentCount] rounds are enough; [fuel] counts them.
    In the loop only [kind] and [at] of [nextEvent] are refreshed
    (lines 777-778): [text] and [image] stay those of the entry the check
    started with. *)
Fixpoint skipPastEvents (fuel : nat) (now : Z) (state : State)
    (nextEvent : Event) (msUntil : Z) : SkipOutcome :=
  if (msUntil <? - MAX_ALLOWED_DELAY_MS)
     && (sentCount state <? length (schedule state))%nat
  then
    match fuel with
    | O => Pending state nextEvent msUntil []
    | S fuel' =>
        let state1 := setSentCount state (S (sentCount state)) in
        if (length (schedule state1) <=? sentCount state1)%nat then
          let state2 := setCompleted state1 true in
          AllSent state2 [WriteState state1; WriteState state2]
        else
          match schedule state1 !! sentCount state1 with
          | None => Pending state1 nextEvent msUntil [WriteState state1]
          | Some nr =>
              let ne := itemEvent nr in
              let nextEvent' :=
                mkEvent (at_ ne) (kind ne) (text nextEvent) (image nextEvent) in
              traced [WriteState state1]
                (skipPastEvents fuel' now state1 nextEvent'
                   (itemAt nr - now))
          end
    end
  else Pending state nextEvent msUntil [].

(** [!msg] on an optional text. *)
Definition noText (t : option Text) : bool :=
  match t with
  | None => true
  | Some (RawText s) => bool_decide (s = "")
  | Some _ => false
  end.

(** Lines 798-823: the request for a ['countdown'] or ['start'] entry. *)
Definition markerRequest (w : World) (nextEvent : Event) : Request :=
  let msg := text nextEvent in
  let imagePath :=
    match image nextEvent with
    | Some i => if bool_decide (i = "") then None else Some i
    | None => None
    end in
  let '(msg, imagePath) :=
    if noText msg && bool_decide (kind nextEvent = Start)
    then (Some LaunchText, Some "live.png"%string)
    else (msg, imagePath) in
  match imagePath with
  | Some p => if existsSync w p then SendPhoto p msg else SendMessage msg
  | None => SendMessage msg
  end.

(** Lines 781-837: the entry is due. A failed request throws before the
    state is touched; the [catch] only logs. *)
Definition dispatch (cfg : Config) (w : World) (state : State)
    (nextEvent : Event) : State * list Effect :=
  let '(state', trace) :=
    match kind nextEvent with
    | Buy =>
        let nextTotal := (totalUsdRaised state + amountPerMessageUsd cfg)%Qc in
        let messageData :=
          BuyText (internetNow w) nextTotal (tokensPerHundred cfg) in
        let request := SendPhoto "feed.png" (Some messageData) in
        if sendSucceeds w then
          let state' :=
            setTotalUsdRaised (setSentCount state (S (sentCount state)))
              nextTotal in
          (state', [Send (sentCount state) request; WriteState state'])
        else (state, [Send (sentCount state) request])
    | Countdown | Start =>
        let request := markerRequest w nextEvent in
        if sendSucceeds w then
          let state' := setSentCount state (S (sentCount state)) in
          (state', [Send (sentCount state) request; WriteState state'])
        else (state, [Send (sentCount state) request])
    | OtherKind =>
        let state' := setSentCount state (S (sentCount state)) in
        (state', [WriteState state'])
    end in
  (state', trace ++ [SetTimeout 1000]).

Definition sendNextIfDue (cfg : Config) (w : World) (state : State)
  : State * list Effect :=
  if completed state then (state, [])
  else if (length (schedule state) <=? sentCount state)%nat then
    let state' := setCompleted state true in
    (state', [WriteState state'])
  else
    match schedule state !! sentCount state with
    | None => (state, [])
    | Some nextRaw =>
        let now := internetNow w in
        let nextEvent := itemEvent nextRaw in
        let msUntil := itemAt nextRaw - now in
        match skipPastEvents (length (schedule state) - sentCount state)
                now state nextEvent msUntil with
        | AllSent state' trace => (state', trace)
        | Pending state' nextEvent' msUntil' trace =>
            if msUntil' <=? 0 then
              let '(state'', trace') := dispatch cfg w state' nextEvent' in
              (state'', trace ++ trace')
            else
              (state', trace ++ [SetTimeout (Z.min msUntil' 5000)])
        end
    end.

(** The checks of a run, one per timer tick, each with what it finds
    outside. *)
Fixpoint run (cfg : Config) (ticks : list World) (state : State)
  : State * list Effect :=
  match ticks with
  | [] => (state, [])
  | w :: rest =>
      let '(state', trace) := sendNextIfDue cfg w state in
      let '(state'', trace') := run cfg rest state' in
      (state'', trace ++ trace')
  end.

(** The states the program can be in: what [main] starts the loop with
    when nothing usable is persisted, what a check leaves behind, and what
    [main] starts with when it finds such a state persisted. *)
Inductive Reachable (cfg : Config) : State → Prop :=
| reach_fresh o persisted state :
    (∀ old, persisted = Some old →
            configSignature old ≠ getConfigSignature cfg) →
    startup cfg o persisted = Some state →
    Reachable cfg state
| reach_check w state :
    Reachable cfg state →
    Reachable cfg (sendNextIfDue cfg w state).1
| reach_restart o state state' :
    Reachable cfg state →
    startup cfg o (Some state) = Some state' →
    Reachable cfg state'.

(** ** Agreement of two configurations on the signature's fields *)

(** The fields of [specialPhase] as the signature sees them: [enabled]
    through [!!]. *)
Definition sameSpecialPhase (a b : option SpecialPhase) : Prop :=
  match a, b with
  | None, None => True
  | Some x, Some y =>
      truthy (enabled x) = truthy (enabled y) ∧
      countdownStartUtc x = countdownStartUtc y ∧
      presaleStartUtc x = presaleStartUtc y ∧
      initialBurstMinutes x = initialBurstMinutes y ∧
      initialBurstCount x = initialBurstCount y
  | _, _ => False
  end.

Definition sameSchedulingFields (c1 c2 : Config) : Prop :=
  startTimeUtc c1 = startTimeUtc c2 ∧
  endTimeUtc c1 = endTimeUtc c2 ∧
  targetTotalUsd c1 = targetTotalUsd c2 ∧
  minPerHour c1 = minPerHour c2 ∧
  maxPerHour c1 = maxPerHour c2 ∧
  amountPerMessageUsd c1 = amountPerMessageUsd c2 ∧
  tokensPerHundred c1 = tokensPerHundred c2 ∧
  enforceHardStopAtEnd c1 = enforceHardStopAtEnd c2 ∧
  sameSpecialPhase (specialPhase c1) (specialPhase c2).


(** ** Staleness (line 761) *)

(** An entry is too old at [now] when it lies more than
    [MAX_ALLOWED_DELAY_MS] in the past, due when it does not lie in the
    future. *)
Definition tooOld (now : Z) (item : Item) : Prop :=
  itemAt item - now < - MAX_ALLOWED_DELAY_MS.

Definition due (now : Z) (item : Item) : Prop := itemAt item - now ≤ 0.

(** The writes of a run of skips that moves the cursor from [from] to
    [to]: one [writeJsonFile] after each increment. *)
Definition skipWrites (state : State) (from to : nat) : list Effect :=
  (λ j, WriteState (setSentCount state (S j))) <$> seq from (to - from).

(** Entries in non-decreasing order of their timestamps. *)
Definition sortedByAt (l : list Item) : Prop :=
  ∀ (i j : nat) (a b : Item),
    (i ≤ j)%nat → l !! i = Some a → l !! j = Some b → itemAt a ≤ itemAt b.

(** The three ways a check of a running plan can go. *)
Inductive CheckCase (cfg : Config) (w : World) (st : State) (item : Item)
  : State * list Effect → Prop :=
| check_all_skipped :
    (∀ j it, (sentCount st ≤ j)%nat → schedule st !! j = Some it →
             tooOld (internetNow w) it) →
    CheckCase cfg w st item
      (setCompleted (setSentCount st (length (schedule st))) true,
       skipWrites st (sentCount st) (length (schedule st))
       ++ [WriteState
             (setCompleted (setSentCount st (length (schedule st))) true)])
| check_dispatch k' item' ev :
    (sentCount st ≤ k')%nat →
    schedule st !! k' = Some item' →
    (∀ j it, (sentCount st ≤ j < k')%nat → schedule st !! j = Some it →
             tooOld (internetNow w) it) →
    ¬ tooOld (internetNow w) item' →
    due (internetNow w) item' →
    kind ev = kind (itemEvent item') →
    at_ ev = itemAt item' →
    text ev = text (itemEvent item) →
    image ev = image (itemEvent item) →
    CheckCase cfg w st item
      ((dispatch cfg w (setSentCount st k') ev).1,
       skipWrites st (sentCount st) k'
       ++ (dispatch cfg w (setSentCount st k') ev).2)
| check_wait k' item' :
    (sentCount st ≤ k')%nat →
    schedule st !! k' = Some item' →
    (∀ j it, (sentCount st ≤ j < k')%nat → schedule st !! j = Some it →
             tooOld (internetNow w) it) →
    ¬ due (internetNow w) item' →
    CheckCase cfg w st item
      (setSentCount st k',
       skipWrites st (sentCount st) k'
       ++ [SetTimeout (Z.min (itemAt item' - internetNow w) 5000)]).

(** What holds of every state the program can be in. *)
Definition Invariant (cfg : Config) (st : State) : Prop :=
  configSignature st = getConfigSignature cfg ∧
  (sentCount st ≤ length (schedule st))%nat ∧
  (completed st = true → sentCount st = length (schedule st)) ∧
  (enforceHardStopAtEnd cfg = true →
   Forall (λ item, itemAt item ≤ endTimeUtc cfg) (schedule st)).

(** ** Concrete inputs used below *)

(** An oracle whose draws are easy to follow: equal weights, shuffles that
    keep the order, and the first [count] seconds for every sample. *)
Definition plainOracle : Oracle :=
  mkOracle (λ _, 1%Q) (λ _ n, seq 0 n) (λ _ count, range count)
    (λ count _, range count).

(** 2025-08-08T17:45:00Z, the default [startTimeUtc] of line 619. *)
Definition t0 : Z := 1754675100000.

(** A one-hour window after [t0] with the default rates (30 to 60 events
    an hour, 100 USD an event). *)
Definition hourConfig (target : Z) (hardStop : bool)
    (sp : option SpecialPhase) : Config :=
  mkConfig t0 (t0 + 3600000) (Q2Qc (inject_Z target)) (Q2Qc 100) 30 60
    (Q2Qc (71428 # 100)) (Q2Qc 0) hardStop "token" "chat" sp.

(** The special phase of the specification's examples: launch at [t0], a
    burst of 5 events in the first 10 minutes. *)
Definition burstPhase : SpecialPhase :=
  mkSpecialPhase (Some true) (Some (t0 - 3600000)) (Some t0) (Some 10) (Some 5).

(** Two hours whose weights are 11 to 9. *)
Definition skewedOracle : Oracle :=
  mkOracle (λ i, match i with O => 11 # 20 | _ => 9 # 20 end)
    (λ _ n, seq 0 n) (λ _ count, range count) (λ count _, range count).

Definition twoHourConfig : Config :=
  mkConfig t0 (t0 + 7200000) (Q2Qc 12000) (Q2Qc 100) 30 60
    (Q2Qc (71428 # 100)) (Q2Qc 0) false "token" "chat" None.

(** The two optional spellings of a disabled special phase. *)
Definition phaseWithoutFlag : SpecialPhase :=
  mkSpecialPhase None (Some (t0 - 3600000)) (Some t0) (Some 10) (Some 5).

Definition phaseSwitchedOff : SpecialPhase :=
  mkSpecialPhase (Some false) (Some (t0 - 3600000)) (Some t0) (Some 10)
    (Some 5).

(** A persisted plan of two purchases, at [t0] and 30 seconds later, for
    the one-hour configuration; nothing sent yet. *)
Definition twoBuys : State :=
  mkState (getConfigSignature (hourConfig 200 false None))
    [EventItem (buyAt t0); EventItem (buyAt (t0 + 30000))]
    (t0 + 3600000) 0 (Q2Qc 0) false.

(** The world [ms] milliseconds after [t0]; every image file exists. *)
Definition worldAt (ms : Z) (sendOk : bool) : World :=
  mkWorld (t0 + ms) sendOk (λ _, true).

(** The plan that [main] generates for a target of one purchase in the
    one-hour window with [plainOracle]: a single entry at [t0]. *)
Definition oneBuy : State :=
  mkState (getConfigSignature (hourConfig 100 false None))
    [EventItem (buyAt t0)] (t0 + 3600000) 0 (Q2Qc 0) false.

(** A persisted plan for the hard-stop configuration whose last entry lies
    after the end of the window; the first entry has been sent. *)
Definition overrun : State :=
  mkState (getConfigSignature (hourConfig 200 true None))
    [EventItem (buyAt t0); EventItem (buyAt (t0 + 4000000))]
    (t0 + 7200000) 1 (Q2Qc 100) false.

(** A persisted plan of two markers: the one-minute countdown at [t0] and
    the launch a minute later. *)
Definition twoMarkers : State :=
  mkState (getConfigSignature (hourConfig 200 false None))
    [EventItem (mkEvent t0 Countdown (Some (CountdownText 1)) (Some "1.png"));
     EventItem (mkEvent (t0 + 60000) Start (Some LaunchText) (Some "live.png"))]
    (t0 + 3600000) 0 (Q2Qc 0) false.

(** * Further parts of [src/index.js]: clock offset, sampling loops,
    status endpoint *)

(** ** Clamping (lines 215-217) *)

Definition clamp (value min max : Z) : Z := Z.max min (Z.min max value).

(** ** The clock offset (lines 86-171)

    [timeOffset] is [null] until [initializeTimeOffset] has run. For each
    of the three time services, in the order in which they are asked: the
    UTC time read from its response, or [None] when the request throws or
    the response holds no valid date (the [toISOString] of the log call
    then throws inside the same [try], and the next service is asked). *)
Record TimeApis := mkTimeApis {
  worldtimeapi : option Z;
  timeapi_io : option Z;
  worldclockapi : option Z
}.

Inductive TimeApi := WorldTimeApi | TimeApiIo | WorldClockApi.

(** Lines 89-158: the new [timeOffset] and the services that were asked,
    in order. [systemTime] is the [new Date()] of line 93. *)
Definition initializeTimeOffset (timeOffset : option Z) (systemTime : Z)
    (apis : TimeApis) : option Z * list TimeApi :=
  match timeOffset with
  | Some _ => (timeOffset, [])
  | None =>
      match worldtimeapi apis with
      | Some internetTime => (Some (internetTime - systemTime), [WorldTimeApi])
      | None =>
          match timeapi_io apis with
          | Some internetTime =>
              (Some (internetTime - systemTime), [WorldTimeApi; TimeApiIo])
          | None =>
              match worldclockapi apis with
              | Some internetTime =>
                  (Some (internetTime - systemTime),
                   [WorldTimeApi; TimeApiIo; WorldClockApi])
              | None => (Some 0, [WorldTimeApi; TimeApiIo; WorldClockApi])
              end
          end
      end
  end.

(** Lines 160-165: [None] is the [Error] thrown while [timeOffset] is
    [null]; [dateNow] is [Date.now()]. *)
Definition getCurrentUtcTime (timeOffset : option Z) (dateNow : Z)
  : option Z :=
  match timeOffset with
  | None => None
  | Some offset => Some (dateNow + offset)
  end.

(** ** Rejection sampling (lines 208-212 and 468-472)

    [draws] are the successive values of [Math.floor(Math.random() * max)];
    [picked] is the [Set]. [None] stands for a loop that has used up the
    draws it was given. *)
Fixpoint pickDistinct (count : Z) (draws : list Z) (picked : gset Z)
  : option (gset Z) :=
  if Z.of_nat (size picked) <? count then
    match draws with
    | [] => None
    | d :: rest => pickDistinct count rest ({[d]} ∪ picked)
    end
  else Some picked.

(** Lines 204-212 with [max = 3600], lines 464-472 with
    [max = Math.max(1, spanSeconds)]. *)
Definition sampleUniqueFrom (max count : Z) (draws : list Z)
  : option (list Z) :=
  if max <=? count then Some (range max)
  else
    (λ picked, sortByKey id (elements picked)) <$> pickDistinct count draws ∅.

(** What a sample of [count] distinct seconds below [max] is. *)
Definition validSample (max count : Z) (l : list Z) : Prop :=
  strictlyIncreasing l ∧
  Forall (λ s, 0 ≤ s < max) l ∧
  Z.of_nat (length l) = count.

(** Oracles whose samples are what the sampling loops can return, and
    whose weights are positive as those of lines 326-329 are. *)
Definition samplesWellFormed (o : Oracle) : Prop :=
  (∀ h count, 0 < count < 3600 →
              validSample 3600 count (rnd_seconds o h count)) ∧
  (∀ count span, 0 < count < Z.max 1 span →
                 validSample (Z.max 1 span) count (rnd_burst o count span)).

Definition weightsPositive (o : Oracle) : Prop :=
  ∀ i, (0 < rnd_weight o i)%Q.

(** ** Gaps between consecutive timestamps (line 247) *)

Fixpoint gaps (times : list Z) : list Z :=
  match times with
  | [] => []
  | prev :: rest =>
      match rest with
      | [] => []
      | curr :: _ => deltaSecOf curr prev :: gaps rest
      end
  end.

(** ** The status endpoint (lines 681-699) *)

Record Status := mkStatus {
  status_totalUsdRaised : Qc;
  status_sentCount : nat;
  status_remaining : Z;
  status_completed : bool;
  status_effectiveEnd : Z;
  status_nextAt : option Z;
  status_countdownStartUtc : option Z;
  status_presaleStartUtc : option Z
}.

Definition statusResponse (cfg : Config) (state : State) : Status :=
  let remaining :=
    Z.max 0 (Z.of_nat (length (schedule state)) - Z.of_nat (sentCount state)) in
  let firstPending :=
    if (sentCount state <? length (schedule state))%nat
    then itemAt <$> schedule state !! sentCount state
    else None in
  mkStatus (totalUsdRaised state) (sentCount state) remaining
    (completed state) (effectiveEnd state) firstPending
    (sp ← specialPhase cfg; countdownStartUtc sp)
    (sp ← specialPhase cfg; presaleStartUtc sp).

(** ** Counting purchases *)

Definition isBuy (item : Item) : bool :=
  bool_decide (kind (itemEvent item) = Buy).

(** The number of ['buy'] entries at the indices [from .. to - 1] of a
    plan. *)
Definition buysBetween (plan : list Item) (from to : nat) : nat :=
  length (filter (λ j, isBuy <$> plan !! j = Some true)
            (seq from (to - from))).

(** [n] times [x = x + amount]. *)
Definition addedTimes (n : nat) (amount x : Qc) : Qc :=
  Nat.iter n (λ y, (y + amount)%Qc) x.

(** ** The main loop of [enforceUniqueIntervals], seen from outside

    What holds of the three mutable objects when the loop of line 244
    reaches index [i], in terms of the array the function was given. *)
Definition enforcerInvariant (input : list Z) (i : nat) (st : Enforcer.t)
  : Prop :=
  let times := Enforcer.times st in
  length times = length input ∧
  (∀ j, (i ≤ j)%nat → times !! j = input !! j) ∧
  times !! 0%nat = input !! 0%nat ∧
  (∀ j a b, input !! j = Some a → times !! j = Some b →
            floorToHourTs b = floorToHourTs a) ∧
  Enforcer.usedIntervals st = list_to_set (take (i - 1) (gaps times)) ∧
  (∀ j a b, (1 ≤ j < i)%nat → input !! j = Some a → times !! j = Some b →
            b ≠ a →
            (∃ sec, 0 ≤ sec < 3600 ∧ b = floorToHourTs a + sec * 1000) ∧
            ∀ d, gaps times !! (j - 1)%nat = Some d →
                 d ∉ take (j - 1) (gaps times)).

(** The caption or text a request carries. *)
Definition requestText (r : Request) : option Text :=
  match r with
  | SendPhoto _ caption => caption
  | SendMessage msg => msg
  end.

(** ** Counting the entries of a plan

    The number of entries of a kind, as the log of lines 651-658 reports
    it for a generated plan. *)


(** Whether the special phase is switched on (line 484). *)
Definition specialPhaseOn (cfg : Config) : bool :=
  match specialPhase cfg with
  | Some sp => truthy (enabled sp)
  | None => false
  end.

(** Line 486 and line 532: the burst span in seconds. *)
Definition burstSpanSec (sp : SpecialPhase) : Z :=
  match initialBurstMinutes sp with
  | Some m => if m =? 0 then 10 else m
  | None => 10
  end * 60.


(** [{ ...config, startTimeUtc }]. *)
Definition setStartTimeUtc (cfg : Config) (start : Z) : Config :=
  mkConfig start (endTimeUtc cfg) (targetTotalUsd cfg)
    (amountPerMessageUsd cfg) (minPerHour cfg) (maxPerHour cfg)
    (tokensPerHundred cfg) (startRaisedUsd cfg) (enforceHardStopAtEnd cfg)
    (BOT_TOKEN cfg) (TARGET_CHAT_ID cfg) (specialPhase cfg).

(** The entries pushed by lines 502-515 and line 527. *)
Definition countdownEntries (presaleStart : Z) : list Event :=
  (λ '(minutes, image),
     mkEvent (presaleStart - minutes * 60000) Countdown
       (Some (CountdownText minutes)) (Some image))
    <$> countdownMessages.

Definition launchEntry (presaleStart : Z) : Event :=
  mkEvent presaleStart Start (Some LaunchText) (Some "live.png").

(** Telegram requests among the effects of a check. *)
Definition isSend (e : Effect) : bool :=
  match e with
  | Send _ _ => true
  | _ => false
  end.

(** * Properties *)

(** ** The interval uniqueness enforcer *)

Section EnforcerProofs.
Import Enforcer.

Lemma floorToHourTs_bounds ts :
  floorToHourTs ts ≤ ts < floorToHourTs ts + 3600000.
Proof. unfold floorToHourTs. pose proof (Z.mod_pos_bound ts 3600000). lia. Qed.

Lemma acceptable_ts usedSecs usedInts hourStart prev candSec ts d :
  acceptable usedSecs usedInts hourStart prev candSec = Some (ts, d) →
  ts = hourStart + candSec * 1000.
Proof.
  unfold acceptable. repeat case_bool_decide; intros; simplify_eq. done.
Qed.

Lemma firstAcceptable_elem usedSecs usedInts hourStart prev cands ts d :
  firstAcceptable usedSecs usedInts hourStart prev cands = Some (ts, d) →
  ∃ candSec, candSec ∈ cands ∧ ts = hourStart + candSec * 1000.
Proof.
  induction cands as [|c cands IH]; simpl; [done|].
  destruct (acceptable _ _ _ _ c) as [[ts' d']|] eqn:Hacc.
  - intros [= -> ->]. exists c. split; [left|]. by eapply acceptable_ts.
  - intros H. destruct (IH H) as (c' & ? & ?). exists c'.
    split; [by right|done].
Qed.

Lemma radiusSearch_elem todo r usedSecs usedInts hourStart prev baseSec
    lbSec ubSec ts d :
  radiusSearch todo r usedSecs usedInts hourStart prev baseSec lbSec ubSec
  = Some (ts, d) →
  1 ≤ r →
  ∃ candSec, ts = hourStart + candSec * 1000 ∧
    ((baseSec < candSec ∧ candSec ≤ ubSec) ∨
     (candSec < baseSec ∧ lbSec ≤ candSec)).
Proof.
  revert r. induction todo as [|todo IH]; intros r; simpl; [done|].
  destruct (firstAcceptable _ _ _ _ _) as [[ts' d']|] eqn:Hfa.
  - intros [= -> ->] Hr. apply firstAcceptable_elem in Hfa as (c & Hc & ->).
    exists c. split; [done|]. unfold candidatesAt in Hc.
    apply elem_of_app in Hc as [Hc|Hc].
    + destruct (Z.leb_spec (baseSec + r) ubSec); [|by apply elem_of_nil in Hc].
      apply list_elem_of_singleton in Hc. lia.
    + destruct (Z.leb_spec lbSec (baseSec - r)); [|by apply elem_of_nil in Hc].
      apply list_elem_of_singleton in Hc. lia.
  - intros H Hr. apply (IH (r + 1)); [done|lia].
Qed.

Lemma linearScan_elem todo sec usedSecs usedInts hourStart prev ts d :
  linearScan todo sec usedSecs usedInts hourStart prev = Some (ts, d) →
  ∃ candSec, ts = hourStart + candSec * 1000 ∧
    sec ≤ candSec < sec + Z.of_nat todo.
Proof.
  revert sec. induction todo as [|todo IH]; intros sec; simpl; [done|].
  destruct (acceptable _ _ _ _ sec) as [[ts' d']|] eqn:Hacc.
  - intros [= -> ->]. exists sec. split; [by eapply acceptable_ts|lia].
  - intros H. destruct (IH _ H) as (c & ? & ?). exists c. split; [done|lia].
Qed.

(** A timestamp found by the search lies strictly after the previous
    entry, and either below the upper bound or below the current one. *)
Lemma search_bounds usedSecs usedInts prev curr upperBound ts d :
  let hourStart := floorToHourTs curr in
  let lowerBound := Z.max hourStart (prev + 1000) in
  search usedSecs usedInts hourStart prev (secondOfHour curr)
    (ceilMsToSec (lowerBound - hourStart))
    (floorMsToSec (upperBound - hourStart)) = Some (ts, d) →
  prev < curr →
  prev < ts ∧ (ts ≤ upperBound ∨ ts < curr).
Proof.
  intros hourStart lowerBound. unfold search.
  pose proof (floorToHourTs_bounds curr) as Hh.
  assert (Hbase : secondOfHour curr * 1000 ≤ curr - hourStart
                  < secondOfHour curr * 1000 + 1000).
  { unfold secondOfHour. fold hourStart.
    pose proof (Z.div_mod (curr - hourStart) 1000).
    pose proof (Z.mod_pos_bound (curr - hourStart) 1000). lia. }
  assert (Hlb : ∀ c, ceilMsToSec (lowerBound - hourStart) ≤ c →
                     lowerBound ≤ hourStart + c * 1000).
  { intros c. unfold ceilMsToSec.
    pose proof (Z.div_mod (- (lowerBound - hourStart)) 1000).
    pose proof (Z.mod_pos_bound (- (lowerBound - hourStart)) 1000). lia. }
  assert (Hub : ∀ c, c ≤ floorMsToSec (upperBound - hourStart) →
                     hourStart + c * 1000 ≤ upperBound).
  { intros c. unfold floorMsToSec.
    pose proof (Z.div_mod (upperBound - hourStart) 1000).
    pose proof (Z.mod_pos_bound (upperBound - hourStart) 1000). lia. }
  destruct (radiusSearch _ _ _ _ _ _ _ _ _) as [[ts' d']|] eqn:Hrad.
  - intros [= -> ->] Hlt.
    apply radiusSearch_elem in Hrad as (c & -> & [[? ?]|[? ?]]); [| |lia].
    + specialize (Hub c). lia.
    + specialize (Hlb c). lia.
  - intros Hlin Hlt.
    apply linearScan_elem in Hlin as (c & -> & ? & ?).
    specialize (Hlb c). specialize (Hub c). lia.
Qed.

Lemma strictlyIncreasing_insert (l : list Z) (i : nat) (prev c' : Z) :
  strictlyIncreasing l →
  (1 ≤ i)%nat →
  l !! (i - 1)%nat = Some prev →
  prev < c' →
  (∀ next, l !! S i = Some next → c' < next) →
  strictlyIncreasing (<[i := c']> l).
Proof.
  intros Hinc Hi Hprev Hlo Hhi j a b Ha Hb.
  destruct (decide (j = i)) as [->|Hji].
  - apply list_lookup_insert_Some in Ha as [(_ & <- & _)|[? _]]; [|done].
    rewrite list_lookup_insert_ne in Hb by lia. by apply Hhi.
  - rewrite list_lookup_insert_ne in Ha by done.
    destruct (decide (S j = i)) as [<-|Hsji].
    + apply list_lookup_insert_Some in Hb as [(_ & <- & _)|[? _]]; [|done].
      replace (S j - 1)%nat with j in Hprev by lia. congruence.
    + rewrite list_lookup_insert_ne in Hb by done. eauto.
Qed.

Lemma step_preserves st i :
  (1 ≤ i)%nat →
  strictlyIncreasing (times st) →
  strictlyIncreasing (times (step st i)) ∧
  length (times (step st i)) = length (times st).
Proof.
  intros Hi Hinc. unfold step.
  destruct (times st !! (i - 1)%nat) as [prev|] eqn:Hprev; [|done].
  destruct (times st !! i) as [curr|] eqn:Hcurr; [|done].
  assert (Hpc : prev < curr).
  { apply (Hinc (i - 1)%nat); [done|]. by replace (S (i - 1)) with i by lia. }
  case_bool_decide; [|done].
  cbv zeta.
  match goal with |- context [Z.ltb ?a ?b] => destruct (Z.ltb_spec a b) end;
    [done|].
  match goal with
  | |- context [search ?x1 ?x2 ?x3 ?x4 ?x5 ?x6 ?x7] =>
      destruct (search x1 x2 x3 x4 x5 x6 x7) as [[ts d]|] eqn:Hs
  end; simpl.
  - rewrite length_insert. split; [|done].
    apply search_bounds in Hs as [Hlo Hhi]; [|done].
    eapply strictlyIncreasing_insert; eauto.
    intros next Hnext. rewrite Hnext in Hhi.
    assert (curr < next) by eauto. lia.
  - rewrite length_insert. split; [|done].
    by rewrite list_insert_id.
Qed.

Lemma fold_step_preserves n k st :
  (1 ≤ k)%nat →
  strictlyIncreasing (times st) →
  strictlyIncreasing (times (fold_left step (seq k n) st)) ∧
  length (times (fold_left step (seq k n) st)) = length (times st).
Proof.
  revert k st. induction n as [|n IH]; intros k st Hk Hinc; simpl; [done|].
  destruct (step_preserves st k Hk Hinc) as [Hinc' Hlen'].
  destruct (IH (S k) (step st k)) as [? ?]; [lia|done|].
  split; [done|congruence].
Qed.
End EnforcerProofs.

(** C2. For every strictly increasing list of timestamps, the output of
    [enforceUniqueIntervals] has as many elements as the input and is
    strictly increasing: [output[i] > output[i-1]] for all [i >= 1]. *)
Theorem enforceUniqueIntervals_strictly_increasing (schedule : list Z) :
  strictlyIncreasing schedule →
  length (enforceUniqueIntervals schedule) = length schedule ∧
  strictlyIncreasing (enforceUniqueIntervals schedule).
Proof.
  intros Hinc. unfold enforceUniqueIntervals.
  destruct (length schedule <=? 1)%nat; [done|].
  unfold Enforcer.loop.
  destruct (fold_step_preserves (length schedule - 1) 1
              (Enforcer.mk schedule ∅ (Enforcer.initHourToSeconds schedule)))
    as [? ?]; [lia|done|].
  done.
Qed.

Lemma enforceUniqueIntervals_strictly_increasing_witness :
  strictlyIncreasing [0; 10000; 20000; 30000] ∧
  length (enforceUniqueIntervals [0; 10000; 20000; 30000]) = 4%nat ∧
  strictlyIncreasing (enforceUniqueIntervals [0; 10000; 20000; 30000]).
Proof.
  assert (H : strictlyIncreasing [0; 10000; 20000; 30000]).
  { intros [|[|[|[|i]]]] a b Ha Hb; simplify_eq/=; lia. }
  split; [exact H|].
  exact (enforceUniqueIntervals_strictly_increasing _ H).
Defined.

(** ** The rate envelope *)

Section Passes.

Lemma foldl_add_acc (a : Z) (l : list Z) :
  foldl Z.add a l = a + foldl Z.add 0 l.
Proof.
  revert a. induction l as [|x l IH]; intros a; cbn [foldl]; [lia|].
  rewrite (IH (a + x)), (IH (0 + x)). lia.
Qed.

Lemma sumZ_nil : sumZ [] = 0.
Proof. done. Qed.

Lemma sumZ_cons (x : Z) (l : list Z) : sumZ (x :: l) = x + sumZ l.
Proof. unfold sumZ. simpl. apply foldl_add_acc. Qed.

Lemma sumZ_insert (l : list Z) (i : nat) (v : Z) :
  (i < length l)%nat → sumZ (<[i := v]> l) = sumZ l - l !!! i + v.
Proof.
  revert i. induction l as [|x l IH]; intros [|i] Hi; simpl in Hi; try lia.
  - change (<[0%nat := v]> (x :: l)) with (v :: l).
    change ((x :: l) !!! 0%nat) with x. rewrite !sumZ_cons. lia.
  - change (<[S i := v]> (x :: l)) with (x :: <[i := v]> l).
    change ((x :: l) !!! S i) with (l !!! i).
    rewrite !sumZ_cons, IH by lia. lia.
Qed.

Lemma sumZ_app (l1 l2 : list Z) : sumZ (l1 ++ l2) = sumZ l1 + sumZ l2.
Proof.
  induction l1 as [|x l1 IH]; [done|].
  rewrite <- app_comm_cons, !sumZ_cons, IH. lia.
Qed.

Lemma sumZ_Permutation (l1 l2 : list Z) :
  Permutation l1 l2 → sumZ l1 = sumZ l2.
Proof. induction 1; rewrite ?sumZ_cons; lia. Qed.

(** The capacity of the hours [idxs] of [perHour], measured by [f]. *)
Definition capacity (f : Z → Z) (idxs : list nat) (perHour : list Z) : Z :=
  sumZ ((λ i, f (perHour !!! i)) <$> idxs).

Lemma capacity_insert_notin f idxs (perHour : list Z) i v :
  i ∉ idxs → capacity f idxs (<[i := v]> perHour) = capacity f idxs perHour.
Proof.
  intros Hi. unfold capacity. f_equal. apply list_fmap_ext.
  intros k j Hj. simpl.
  rewrite list_lookup_total_insert_ne; [done|].
  intros ->. apply Hi. by eapply list_elem_of_lookup_2.
Qed.

Lemma capacity_seq f (perHour : list Z) :
  capacity f (seq 0 (length perHour)) perHour = sumZ (f <$> perHour).
Proof.
  unfold capacity.
  induction perHour as [|x l IH] using rev_ind; [done|].
  rewrite length_app, Nat.add_1_r, seq_S, !fmap_app, !sumZ_app. simpl.
  rewrite <- IH. f_equal.
  - f_equal. apply list_fmap_ext. intros k j Hj. simpl.
    apply lookup_seq in Hj as [-> ?].
    by rewrite lookup_total_app_l.
  - rewrite list_lookup_total_middle; done.
Qed.

Lemma capacity_shuffle f idxs (perHour : list Z) :
  Permutation idxs (seq 0 (length perHour)) →
  capacity f idxs perHour = sumZ (f <$> perHour).
Proof.
  intros Hp. rewrite <- capacity_seq. unfold capacity.
  apply sumZ_Permutation. by apply fmap_Permutation.
Qed.

Lemma shuffle_NoDup idxs n : Permutation idxs (seq 0 n) → NoDup idxs.
Proof. intros Hp. rewrite Hp. apply NoDup_seq. Qed.

Lemma shuffle_in_range idxs n i :
  Permutation idxs (seq 0 n) → i ∈ idxs → (i < n)%nat.
Proof. intros Hp Hi. rewrite Hp in Hi. apply elem_of_seq in Hi. lia. Qed.

Lemma capacity_nonneg f idxs (perHour : list Z) :
  (∀ x, 0 ≤ f x) → 0 ≤ capacity f idxs perHour.
Proof.
  intros Hf. unfold capacity.
  induction idxs as [|i rest IH]; [done|].
  rewrite fmap_cons, sumZ_cons. specialize (Hf (perHour !!! i)). lia.
Qed.

Lemma capacity_cons f i rest (perHour : list Z) :
  capacity f (i :: rest) perHour = f (perHour !!! i) + capacity f rest perHour.
Proof. unfold capacity. by rewrite fmap_cons, sumZ_cons. Qed.

(** What one adding pass does: the length is kept, what is handed out is
    taken from [diff], no hour moves down or above [maxPerHour] (unless it
    was there already), and [diff] is used up when the headroom of the
    visited hours allows it. *)
Lemma addPass_spec maxPerHour idxs (perHour : list Z) diff :
  NoDup idxs →
  (∀ i, i ∈ idxs → (i < length perHour)%nat) →
  0 ≤ diff →
  let r := addPass maxPerHour idxs perHour diff in
  length r.1 = length perHour ∧
  sumZ r.1 + r.2 = sumZ perHour + diff ∧
  0 ≤ r.2 ∧
  (diff ≤ capacity (λ x, Z.max 0 (maxPerHour - x)) idxs perHour → r.2 = 0) ∧
  (∀ j, perHour !!! j ≤ r.1 !!! j ≤ Z.max (perHour !!! j) maxPerHour).
Proof.
  revert perHour diff.
  induction idxs as [|i rest IH]; intros perHour diff Hnd Hrange Hdiff; simpl.
  { unfold capacity; simpl; rewrite sumZ_nil. split_and!; lia. }
  apply NoDup_cons in Hnd as [Hi Hnd].
  assert (Hilt : (i < length perHour)%nat) by (apply Hrange; left).
  assert (Hrange' : ∀ j, j ∈ rest → (j < length perHour)%nat)
    by (intros; apply Hrange; by right).
  rewrite capacity_cons.
  destruct (Z.leb_spec diff 0) as [Hd0|Hd0]; simpl.
  { split_and!; lia. }
  set (x := perHour !!! i) in *.
  destruct (Z.ltb_spec 0 (maxPerHour - x)) as [Hh|Hh].
  - set (add := Z.min (maxPerHour - x) diff).
    specialize (IH (<[i := x + add]> perHour) (diff - add) Hnd).
    rewrite length_insert in IH.
    destruct IH as (Hlen & Hsum & Hpos & Hcap & Hbnd); [done|lia|].
    rewrite sumZ_insert in Hsum by done. fold x in Hsum.
    rewrite capacity_insert_notin in Hcap by done.
    assert (0 ≤ capacity (λ x, Z.max 0 (maxPerHour - x)) rest perHour)
      by (apply capacity_nonneg; intros; lia).
    split_and!; [done|lia|done|intros; apply Hcap; lia|].
    intros j. specialize (Hbnd j).
    destruct (decide (i = j)) as [<-|Hij].
    + rewrite list_lookup_total_insert_eq in Hbnd by done. fold x. lia.
    + rewrite list_lookup_total_insert_ne in Hbnd by done. lia.
  - specialize (IH perHour diff Hnd Hrange' Hdiff).
    destruct IH as (Hlen & Hsum & Hpos & Hcap & Hbnd).
    split_and!; [done..|intros; apply Hcap; lia|done].
Qed.

(** The same for a taking pass with floor [floor]. *)
Lemma takePass_spec floor idxs (perHour : list Z) remaining :
  NoDup idxs →
  (∀ i, i ∈ idxs → (i < length perHour)%nat) →
  0 ≤ remaining →
  let r := takePass floor idxs perHour remaining in
  length r.1 = length perHour ∧
  sumZ r.1 = sumZ perHour - (remaining - r.2) ∧
  0 ≤ r.2 ∧
  (remaining ≤ capacity (λ x, Z.max 0 (x - floor)) idxs perHour → r.2 = 0) ∧
  (∀ j, Z.min (perHour !!! j) floor ≤ r.1 !!! j ≤ perHour !!! j).
Proof.
  revert perHour remaining.
  induction idxs as [|i rest IH]; intros perHour rem Hnd Hrange Hrem; simpl.
  { unfold capacity; simpl; rewrite sumZ_nil. split_and!; lia. }
  apply NoDup_cons in Hnd as [Hi Hnd].
  assert (Hilt : (i < length perHour)%nat) by (apply Hrange; left).
  assert (Hrange' : ∀ j, j ∈ rest → (j < length perHour)%nat)
    by (intros; apply Hrange; by right).
  rewrite capacity_cons.
  destruct (Z.leb_spec rem 0) as [Hd0|Hd0]; simpl.
  { split_and!; lia. }
  set (x := perHour !!! i) in *.
  destruct (Z.ltb_spec 0 (Z.max 0 (x - floor))) as [Hh|Hh].
  - set (r := Z.min (Z.max 0 (x - floor)) rem).
    specialize (IH (<[i := x - r]> perHour) (rem - r) Hnd).
    rewrite length_insert in IH.
    destruct IH as (Hlen & Hsum & Hpos & Hcap & Hbnd); [done|lia|].
    rewrite sumZ_insert in Hsum by done. fold x in Hsum.
    rewrite capacity_insert_notin in Hcap by done.
    assert (0 ≤ capacity (λ x, Z.max 0 (x - floor)) rest perHour)
      by (apply capacity_nonneg; intros; lia).
    split_and!; [done|lia|done|intros; apply Hcap; lia|].
    intros j. specialize (Hbnd j).
    destruct (decide (i = j)) as [<-|Hij].
    + rewrite list_lookup_total_insert_eq in Hbnd by done. fold x. lia.
    + rewrite list_lookup_total_insert_ne in Hbnd by done. lia.
  - specialize (IH perHour rem Hnd Hrange' Hrem).
    destruct IH as (Hlen & Hsum & Hpos & Hcap & Hbnd).
    split_and!; [done..|intros; apply Hcap; lia|done].
Qed.

Lemma sumZ_headroom maxPerHour (perHour : list Z) :
  Z.of_nat (length perHour) * maxPerHour - sumZ perHour
  ≤ sumZ ((λ x, Z.max 0 (maxPerHour - x)) <$> perHour).
Proof.
  induction perHour as [|x l IH]; [done|].
  rewrite fmap_cons, !sumZ_cons. simpl length. lia.
Qed.

Lemma sumZ_reducible floor (perHour : list Z) :
  sumZ perHour - Z.of_nat (length perHour) * floor
  ≤ sumZ ((λ x, Z.max 0 (x - floor)) <$> perHour).
Proof.
  induction perHour as [|x l IH]; [done|].
  rewrite fmap_cons, !sumZ_cons. simpl length. lia.
Qed.

Lemma Forall_lookup_total_bounds (P : Z → Prop) (l l' : list Z) :
  length l' = length l →
  (∀ j, (j < length l)%nat → P (l' !!! j)) →
  Forall P l'.
Proof.
  intros Hlen H. apply Forall_lookup. intros j x Hj.
  pose proof (lookup_lt_Some _ _ _ Hj).
  apply list_lookup_total_correct in Hj as <-. apply H. lia.
Qed.

(** The exact-total pass reaches the total whenever the total fits
    under [maxPerHour] an hour. *)
Lemma adjustToTotal_sum maxPerHour total idxs (perHour : list Z) :
  Permutation idxs (seq 0 (length perHour)) →
  0 ≤ total →
  total ≤ Z.of_nat (length perHour) * maxPerHour →
  sumZ (adjustToTotal maxPerHour total idxs perHour) = total.
Proof.
  intros Hp Htot Hfit. unfold adjustToTotal.
  pose proof (shuffle_NoDup _ _ Hp) as Hnd.
  pose proof (λ i, shuffle_in_range _ _ i Hp) as Hrange.
  destruct (Z.ltb_spec 0 (total - sumZ perHour)) as [Hd|Hd].
  - destruct (addPass_spec maxPerHour idxs perHour (total - sumZ perHour))
      as (_ & Hsum & _ & Hcap & _); [done|done|lia|].
    rewrite Hcap in Hsum; [lia|].
    rewrite capacity_shuffle by done.
    pose proof (sumZ_headroom maxPerHour perHour). lia.
  - destruct (Z.ltb_spec (total - sumZ perHour) 0) as [Hd'|Hd']; [|lia].
    destruct (takePass_spec 0 idxs perHour (- (total - sumZ perHour)))
      as (_ & Hsum & _ & Hcap & _); [done|done|lia|].
    rewrite Hcap in Hsum; [lia|].
    rewrite capacity_shuffle by done.
    pose proof (sumZ_reducible 0 perHour). lia.
Qed.

Lemma adjustToTotal_length maxPerHour total idxs (perHour : list Z) :
  Permutation idxs (seq 0 (length perHour)) →
  length (adjustToTotal maxPerHour total idxs perHour) = length perHour.
Proof.
  intros Hp. unfold adjustToTotal.
  pose proof (shuffle_NoDup _ _ Hp) as Hnd.
  pose proof (λ i, shuffle_in_range _ _ i Hp) as Hrange.
  destruct (Z.ltb_spec 0 (total - sumZ perHour)) as [Hd|Hd].
  - by destruct (addPass_spec maxPerHour idxs perHour (total - sumZ perHour))
      as (? & _); [done|done|lia|].
  - destruct (Z.ltb_spec (total - sumZ perHour) 0) as [Hd'|Hd']; [|done].
    by destruct (takePass_spec 0 idxs perHour (- (total - sumZ perHour)))
      as (? & _); [done|done|lia|].
Qed.

Lemma adjustToTotal_id maxPerHour idxs (perHour : list Z) :
  adjustToTotal maxPerHour (sumZ perHour) idxs perHour = perHour.
Proof.
  unfold adjustToTotal. rewrite Z.sub_diag.
  by rewrite (proj2 (Z.ltb_ge 0 0)) by lia.
Qed.

Lemma adjustToTotal_le_max maxPerHour total idxs (perHour : list Z) :
  Permutation idxs (seq 0 (length perHour)) →
  Forall (λ n, n ≤ maxPerHour) perHour →
  Forall (λ n, n ≤ maxPerHour) (adjustToTotal maxPerHour total idxs perHour).
Proof.
  intros Hp Hle. unfold adjustToTotal.
  pose proof (shuffle_NoDup _ _ Hp) as Hnd.
  pose proof (λ i, shuffle_in_range _ _ i Hp) as Hrange.
  assert (Hold : ∀ j, (j < length perHour)%nat → perHour !!! j ≤ maxPerHour).
  { intros j Hj. eapply (Forall_lookup_total_1 (λ n, n ≤ maxPerHour)); done. }
  destruct (Z.ltb_spec 0 (total - sumZ perHour)) as [Hd|Hd].
  - destruct (addPass_spec maxPerHour idxs perHour (total - sumZ perHour))
      as (Hlen & _ & _ & _ & Hbnd); [done|done|lia|].
    apply (Forall_lookup_total_bounds _ perHour); [done|].
    intros j Hj. specialize (Hbnd j). specialize (Hold j Hj). lia.
  - destruct (Z.ltb_spec (total - sumZ perHour) 0) as [Hd'|Hd']; [|done].
    destruct (takePass_spec 0 idxs perHour (- (total - sumZ perHour)))
      as (Hlen & _ & _ & _ & Hbnd); [done|done|lia|].
    apply (Forall_lookup_total_bounds _ perHour); [done|].
    intros j Hj. specialize (Hbnd j). specialize (Hold j Hj). lia.
Qed.

Lemma clampAndRebalance_length maxPerHour total idxs (perHour : list Z) :
  Permutation idxs (seq 0 (length perHour)) →
  length (clampAndRebalance maxPerHour total idxs perHour) = length perHour.
Proof.
  intros Hp. unfold clampAndRebalance. case_bool_decide; [done|].
  rewrite adjustToTotal_length; rewrite length_fmap; done.
Qed.

Lemma clampAndRebalance_sum maxPerHour total idxs (perHour : list Z) :
  Permutation idxs (seq 0 (length perHour)) →
  0 ≤ total →
  total ≤ Z.of_nat (length perHour) * maxPerHour →
  sumZ (clampAndRebalance maxPerHour total idxs perHour) = total.
Proof.
  intros Hp Htot Hfit. unfold clampAndRebalance. case_bool_decide; [done|].
  apply adjustToTotal_sum; rewrite ?length_fmap; done.
Qed.

(** The clamp runs only when the rounded allocation misses the total. *)
Lemma clampAndRebalance_le_max maxPerHour total idxs (perHour : list Z) :
  Permutation idxs (seq 0 (length perHour)) →
  sumZ perHour ≠ total ∨ Forall (λ n, n ≤ maxPerHour) perHour →
  Forall (λ n, n ≤ maxPerHour)
    (clampAndRebalance maxPerHour total idxs perHour).
Proof.
  intros Hp Hor. unfold clampAndRebalance. case_bool_decide as Heq.
  - by destruct Hor.
  - apply adjustToTotal_le_max; [by rewrite length_fmap|].
    apply Forall_fmap, Forall_true. intros x. simpl. lia.
Qed.

Lemma raiseToFloor_spec minPerHour (perHour : list Z) :
  (raiseToFloor minPerHour perHour).1 = (λ n, Z.max minPerHour n) <$> perHour ∧
  (raiseToFloor minPerHour perHour).2
    = sumZ ((λ n, Z.max minPerHour n) <$> perHour) - sumZ perHour ∧
  0 ≤ (raiseToFloor minPerHour perHour).2.
Proof.
  induction perHour as [|n rest IH]; [done|].
  rewrite fmap_cons, !sumZ_cons. cbn [raiseToFloor].
  destruct (raiseToFloor minPerHour rest) as [rest' deficit].
  cbn [fst snd] in IH. destruct IH as (-> & -> & Hpos).
  destruct (n <? minPerHour) eqn:E;
    [apply Z.ltb_lt in E | apply Z.ltb_ge in E];
    cbn [fst snd]; split_and!; try lia; f_equal; lia.
Qed.

Lemma softFloor_length minPerHour idxs (perHour : list Z) :
  Permutation idxs (seq 0 (length perHour)) →
  length (softFloor minPerHour idxs perHour) = length perHour.
Proof.
  intros Hp. unfold softFloor.
  destruct (raiseToFloor_spec minPerHour perHour) as (H1 & H2 & H3).
  destruct (raiseToFloor minPerHour perHour) as [raised deficit].
  simpl in *. subst raised.
  destruct (Z.ltb_spec 0 deficit); [|by rewrite length_fmap].
  destruct (takePass_spec minPerHour idxs
              ((λ n, Z.max minPerHour n) <$> perHour) deficit)
    as (Hlen & _); rewrite ?length_fmap in *; try done.
  - by eapply shuffle_NoDup.
  - intros i. by apply shuffle_in_range.
Qed.

(** When the floor is affordable the deficit is repaid in full: the total
    is unchanged and every hour ends between [minPerHour] and the larger
    of [minPerHour] and where it was. *)
Lemma softFloor_spec minPerHour idxs (perHour : list Z) :
  Permutation idxs (seq 0 (length perHour)) →
  Z.of_nat (length perHour) * minPerHour ≤ sumZ perHour →
  sumZ (softFloor minPerHour idxs perHour) = sumZ perHour ∧
  ∀ j, (j < length perHour)%nat →
       minPerHour ≤ softFloor minPerHour idxs perHour !!! j
                  ≤ Z.max minPerHour (perHour !!! j).
Proof.
  intros Hp Hfloor. unfold softFloor.
  destruct (raiseToFloor_spec minPerHour perHour) as (H1 & H2 & H3).
  destruct (raiseToFloor minPerHour perHour) as [raised deficit].
  simpl in *. subst raised.
  assert (Hraised : ∀ j, (j < length perHour)%nat →
            ((λ n, Z.max minPerHour n) <$> perHour) !!! j
            = Z.max minPerHour (perHour !!! j)).
  { intros j Hj.
    by rewrite (list_lookup_total_fmap (λ n, Z.max minPerHour n)). }
  destruct (Z.ltb_spec 0 deficit) as [Hd|Hd].
  - destruct (takePass_spec minPerHour idxs
                ((λ n, Z.max minPerHour n) <$> perHour) deficit)
      as (Hlen & Hsum & _ & Hcap & Hbnd); rewrite ?length_fmap in *; try done.
    { by eapply shuffle_NoDup. }
    { intros i. by apply shuffle_in_range. }
    rewrite Hcap in Hsum.
    + split; [lia|]. intros j Hj. specialize (Hbnd j).
      rewrite Hraised in Hbnd by done. lia.
    + rewrite capacity_shuffle by (by rewrite length_fmap).
      pose proof (sumZ_reducible minPerHour
                    ((λ n, Z.max minPerHour n) <$> perHour)) as Hr.
      rewrite length_fmap in Hr. lia.
  - split; [lia|]. intros j Hj. rewrite Hraised by done. lia.
Qed.

End Passes.

Section Allocation.

Lemma Qceiling_Q2Qc (q : Q) : Qceiling (Q2Qc q) = Qceiling q.
Proof. apply Qceiling_comp. simpl. apply Qred_correct. Qed.



(** Line 547 hands [generateSchedule] a target that gives back
    [remainingMessages]. *)
Lemma totalMessagesNeeded_normalConfig cfg normalStart remaining :
  amountPerMessageUsd cfg ≠ 0%Qc →
  totalMessagesNeeded (normalConfig cfg normalStart remaining) = remaining.
Proof.
  intros Ha. unfold totalMessagesNeeded, normalConfig.
  cbn [targetTotalUsd amountPerMessageUsd].
  rewrite Qcdiv_mult_l by done.
  rewrite Qceiling_Q2Qc. apply Qceiling_Z.
Qed.

Lemma spanHours_pos cfg : 0 ≤ maxPerHour cfg → 1 ≤ spanHours cfg.
Proof.
  intros Hmax. unfold spanHours. cbv zeta.
  set (hours := Z.max 1 _).
  destruct (Z.ltb_spec (hours * maxPerHour cfg) (totalMessagesNeeded cfg))
    as [Hlt|Hge]; [|lia].
  unfold ceilDiv.
  set (d := totalMessagesNeeded cfg - hours * maxPerHour cfg).
  destruct (decide (maxPerHour cfg = 0)) as [->|Hne].
  - rewrite Z.div_0_r. lia.
  - pose proof (Z.div_mod (- d) (maxPerHour cfg)).
    pose proof (Z.mod_pos_bound (- d) (maxPerHour cfg)). nia.
Qed.

(** Lines 344-349 make the span feasible: after the extension,
    [hours * maxPerHour] holds the total. *)
Lemma spanHours_feasible cfg :
  0 < maxPerHour cfg →
  totalMessagesNeeded cfg ≤ spanHours cfg * maxPerHour cfg.
Proof.
  intros Hmax. unfold spanHours. cbv zeta.
  set (hours := Z.max 1 _).
  destruct (Z.ltb_spec (hours * maxPerHour cfg) (totalMessagesNeeded cfg))
    as [Hlt|Hge]; [|lia].
  unfold ceilDiv.
  set (d := totalMessagesNeeded cfg - hours * maxPerHour cfg).
  pose proof (Z.div_mod (- d) (maxPerHour cfg)).
  pose proof (Z.mod_pos_bound (- d) (maxPerHour cfg)). nia.
Qed.

Lemma initialPerHour_length weights total :
  length (initialPerHour weights total) = length weights.
Proof. unfold initialPerHour. by rewrite length_fmap. Qed.

Lemma generatePerHourWeights_length o hours :
  length (generatePerHourWeights o hours) = Z.to_nat hours.
Proof. unfold generatePerHourWeights. by rewrite length_fmap, length_seq. Qed.

Lemma roundedAllocation_length cfg o :
  length (roundedAllocation cfg o) = Z.to_nat (spanHours cfg).
Proof.
  unfold roundedAllocation.
  by rewrite initialPerHour_length, generatePerHourWeights_length.
Qed.

(** The exactness of the final pass. *)
Lemma perHourAllocation_sum cfg o :
  shufflesPermute o →
  0 ≤ maxPerHour cfg →
  0 ≤ totalMessagesNeeded cfg →
  totalMessagesNeeded cfg ≤ spanHours cfg * maxPerHour cfg →
  sumZ (perHourAllocation cfg o) = totalMessagesNeeded cfg.
Proof.
  intros Hsh Hmax Htot Hfit. unfold perHourAllocation.
  set (n := Z.to_nat (spanHours cfg)).
  set (p1 := clampAndRebalance _ _ _ _).
  set (p2 := softFloor _ _ p1).
  assert (Hl1 : length p1 = n).
  { unfold p1. rewrite clampAndRebalance_length;
      rewrite ?roundedAllocation_length; done. }
  assert (Hl2 : length p2 = n).
  { unfold p2. rewrite softFloor_length; rewrite ?Hl1; done. }
  apply adjustToTotal_sum; rewrite ?Hl2; [done|done|].
  pose proof (spanHours_pos cfg Hmax). unfold n. lia.
Qed.

(** With an affordable floor the soft floor is repaid in full and the
    final pass has nothing to do: every hour ends at [minPerHour] or
    above, and at [maxPerHour] or below when the clamp of lines 361-387
    ran or no rounded hour was above [maxPerHour]. *)
Lemma perHourAllocation_bounds cfg o :
  shufflesPermute o →
  0 ≤ minPerHour cfg ≤ maxPerHour cfg →
  spanHours cfg * minPerHour cfg ≤ totalMessagesNeeded cfg →
  totalMessagesNeeded cfg ≤ spanHours cfg * maxPerHour cfg →
  Forall (λ n, minPerHour cfg ≤ n) (perHourAllocation cfg o) ∧
  (sumZ (roundedAllocation cfg o) ≠ totalMessagesNeeded cfg ∨
   Forall (λ n, n ≤ maxPerHour cfg) (roundedAllocation cfg o) →
   Forall (λ n, n ≤ maxPerHour cfg) (perHourAllocation cfg o)).
Proof.
  intros Hsh [Hmin Hmm] Hlow Hfit. unfold perHourAllocation.
  set (n := Z.to_nat (spanHours cfg)).
  set (total := totalMessagesNeeded cfg) in *.
  set (p1 := clampAndRebalance _ _ _ _).
  set (p2 := softFloor _ _ p1).
  assert (Hh : 1 ≤ spanHours cfg) by (apply spanHours_pos; lia).
  assert (Hn : Z.of_nat n = spanHours cfg) by (unfold n; lia).
  assert (Htot : 0 ≤ total) by nia.
  assert (Hl1 : length p1 = n).
  { unfold p1. rewrite clampAndRebalance_length;
      rewrite ?roundedAllocation_length; done. }
  assert (Hs1 : sumZ p1 = total).
  { unfold p1. apply clampAndRebalance_sum;
      rewrite ?roundedAllocation_length; try done. fold n. lia. }
  destruct (softFloor_spec (minPerHour cfg) (rnd_shuffle o 2 n) p1)
    as [Hs2 Hb2]; rewrite ?Hl1; [done|lia|].
  fold p2 in Hs2, Hb2.
  assert (Hl2 : length p2 = n).
  { unfold p2. rewrite softFloor_length; rewrite ?Hl1; done. }
  assert (Hfin : adjustToTotal (maxPerHour cfg) total (rnd_shuffle o 3 n) p2
                 = p2).
  { replace total with (sumZ p2) by lia. apply adjustToTotal_id. }
  rewrite Hfin. split.
  - apply (Forall_lookup_total_bounds _ p1); [lia|].
    intros j Hj. specialize (Hb2 j Hj). lia.
  - intros Hslip.
    assert (Hm1 : Forall (λ n, n ≤ maxPerHour cfg) p1).
    { unfold p1. apply clampAndRebalance_le_max;
        rewrite ?roundedAllocation_length; [done|exact Hslip]. }
    apply (Forall_lookup_total_bounds _ p1); [lia|].
    intros j Hj. specialize (Hb2 j Hj).
    assert (p1 !!! j ≤ maxPerHour cfg).
    { eapply (Forall_lookup_total_1 (λ n, n ≤ maxPerHour cfg)); done. }
    lia.
Qed.


End Allocation.


Lemma plainOracle_shuffles : shufflesPermute plainOracle.
Proof. intros k n. reflexivity. Qed.


(** C3 (as amended). When the floor is affordable,
    [hours * minPerHour <= total <= hours * maxPerHour] with
    [0 <= minPerHour <= maxPerHour], every hour of the allocation ends at
    [minPerHour] or above; and it ends at [maxPerHour] or below whenever the
    clamp of lines 361-387 ran (the rounded allocation missed the total) or
    no rounded hour exceeded [maxPerHour]. *)
Theorem perHourAllocation_within_bounds (cfg : Config) (o : Oracle) :
  shufflesPermute o →
  (0 < amountPerMessageUsd cfg)%Qc →
  0 ≤ minPerHour cfg ≤ maxPerHour cfg →
  spanHours cfg * minPerHour cfg ≤ totalMessagesNeeded cfg →
  totalMessagesNeeded cfg ≤ spanHours cfg * maxPerHour cfg →
  Forall (λ n, minPerHour cfg ≤ n) (perHourAllocation cfg o) ∧
  (sumZ (roundedAllocation cfg o) ≠ totalMessagesNeeded cfg ∨
   Forall (λ n, n ≤ maxPerHour cfg) (roundedAllocation cfg o) →
   Forall (λ n, minPerHour cfg ≤ n ≤ maxPerHour cfg)
     (perHourAllocation cfg o)).
Proof.
  intros Hsh _ Hmm Hlow Hfit.
  destruct (perHourAllocation_bounds cfg o Hsh Hmm Hlow Hfit) as [Hlo Hhi].
  split; [done|]. intros Hslip. specialize (Hhi Hslip).
  apply Forall_and. done.
Qed.

Lemma perHourAllocation_within_bounds_witness :
  Forall (λ n, 30 ≤ n)
    (perHourAllocation (hourConfig 14000 false None) plainOracle) ∧
  Forall (λ n, 30 ≤ n ≤ 60)
    (perHourAllocation (hourConfig 14000 false None) plainOracle).
Proof.
  destruct (perHourAllocation_within_bounds
              (hourConfig 14000 false None) plainOracle)
    as [Hlo Hboth].
  - exact plainOracle_shuffles.
  - by vm_compute.
  - by vm_compute.
  - by vm_compute.
  - by vm_compute.
  - split; [exact Hlo|]. apply Hboth. left. by vm_compute.
Defined.

(** A total below [hours * minPerHour]: 10 events in one hour with
    [minPerHour = 30]. The soft floor lifts the hour to 30 and the final
    pass takes the 20 back. *)
Lemma perHourAllocation_below_min :
  shufflesPermute plainOracle ∧
  totalMessagesNeeded (hourConfig 1000 false None)
    ≤ spanHours (hourConfig 1000 false None)
      * maxPerHour (hourConfig 1000 false None) ∧
  perHourAllocation (hourConfig 1000 false None) plainOracle = [10] ∧
  ¬ Forall (λ n, minPerHour (hourConfig 1000 false None) ≤ n
                 ≤ maxPerHour (hourConfig 1000 false None))
      (perHourAllocation (hourConfig 1000 false None) plainOracle).
Proof.
  split_and!.
  - exact plainOracle_shuffles.
  - by vm_compute.
  - by vm_compute.
  - intros H. apply Forall_cons_1 in H as [[H _] _].
    revert H. by vm_compute.
Qed.

(** The clamp is skipped when the rounded allocation already sums to the
    total: 120 events over two hours whose weights are 11 to 9 round to 66
    and 54, sum to 120, and stay above [maxPerHour = 60]. *)
Lemma perHourAllocation_unclamped :
  spanHours twoHourConfig = 2 ∧
  totalMessagesNeeded twoHourConfig = 120 ∧
  perHourAllocation twoHourConfig skewedOracle = [66; 54].
Proof. by vm_compute. Qed.

(** ** The composed plan and the signature *)

(** C4 (as amended). The [effectiveEnd] that [generateFullSchedule] returns
    is the timestamp of the last entry of the merged plan (the configured
    start when the plan is empty) only when the special phase leaves no
    ordinary event to schedule; when events remain it is the [effectiveEnd]
    of [generateSchedule]: the start of the normal schedule plus the,
    possibly extended, hour span. *)
Theorem generateFullSchedule_effectiveEnd
    (cfg : Config) (o : Oracle) (plan : list Event) (eEnd : Z) :
  generateFullSchedule cfg o = Some (plan, eEnd) →
  ∃ sp, specialPhasePlan cfg o = Some sp ∧
    (0 < sp_remainingMessages sp →
     eEnd = sp_normalStart sp
            + spanHours (normalConfig cfg (sp_normalStart sp)
                           (sp_remainingMessages sp)) * 3600000) ∧
    (sp_remainingMessages sp ≤ 0 →
     eEnd = match last plan with
            | Some e => at_ e
            | None => startTimeUtc cfg
            end).
Proof.
  unfold generateFullSchedule.
  destruct (specialPhasePlan cfg o) as [sp|]; [|done].
  destruct (Z.ltb_spec 0 (sp_remainingMessages sp)) as [Hpos|Hnone];
    intros [= <- <-]; exists sp; (split; [done|]); split; intros; try lia; done.
Qed.

Lemma generateFullSchedule_effectiveEnd_witness :
  ∃ sp, specialPhasePlan (hourConfig 300 false None) plainOracle = Some sp ∧
    (0 < sp_remainingMessages sp →
     t0 + 3600000
     = sp_normalStart sp
       + spanHours (normalConfig (hourConfig 300 false None)
                      (sp_normalStart sp) (sp_remainingMessages sp))
         * 3600000) ∧
    (sp_remainingMessages sp ≤ 0 →
     t0 + 3600000
     = match last (buyAt <$> [t0; t0 + 1000; t0 + 3000]) with
       | Some e => at_ e
       | None => startTimeUtc (hourConfig 300 false None)
       end).
Proof.
  apply (generateFullSchedule_effectiveEnd
           (hourConfig 300 false None) plainOracle).
  by vm_compute.
Defined.

(** Three events in one hour: the plan ends at [t0 + 3 s], the
    [effectiveEnd] is the end of the hour. *)
Lemma generateFullSchedule_effectiveEnd_not_last :
  generateFullSchedule (hourConfig 300 false None) plainOracle
  = Some (buyAt <$> [t0; t0 + 1000; t0 + 3000], t0 + 3600000) ∧
  t0 + 3600000
  ≠ match last (buyAt <$> [t0; t0 + 1000; t0 + 3000]) with
    | Some e => at_ e
    | None => startTimeUtc (hourConfig 300 false None)
    end.
Proof. split; by vm_compute. Qed.

Section Signature.

Lemma optionalFields_inj (a1 a2 b1 b2 c1 c2 d1 d2 : option Z) :
  optionalField "countdownStartUtc" (SigTime <$> a1)
    ++ optionalField "presaleStartUtc" (SigTime <$> b1)
    ++ optionalField "initialBurstMinutes" (SigInt <$> c1)
    ++ optionalField "initialBurstCount" (SigInt <$> d1)
  = optionalField "countdownStartUtc" (SigTime <$> a2)
    ++ optionalField "presaleStartUtc" (SigTime <$> b2)
    ++ optionalField "initialBurstMinutes" (SigInt <$> c2)
    ++ optionalField "initialBurstCount" (SigInt <$> d2) →
  a1 = a2 ∧ b1 = b2 ∧ c1 = c2 ∧ d1 = d2.
Proof.
  destruct a1, a2, b1, b2, c1, c2, d1, d2; simpl; intros H;
    simplify_eq; done.
Qed.

Lemma getConfigSignature_agree c1 c2 :
  getConfigSignature c1 = getConfigSignature c2 ↔ sameSchedulingFields c1 c2.
Proof.
  unfold getConfigSignature, sameSchedulingFields, sameSpecialPhase. split.
  - intros H. injection H as H1 H2 H3 H4 H5 H6 H7 H8 H9.
    split_and!; try done.
    destruct (specialPhase c1) as [x|], (specialPhase c2) as [y|];
      try done.
    injection H9 as He Hrest.
    apply optionalFields_inj in Hrest as (? & ? & ? & ?).
    done.
  - intros (-> & -> & -> & -> & -> & -> & -> & -> & Hsp).
    do 8 f_equal.
    destruct (specialPhase c1) as [x|], (specialPhase c2) as [y|];
      try done.
    destruct Hsp as (-> & -> & -> & -> & ->). done.
Qed.

End Signature.

(** C9 (as amended). Two configurations have the same signature exactly
    when they agree on the fields the signature lists, [specialPhase.enabled]
    being compared after its coercion to a boolean (absent counts as
    false). So a change of [targetTotalUsd] changes the signature and makes
    [main] discard the persisted state and generate a new plan, and a change
    of [BOT_TOKEN], [TARGET_CHAT_ID] or [startRaisedUsd] alone keeps the
    signature and the persisted plan. *)
Theorem getConfigSignature_invalidation (c1 c2 : Config) :
  (getConfigSignature c1 = getConfigSignature c2 ↔ sameSchedulingFields c1 c2) ∧
  (targetTotalUsd c1 ≠ targetTotalUsd c2 →
   getConfigSignature c1 ≠ getConfigSignature c2) ∧
  (∀ o state,
     configSignature state = getConfigSignature c1 →
     (sameSchedulingFields c1 c2 →
      loadOrGenerate c2 o (Some state) = Some state) ∧
     (¬ sameSchedulingFields c1 c2 →
      loadOrGenerate c2 o (Some state) = freshState c2 o)) ∧
  (∀ token chat raised,
     getConfigSignature
       (mkConfig (startTimeUtc c1) (endTimeUtc c1) (targetTotalUsd c1)
          (amountPerMessageUsd c1) (minPerHour c1) (maxPerHour c1)
          (tokensPerHundred c1) raised (enforceHardStopAtEnd c1)
          token chat (specialPhase c1))
     = getConfigSignature c1).
Proof.
  split_and!.
  - apply getConfigSignature_agree.
  - intros Hne Heq. apply getConfigSignature_agree in Heq.
    destruct Heq as (_ & _ & Htarget & _). by apply Hne.
  - intros o state Hsig. unfold loadOrGenerate. rewrite Hsig. split.
    + intros Hsame. apply getConfigSignature_agree in Hsame.
      by rewrite bool_decide_eq_true_2.
    + intros Hdiff. rewrite bool_decide_eq_false_2; [done|].
      by rewrite getConfigSignature_agree.
  - done.
Qed.

(** A special phase without an [enabled] flag and one with [enabled: false]
    differ in that field and have the same signature. *)
Lemma getConfigSignature_enabled_coerced :
  enabled phaseWithoutFlag ≠ enabled phaseSwitchedOff ∧
  hourConfig 14000 false (Some phaseWithoutFlag)
    ≠ hourConfig 14000 false (Some phaseSwitchedOff) ∧
  getConfigSignature (hourConfig 14000 false (Some phaseWithoutFlag))
  = getConfigSignature (hourConfig 14000 false (Some phaseSwitchedOff)).
Proof. split_and!; done. Qed.

(** C10. With [enforceHardStopAtEnd], the trim at start-up removes from the
    loaded or generated schedule exactly the entries whose timestamp is
    after [endTimeUtc], keeps the others in their order, and leaves the
    cursor [sentCount] as it was. *)
Theorem startup_hard_stop_trim
    (cfg : Config) (o : Oracle) (persisted : option State) (loaded : State) :
  enforceHardStopAtEnd cfg = true →
  loadOrGenerate cfg o persisted = Some loaded →
  ∃ state, startup cfg o persisted = Some state ∧
    schedule state
    = filter (λ item, itemAt item ≤ endTimeUtc cfg) (schedule loaded) ∧
    (∀ item, item ∈ schedule state ↔
             item ∈ schedule loaded ∧ itemAt item ≤ endTimeUtc cfg) ∧
    Forall (λ item, itemAt item ≤ endTimeUtc cfg) (schedule state) ∧
    schedule state `sublist_of` schedule loaded ∧
    sentCount state = sentCount loaded.
Proof.
  intros Hhard Hload. unfold startup. rewrite Hload. simpl.
  eexists; split; [done|]. unfold hardStopTrim. rewrite Hhard. simpl.
  split_and!; [done| | | |done].
  - intros item. rewrite list_elem_of_filter. tauto.
  - apply Forall_forall. intros item Hin.
    by apply list_elem_of_filter in Hin as [? _].
  - apply sublist_filter.
Qed.

Lemma startup_hard_stop_trim_witness :
  ∃ state,
    startup (hourConfig 200 true None) plainOracle (Some overrun) = Some state ∧
    schedule state
    = filter (λ item, itemAt item ≤ endTimeUtc (hourConfig 200 true None))
        (schedule overrun) ∧
    (∀ item, item ∈ schedule state ↔
             item ∈ schedule overrun
             ∧ itemAt item ≤ endTimeUtc (hourConfig 200 true None)) ∧
    Forall (λ item, itemAt item ≤ endTimeUtc (hourConfig 200 true None))
      (schedule state) ∧
    schedule state `sublist_of` schedule overrun ∧
    sentCount state = sentCount overrun.
Proof.
  apply (startup_hard_stop_trim (hourConfig 200 true None) plainOracle
           (Some overrun) overrun); reflexivity.
Defined.

Example overrun_trimmed :
  schedule <$> startup (hourConfig 200 true None) plainOracle (Some overrun)
  = Some [EventItem (buyAt t0)].
Proof. reflexivity. Qed.

(** ** The dispatch check *)

(** Case analysis on membership in an explicit list. *)
Ltac in_list :=
  repeat match goal with
  | H : _ ∈ _ :: _ |- _ => apply elem_of_cons in H as [H|H]
  | H : _ ∈ [] |- _ => by apply elem_of_nil in H
  end.

Section Dispatch.

Lemma setSentCount_same st : setSentCount st (sentCount st) = st.
Proof. by destruct st. Qed.

Lemma skipWrites_nil st k : skipWrites st k k = [].
Proof. unfold skipWrites. by rewrite Nat.sub_diag. Qed.

Lemma skipWrites_cons st k k' :
  (k < k')%nat →
  skipWrites st k k'
  = WriteState (setSentCount st (S k)) :: skipWrites st (S k) k'.
Proof.
  intros Hlt. unfold skipWrites.
  replace (k' - k)%nat with (S (k' - S k)) by lia. done.
Qed.

(** The skip loop: it stops at the first entry that is not too old, or
    at the end of the plan; it writes the state after every skip; it
    touches nothing but the cursor and, at the end of the plan, the
    completion flag. *)
Lemma skipPastEvents_spec fuel now st ev ms item :
  schedule st !! sentCount st = Some item →
  ms = itemAt item - now →
  kind ev = kind (itemEvent item) →
  at_ ev = itemAt item →
  (length (schedule st) - sentCount st ≤ fuel)%nat →
  match skipPastEvents fuel now st ev ms with
  | AllSent st' tr =>
      st' = setCompleted (setSentCount st (length (schedule st))) true ∧
      (∀ j it, (sentCount st ≤ j)%nat → schedule st !! j = Some it →
               tooOld now it) ∧
      tr = skipWrites st (sentCount st) (length (schedule st))
           ++ [WriteState st']
  | Pending st' ev' ms' tr =>
      ∃ k' item',
        st' = setSentCount st k' ∧
        (sentCount st ≤ k')%nat ∧
        schedule st !! k' = Some item' ∧
        (∀ j it, (sentCount st ≤ j < k')%nat → schedule st !! j = Some it →
                 tooOld now it) ∧
        ¬ tooOld now item' ∧
        ms' = itemAt item' - now ∧
        kind ev' = kind (itemEvent item') ∧
        at_ ev' = itemAt item' ∧
        text ev' = text ev ∧
        image ev' = image ev ∧
        tr = skipWrites st (sentCount st) k'
  end.
Proof.
  revert st ev ms item.
  induction fuel as [|fuel IH]; intros st ev ms item Hitem -> Hkind Hat Hfuel.
  - pose proof (lookup_lt_Some _ _ _ Hitem). lia.
  - pose proof (lookup_lt_Some _ _ _ Hitem) as Hlt.
    cbn [skipPastEvents].
    destruct (Z.ltb_spec (itemAt item - now) (- MAX_ALLOWED_DELAY_MS))
      as [Hold|Hfresh]; simpl.
    2:{ exists (sentCount st), item.
        rewrite setSentCount_same, skipWrites_nil.
        split_and!; try done; [intros; lia|unfold tooOld; lia]. }
    rewrite (proj2 (Nat.ltb_lt _ _) Hlt).
    destruct (Nat.leb_spec (length (schedule st)) (S (sentCount st)))
      as [Hend|Hmore].
    + assert (Hlen : length (schedule st) = S (sentCount st)) by lia.
      rewrite Hlen. split_and!; [done| |].
      * intros j it Hj Hit. pose proof (lookup_lt_Some _ _ _ Hit).
        assert (j = sentCount st) as -> by lia. by simplify_eq.
      * rewrite skipWrites_cons, skipWrites_nil by lia. done.
    + destruct (schedule st !! S (sentCount st)) as [nr|] eqn:Hnr.
      2:{ apply lookup_ge_None in Hnr. lia. }
      specialize (IH (setSentCount st (S (sentCount st)))
                    (mkEvent (at_ (itemEvent nr)) (kind (itemEvent nr))
                       (text ev) (image ev))
                    (itemAt nr - now) nr).
      simpl in IH. specialize (IH Hnr eq_refl eq_refl).
      destruct (skipPastEvents _ _ _ _ _) as [st' tr|st' ev' ms' tr]; simpl.
      * destruct IH as (-> & Hall & ->); [by destruct nr|lia|].
        split_and!; [done| |].
        -- intros j it Hj Hit.
           destruct (decide (j = sentCount st)) as [->|Hne].
           ++ by simplify_eq.
           ++ apply (Hall j); [lia|done].
        -- by rewrite (skipWrites_cons st (sentCount st)) by lia.
      * destruct IH as (k' & item' & -> & Hk' & Hitem' & Hall & Hfresh
                        & -> & Hk & Ha & Ht & Hi & ->);
          [by destruct nr|lia|].
        exists k', item'. split_and!; try done; [lia| |].
        -- intros j it Hj Hit.
           destruct (decide (j = sentCount st)) as [->|Hne].
           ++ by simplify_eq.
           ++ apply (Hall j); [lia|done].
        -- by rewrite (skipWrites_cons st (sentCount st)) by lia.
Qed.

Lemma elem_of_skipWrites st a b j :
  (a ≤ j < b)%nat → WriteState (setSentCount st (S j)) ∈ skipWrites st a b.
Proof.
  intros Hj. unfold skipWrites.
  apply (list_elem_of_fmap_2 (λ j, WriteState (setSentCount st (S j)))).
  apply elem_of_seq. lia.
Qed.

Lemma skipWrites_no_send st a b j req : Send j req ∉ skipWrites st a b.
Proof.
  unfold skipWrites. intros Hin.
  apply list_elem_of_fmap in Hin as (? & ? & _). done.
Qed.

Lemma itemEvent_eta item ev :
  kind ev = kind (itemEvent item) →
  at_ ev = itemAt item →
  text ev = text (itemEvent item) →
  image ev = image (itemEvent item) →
  ev = itemEvent item.
Proof. destruct ev, item as [iso|[]]; simpl; intros; by subst. Qed.

Lemma sendNextIfDue_cases cfg w st item :
  completed st = false →
  schedule st !! sentCount st = Some item →
  CheckCase cfg w st item (sendNextIfDue cfg w st).
Proof.
  intros Hrun Hitem. unfold sendNextIfDue. rewrite Hrun.
  pose proof (lookup_lt_Some _ _ _ Hitem) as Hlt.
  rewrite (proj2 (Nat.leb_gt _ _) Hlt), Hitem.
  pose proof (skipPastEvents_spec
                (length (schedule st) - sentCount st) (internetNow w) st
                (itemEvent item) (itemAt item - internetNow w) item
                Hitem eq_refl eq_refl) as Hskip.
  destruct (skipPastEvents _ _ _ _ _) as [st' tr|st' ev' ms' tr].
  - destruct Hskip as (-> & Hall & ->); [by destruct item|lia|].
    by constructor.
  - destruct Hskip as (k' & item' & -> & Hk' & Hitem' & Hall & Hfresh
                       & -> & Hk & Ha & Ht & Hi & ->);
      [by destruct item|lia|].
    destruct (Z.leb_spec (itemAt item' - internetNow w) 0) as [Hdue|Hnot].
    + destruct (dispatch cfg w (setSentCount st k') ev') as [st'' tr'] eqn:Hd.
      replace st'' with (dispatch cfg w (setSentCount st k') ev').1
        by (by rewrite Hd).
      replace tr' with (dispatch cfg w (setSentCount st k') ev').2
        by (by rewrite Hd).
      by eapply check_dispatch.
    + eapply check_wait; try done. unfold due. lia.
Qed.

(** What [dispatch] does to a state whose cursor is [k]. *)
Lemma dispatch_spec cfg w st ev :
  let r := dispatch cfg w st ev in
  schedule r.1 = schedule st ∧
  configSignature r.1 = configSignature st ∧
  completed r.1 = completed st ∧
  last r.2 = Some (SetTimeout 1000) ∧
  (∀ j req, Send j req ∈ r.2 → j = sentCount st) ∧
  (kind ev ≠ OtherKind → ∃ req, head r.2 = Some (Send (sentCount st) req)) ∧
  (kind ev = OtherKind → ∀ j req, Send j req ∉ r.2) ∧
  (sendSucceeds w = false → kind ev ≠ OtherKind →
     r.1 = st ∧ ∃ req, r.2 = [Send (sentCount st) req; SetTimeout 1000]) ∧
  (sendSucceeds w = true ∨ kind ev = OtherKind →
     sentCount r.1 = S (sentCount st) ∧ WriteState r.1 ∈ r.2) ∧
  ((sentCount r.1 = sentCount st ∧ totalUsdRaised r.1 = totalUsdRaised st) ∨
   (sentCount r.1 = S (sentCount st) ∧
    totalUsdRaised r.1 = totalUsdRaised st ∧ kind ev ≠ Buy) ∨
   (sentCount r.1 = S (sentCount st) ∧
    totalUsdRaised r.1
    = (totalUsdRaised st + amountPerMessageUsd cfg)%Qc ∧
    kind ev = Buy ∧ sendSucceeds w = true ∧
    ∃ req, Send (sentCount st) req ∈ r.2)).
Proof.
  unfold dispatch.
  destruct (kind ev) eqn:Hk, (sendSucceeds w) eqn:Hs; simpl;
    split_and!; try done;
    try (intros j req Hin; in_list; by simplify_eq);
    try (intros _ j req Hin; in_list; by simplify_eq);
    try (intros; eexists; done);
    try (intros; split; [done|eexists; done]);
    try (intros [?|?]; done);
    try (intros; split; [done|];
         first [ by apply elem_of_cons; left
               | by apply elem_of_cons; right; apply elem_of_cons; left ]);
    try (left; done);
    try (right; left; done).
  right; right. split_and!; try done. eexists. by left.
Qed.

End Dispatch.

Section Checks.

Lemma sendNextIfDue_top cfg w st :
  (completed st = true ∧ sendNextIfDue cfg w st = (st, [])) ∨
  (completed st = false ∧ (length (schedule st) ≤ sentCount st)%nat ∧
   sendNextIfDue cfg w st
   = (setCompleted st true, [WriteState (setCompleted st true)])) ∨
  (completed st = false ∧
   ∃ item, schedule st !! sentCount st = Some item ∧
           CheckCase cfg w st item (sendNextIfDue cfg w st)).
Proof.
  destruct (completed st) eqn:Hc.
  { left. unfold sendNextIfDue. by rewrite Hc. }
  right. destruct (schedule st !! sentCount st) as [item|] eqn:Hitem.
  - right. split; [done|]. exists item. split; [done|].
    by apply sendNextIfDue_cases.
  - left. apply lookup_ge_None in Hitem. split_and!; [done..|].
    unfold sendNextIfDue. rewrite Hc.
    by rewrite (proj2 (Nat.leb_le _ _) Hitem).
Qed.

(** A request is only ever issued by a check of a running plan, for the
    entry the cursor has reached. *)
Lemma sendNextIfDue_send cfg w st k req :
  Send k req ∈ (sendNextIfDue cfg w st).2 →
  completed st = false ∧
  ∃ item item' ev,
    schedule st !! sentCount st = Some item ∧
    (sentCount st ≤ k)%nat ∧
    schedule st !! k = Some item' ∧
    due (internetNow w) item' ∧
    kind ev = kind (itemEvent item') ∧
    kind ev ≠ OtherKind ∧
    sendNextIfDue cfg w st
    = ((dispatch cfg w (setSentCount st k) ev).1,
       skipWrites st (sentCount st) k
       ++ (dispatch cfg w (setSentCount st k) ev).2).
Proof.
  intros Hin.
  destruct (sendNextIfDue_top cfg w st)
    as [[_ Heq]|[(_ & _ & Heq)|(Hrun & item & Hitem & Hcase)]].
  - rewrite Heq in Hin. simpl in Hin. by in_list.
  - rewrite Heq in Hin. simpl in Hin. by in_list.
  - split; [done|].
    remember (sendNextIfDue cfg w st) as r eqn:Hr. clear Hr.
    destruct Hcase
      as [Hall|k' item' ev Hk' Hitem' Hall Hfresh Hdue Hkind Hat Htext Himage
         |k' item' Hk' Hitem' Hall Hnotdue]; simpl in Hin.
    + apply elem_of_app in Hin as [Hin|Hin];
        [by apply skipWrites_no_send in Hin|by in_list].
    + apply elem_of_app in Hin as [Hin|Hin];
        [by apply skipWrites_no_send in Hin|].
      destruct (dispatch_spec cfg w (setSentCount st k') ev)
        as (_ & _ & _ & _ & Hsend & _ & Hother & _).
      pose proof (Hsend _ _ Hin) as Hk. simpl in Hk. subst k.
      exists item, item', ev. split_and!; try done.
      intros Ho. by apply (Hother Ho) in Hin.
    + apply elem_of_app in Hin as [Hin|Hin];
        [by apply skipWrites_no_send in Hin|by in_list].
Qed.

End Checks.

(** The skip policy of one check, entry by entry. *)
Lemma sendNextIfDue_policy
    (cfg : Config) (w : World) (st : State) (item : Item) :
  completed st = false →
  schedule st !! sentCount st = Some item →
  let now := internetNow w in
  let r := sendNextIfDue cfg w st in
  (∀ j it,
     (sentCount st ≤ j)%nat →
     schedule st !! j = Some it →
     (∀ j' it', (sentCount st ≤ j' ≤ j)%nat → schedule st !! j' = Some it' →
                tooOld now it') →
     (S j ≤ sentCount r.1)%nat ∧
     WriteState (setSentCount st (S j)) ∈ r.2 ∧
     ∀ req, Send j req ∉ r.2) ∧
  (¬ tooOld now item → due now item →
     r = dispatch cfg w st (itemEvent item) ∧
     (kind (itemEvent item) ≠ OtherKind →
      ∃ req, head r.2 = Some (Send (sentCount st) req)) ∧
     (sendSucceeds w = true →
      sentCount r.1 = S (sentCount st) ∧ WriteState r.1 ∈ r.2)) ∧
  (∀ j req, Send j req ∈ r.2 →
     ∃ it, schedule st !! j = Some it ∧ ¬ tooOld now it ∧ due now it).
Proof.
  intros Hrun Hitem now r. subst r.
  destruct (sendNextIfDue_cases cfg w st item Hrun Hitem)
    as [Hall|k' item' ev Hk' Hitem' Hall Hfresh Hdue Hkind Hat Htext Himage
       |k' item' Hk' Hitem' Hall Hnotdue]; simpl.
  - (* everything from the cursor on was too old *)
    split_and!.
    + intros j it Hj Hit _. pose proof (lookup_lt_Some _ _ _ Hit).
      split_and!; [lia| |].
      * apply elem_of_app. left. apply elem_of_skipWrites. lia.
      * intros req Hin. apply elem_of_app in Hin as [Hin|Hin].
        -- by apply skipWrites_no_send in Hin.
        -- by in_list.
    + intros Hfresh _. destruct Hfresh. by apply (Hall (sentCount st)).
    + intros j req Hin. apply elem_of_app in Hin as [Hin|Hin].
      * by apply skipWrites_no_send in Hin.
      * by in_list.
  - (* the entry at [k'] is dispatched *)
    destruct (dispatch_spec cfg w (setSentCount st k') ev)
      as (_ & _ & _ & _ & Hsend & Hhead & _ & _ & Hok & Hcount).
    simpl in Hsend, Hhead, Hok, Hcount.
    assert (Hge : (k' ≤ sentCount
                          (dispatch cfg w (setSentCount st k') ev).1)%nat).
    { destruct Hcount as [[-> _]|[[-> _]|[-> _]]]; lia. }
    split_and!.
    + intros j it Hj Hit Hold.
      assert (j < k')%nat.
      { destruct (decide (j < k')%nat); [done|].
        destruct Hfresh. apply (Hold k'); [lia|done]. }
      split_and!; [lia| |].
      * apply elem_of_app. left. apply elem_of_skipWrites. lia.
      * intros req Hin. apply elem_of_app in Hin as [Hin|Hin].
        -- by apply skipWrites_no_send in Hin.
        -- apply Hsend in Hin. lia.
    + intros Hnew _.
      assert (k' = sentCount st) as ->.
      { destruct (decide (k' = sentCount st)); [done|].
        destruct Hnew. apply (Hall (sentCount st)); [lia|done]. }
      assert (item' = item) as -> by congruence.
      rewrite (itemEvent_eta item ev) in * by done.
      rewrite setSentCount_same in *. rewrite skipWrites_nil. simpl.
      split_and!; [by destruct (dispatch _ _ _ _)|done|].
      intros Hs. apply Hok. by left.
    + intros j req Hin. apply elem_of_app in Hin as [Hin|Hin].
      * by apply skipWrites_no_send in Hin.
      * apply Hsend in Hin as ->. by exists item'.
  - (* the entry at [k'] is still in the future *)
    split_and!.
    + intros j it Hj Hit Hold.
      assert (j < k')%nat.
      { destruct (decide (j < k')%nat); [done|].
        destruct Hnotdue. specialize (Hold k' item').
        unfold due, tooOld, MAX_ALLOWED_DELAY_MS in *.
        assert (itemAt item' - internetNow w < - (30 * 1000)); [|lia].
        apply Hold; [lia|done]. }
      split_and!; [lia| |].
      * apply elem_of_app. left. apply elem_of_skipWrites. lia.
      * intros req Hin. apply elem_of_app in Hin as [Hin|Hin].
        -- by apply skipWrites_no_send in Hin.
        -- by in_list.
    + intros Hnew Hd.
      assert (k' = sentCount st) as ->.
      { destruct (decide (k' = sentCount st)); [done|].
        destruct Hnew. apply (Hall (sentCount st)); [lia|done]. }
      assert (item' = item) as -> by congruence. done.
    + intros j req Hin. apply elem_of_app in Hin as [Hin|Hin].
      * by apply skipWrites_no_send in Hin.
      * by in_list.
Qed.




Example skip_then_send :
  (sendNextIfDue (hourConfig 200 false None) (worldAt 40000 true) twoBuys).2
  = [WriteState (setSentCount twoBuys 1);
     Send 1
       (SendPhoto "feed.png"
          (Some (BuyText (t0 + 40000) (0 + Q2Qc 100)%Qc
                   (Q2Qc (71428 # 100)))));
     WriteState
       (setTotalUsdRaised (setSentCount twoBuys 2) (0 + Q2Qc 100)%Qc);
     SetTimeout 1000].
Proof. reflexivity. Qed.

(** The entry sent after a skip is the one the cursor has reached, with
    the text and image of the entry the check started with: lines 777-778
    refresh [kind] and [at] only. 65 seconds after [t0] the countdown is
    skipped and the launch goes out with the countdown's text and image. *)
Example marker_after_skip :
  (sendNextIfDue (hourConfig 200 false None) (worldAt 65000 true) twoMarkers).2
  = [WriteState (setSentCount twoMarkers 1);
     Send 1 (SendPhoto "1.png" (Some (CountdownText 1)));
     WriteState (setSentCount twoMarkers 2);
     SetTimeout 1000].
Proof. reflexivity. Qed.

(** C6 (as amended). When the request of a check fails, the check leaves
    the state as the skips before it left it (untouched when nothing was
    skipped): the cursor stays on the entry, the running total is not
    incremented, and the next check is armed 1 second later. That check
    tries the same entry again as long as the entry is then at most 30
    seconds old; once it is older, the check skips it instead. *)
Theorem failed_send_keeps_entry
    (cfg : Config) (w : World) (st : State) (k : nat) (req : Request) :
  Send k req ∈ (sendNextIfDue cfg w st).2 →
  sendSucceeds w = false →
  let st' := (sendNextIfDue cfg w st).1 in
  st' = setSentCount st k ∧
  (k = sentCount st → st' = st) ∧
  sentCount st' = k ∧
  totalUsdRaised st' = totalUsdRaised st ∧
  last (sendNextIfDue cfg w st).2 = Some (SetTimeout 1000) ∧
  ∃ item, schedule st' !! k = Some item ∧
    ∀ w', internetNow w ≤ internetNow w' →
      (¬ tooOld (internetNow w') item →
       ∃ req', head (sendNextIfDue cfg w' st').2 = Some (Send k req')) ∧
      (tooOld (internetNow w') item →
       (k < sentCount (sendNextIfDue cfg w' st').1)%nat ∧
       ∀ req', Send k req' ∉ (sendNextIfDue cfg w' st').2).
Proof.
  intros Hin Hfail st'. subst st'.
  apply sendNextIfDue_send in Hin
    as (Hrun & item & item' & ev & Hitem & Hk & Hitem' & Hdue & Hkind & Hknown
        & Heq).
  rewrite Heq. simpl.
  destruct (dispatch_spec cfg w (setSentCount st k) ev)
    as (_ & _ & _ & Hlast & _ & _ & _ & Hkeep & _).
  destruct (Hkeep Hfail Hknown) as [Hst [req0 Htr]].
  rewrite Hst. split_and!; try done.
  - intros ->. apply setSentCount_same.
  - rewrite Htr. by rewrite last_app.
  - exists item'. split; [done|]. intros w' Hlater.
    destruct (sendNextIfDue_policy cfg w' (setSentCount st k) item')
      as (Hskip & Hsend & _); [done|done|].
    simpl in Hskip, Hsend. split.
    + intros Hfresh. destruct Hsend as (_ & Hhead & _); [done| |].
      * unfold due in *. lia.
      * apply Hhead. congruence.
    + intros Hold.
      destruct (Hskip k item') as (Hmove & _ & Hnone); [done|done| |].
      * intros j' it' Hj' Hit'. assert (j' = k) as -> by lia.
        by simplify_eq.
      * split; [lia|done].
Qed.

Lemma failed_send_keeps_entry_witness :
  let cfg := hourConfig 200 false None in
  let w := worldAt 10000 false in
  let st' := (sendNextIfDue cfg w twoBuys).1 in
  st' = twoBuys ∧
  last (sendNextIfDue cfg w twoBuys).2 = Some (SetTimeout 1000) ∧
  (∃ req', head (sendNextIfDue cfg (worldAt 11000 true) st').2
           = Some (Send 0 req')) ∧
  (0 < sentCount (sendNextIfDue cfg (worldAt 31000 true) st').1)%nat ∧
  ∀ req', Send 0 req' ∉ (sendNextIfDue cfg (worldAt 31000 true) st').2.
Proof.
  intros cfg w st'.
  destruct (failed_send_keeps_entry cfg w twoBuys 0
              (SendPhoto "feed.png"
                 (Some (BuyText (t0 + 10000) (0 + Q2Qc 100)%Qc
                          (Q2Qc (71428 # 100))))))
    as (_ & Hsame & _ & _ & Hlast & item & Hitem & Hnext).
  - vm_compute. by left.
  - done.
  - injection Hitem as <-.
    split_and!; [by apply Hsame|exact Hlast| | |].
    + apply (Hnext (worldAt 11000 true)); [by vm_compute|].
      unfold tooOld. vm_compute. intros H. discriminate H.
    + apply (Hnext (worldAt 31000 true)); by vm_compute.
    + apply (Hnext (worldAt 31000 true)); by vm_compute.
Defined.

(** A send that fails when the entry is 29.5 seconds old is not repeated
    by the check one second later: the entry is then 30.5 seconds old and
    is skipped. *)
Lemma failed_send_then_skipped :
  let cfg := hourConfig 200 false None in
  sendSucceeds (worldAt 29500 false) = false ∧
  sendNextIfDue cfg (worldAt 29500 false) twoBuys
  = (twoBuys,
     [Send 0
        (SendPhoto "feed.png"
           (Some (BuyText (t0 + 29500) (0 + Q2Qc 100)%Qc
                    (Q2Qc (71428 # 100)))));
      SetTimeout 1000]) ∧
  (∀ req, Send 0 req ∉ (sendNextIfDue cfg (worldAt 30500 true) twoBuys).2) ∧
  sentCount (sendNextIfDue cfg (worldAt 30500 true) twoBuys).1 = 2%nat.
Proof.
  intros cfg. split_and!; try done.
  intros req.
  set (trace := (sendNextIfDue cfg (worldAt 30500 true) twoBuys).2).
  vm_compute in trace. subst trace. intros Hin. by in_list.
Qed.

(** ** Runs, restarts and reachable states *)

Section Runs.

(** What a check never changes, and how far it can move the cursor. *)
Lemma sendNextIfDue_frame cfg w st :
  let r := sendNextIfDue cfg w st in
  schedule r.1 = schedule st ∧
  configSignature r.1 = configSignature st ∧
  (sentCount st ≤ sentCount r.1)%nat ∧
  ((sentCount st ≤ length (schedule st))%nat →
   (sentCount r.1 ≤ length (schedule st))%nat) ∧
  ((sentCount st ≤ length (schedule st))%nat →
   (completed st = true → sentCount st = length (schedule st)) →
   completed r.1 = true → sentCount r.1 = length (schedule st)) ∧
  (sentCount st = length (schedule st) → completed r.1 = true) ∧
  (totalUsdRaised r.1 = totalUsdRaised st ∨
   (totalUsdRaised r.1
    = (totalUsdRaised st + amountPerMessageUsd cfg)%Qc ∧
    ∃ j item req,
      schedule st !! j = Some item ∧ kind (itemEvent item) = Buy ∧
      Send j req ∈ r.2 ∧ sendSucceeds w = true ∧ sentCount r.1 = S j)).
Proof.
  destruct (sendNextIfDue_top cfg w st)
    as [[Hdone ->]|[(Hrun & Hge & ->)|(Hrun & item & Hitem & Hcase)]]; simpl.
  - split_and!; try done; try lia; auto.
  - split_and!; try done; try lia; auto.
  - pose proof (lookup_lt_Some _ _ _ Hitem) as Hlt.
    remember (sendNextIfDue cfg w st) as r eqn:Hr. clear Hr.
    destruct Hcase
      as [Hall|k' item' ev Hk' Hitem' Hall Hfresh Hdue Hkind Hat Htext Himage
         |k' item' Hk' Hitem' Hall Hnotdue]; simpl.
    + split_and!; try done; try lia; auto.
    + pose proof (lookup_lt_Some _ _ _ Hitem') as Hlt'.
      destruct (dispatch_spec cfg w (setSentCount st k') ev)
        as (Hsched & Hsig & Hcompl & _ & _ & _ & _ & _ & _ & Hcount).
      simpl in *. rewrite Hsched, Hsig, Hcompl, Hrun.
      split_and!; try done.
      * destruct Hcount as [[-> _]|[[-> _]|[-> _]]]; lia.
      * destruct Hcount as [[-> _]|[[-> _]|[-> _]]]; lia.
      * lia.
      * destruct Hcount
        as [[_ ->]|[(_ & -> & _)|(Hc & -> & Hbuy & Hok & req & Hin)]];
          [by left|by left|right].
        split; [done|]. exists k', item', req. split_and!; try done.
        -- congruence.
        -- apply elem_of_app. by right.
    + pose proof (lookup_lt_Some _ _ _ Hitem') as Hlt'.
      rewrite Hrun. split_and!; try done; try lia; auto.
Qed.

Lemma run_frame cfg ticks st :
  let r := run cfg ticks st in
  schedule r.1 = schedule st ∧
  (sentCount st ≤ sentCount r.1)%nat ∧
  ∀ j req, Send j req ∈ r.2 →
    (sentCount st ≤ j)%nat ∧ is_Some (schedule st !! j).
Proof.
  revert st. induction ticks as [|w ticks IH]; intros st; simpl.
  { split_and!; [done|done|]. intros j req Hin. by in_list. }
  destruct (sendNextIfDue cfg w st) as [st1 tr1] eqn:Hcheck.
  specialize (IH st1). destruct (run cfg ticks st1) as [st2 tr2]. simpl in *.
  destruct IH as (Hs2 & Hc2 & Hsend2).
  destruct (sendNextIfDue_frame cfg w st) as (Hs1 & _ & Hc1 & _).
  rewrite Hcheck in Hs1, Hc1. simpl in *.
  split_and!; [congruence|lia|].
  intros j req Hin. apply elem_of_app in Hin as [Hin|Hin].
  - assert (Hin' : Send j req ∈ (sendNextIfDue cfg w st).2)
      by (by rewrite Hcheck).
    apply sendNextIfDue_send in Hin'
      as (_ & item & item' & ev & _ & Hk & Hitem' & _).
    split; [done|by eexists].
  - destruct (Hsend2 j req Hin) as [Hj Hsome].
    split; [lia|]. by rewrite <- Hs1.
Qed.

Lemma filter_none {A} (P : A → Prop) `{!∀ x, Decision (P x)} (l : list A) :
  Forall (λ x, ¬ P x) l → filter P l = [].
Proof.
  induction 1 as [|x l Hx _ IH]; [done|].
  rewrite filter_cons. by destruct (decide (P x)).
Qed.

Lemma filter_all {A} (P : A → Prop) `{!∀ x, Decision (P x)} (l : list A) :
  Forall P l → filter P l = l.
Proof.
  induction 1 as [|x l Hx _ IH]; [done|].
  rewrite filter_cons. destruct (decide (P x)); [|done]. by rewrite IH.
Qed.

(** On a plan in timestamp order the hard-stop trim cuts a tail off: what
    is kept keeps its index. *)
Lemma filter_sorted_prefix endTs (l : list Item) :
  sortedByAt l →
  ∀ j item, filter (λ item, itemAt item ≤ endTs) l !! j = Some item →
            l !! j = Some item.
Proof.
  induction l as [|x l IH]; intros Hsorted j item; [done|].
  assert (Hsorted' : sortedByAt l).
  { intros i i' a b Hi Ha Hb. apply (Hsorted (S i) (S i')); [lia|done..]. }
  rewrite filter_cons. destruct (decide (itemAt x ≤ endTs)) as [Hx|Hx].
  - destruct j as [|j]; [done|]. simpl. by apply IH.
  - assert (Hnil : filter (λ item, itemAt item ≤ endTs) l = []).
    { apply filter_none, Forall_forall. intros y Hy.
      apply list_elem_of_lookup in Hy as [i Hi].
      pose proof (Hsorted 0%nat (S i) x y). simpl in *.
      assert (itemAt x ≤ itemAt y) by (apply H; [lia|done|done]). lia. }
    by rewrite Hnil.
Qed.

Lemma hardStopTrim_frame cfg st :
  configSignature (hardStopTrim cfg st) = configSignature st ∧
  sentCount (hardStopTrim cfg st) = sentCount st ∧
  totalUsdRaised (hardStopTrim cfg st) = totalUsdRaised st ∧
  completed (hardStopTrim cfg st) = completed st ∧
  (enforceHardStopAtEnd cfg = true →
   Forall (λ item, itemAt item ≤ endTimeUtc cfg)
     (schedule (hardStopTrim cfg st))).
Proof.
  unfold hardStopTrim. destruct (enforceHardStopAtEnd cfg); simpl;
    split_and!; try done.
  intros _. apply Forall_forall. intros item Hin.
  by apply list_elem_of_filter in Hin as [? _].
Qed.

Lemma hardStopTrim_idem cfg st :
  (enforceHardStopAtEnd cfg = true →
   Forall (λ item, itemAt item ≤ endTimeUtc cfg) (schedule st)) →
  hardStopTrim cfg st = st.
Proof.
  intros Hall. unfold hardStopTrim.
  destruct (enforceHardStopAtEnd cfg); [|done].
  rewrite filter_all by (by apply Hall). by destruct st.
Qed.

Lemma freshState_spec cfg o st :
  freshState cfg o = Some st →
  configSignature st = getConfigSignature cfg ∧
  sentCount st = 0%nat ∧ completed st = false.
Proof.
  unfold freshState. destruct (generateFullSchedule cfg o) as [[plan e]|];
    simpl; [|done]. by intros [= <-].
Qed.

Lemma Reachable_Invariant cfg st : Reachable cfg st → Invariant cfg st.
Proof.
  induction 1 as [o persisted st Hstale Hstart
                 |w st Hreach IH
                 |o st st' Hreach IH Hstart].
  - unfold startup in Hstart.
    destruct (loadOrGenerate cfg o persisted) as [st0|] eqn:Hload;
      [|done]. injection Hstart as <-.
    assert (Hfresh : freshState cfg o = Some st0).
    { unfold loadOrGenerate in Hload. destruct persisted as [old|]; [|done].
      by rewrite bool_decide_eq_false_2 in Hload by (by apply Hstale). }
    apply freshState_spec in Hfresh as (Hsig & Hcount & Hrun).
    destruct (hardStopTrim_frame cfg st0) as (Hs & Hc & _ & Hd & Htrim).
    unfold Invariant. rewrite Hs, Hc, Hd, Hcount, Hrun.
    split_and!; [done|lia|done|done].
  - destruct IH as (Hsig & Hle & Hcompl & Htrim).
    destruct (sendNextIfDue_frame cfg w st)
      as (Hs & Hg & _ & Hle' & Hcompl' & _).
    unfold Invariant. rewrite Hs, Hg. split_and!; auto.
  - destruct IH as (Hsig & Hle & Hcompl & Htrim).
    unfold startup, loadOrGenerate in Hstart.
    rewrite bool_decide_eq_true_2 in Hstart by done.
    injection Hstart as <-. rewrite hardStopTrim_idem by done.
    done.
Qed.

(** Plans are kept in timestamp order: [generateFullSchedule] sorts what
    it returns, the trim and the checks keep the order. *)
Lemma insertByKey_elem {A} (key : A → Z) (x y : A) (l : list A) :
  y ∈ insertByKey key x l → y = x ∨ y ∈ l.
Proof.
  induction l as [|z l IH]; simpl.
  - intros Hin. in_list. by left.
  - destruct (key x <? key z).
    + intros Hin. apply elem_of_cons in Hin as [->|Hin]; [by left|by right].
    + intros Hin. apply elem_of_cons in Hin as [->|Hin].
      * right. by left.
      * destruct (IH Hin) as [->|?]; [by left|]. right. by right.
Qed.

Lemma insertByKey_sorted {A} (key : A → Z) (x : A) (l : list A) :
  StronglySorted (λ a b, key a ≤ key b) l →
  StronglySorted (λ a b, key a ≤ key b) (insertByKey key x l).
Proof.
  induction 1 as [|z l Hsorted IH Hz]; simpl.
  - repeat constructor.
  - destruct (Z.ltb_spec (key x) (key z)) as [Hlt|Hge].
    + constructor; [by constructor|].
      constructor; [lia|].
      eapply Forall_impl; [exact Hz|]. simpl. intros; lia.
    + constructor; [done|].
      apply Forall_forall. intros y Hy.
      apply insertByKey_elem in Hy as [->|Hy]; [done|].
      by eapply (proj1 (Forall_forall _ _) Hz).
Qed.

Lemma sortByKey_sorted {A} (key : A → Z) (l : list A) :
  StronglySorted (λ a b, key a ≤ key b) (sortByKey key l).
Proof.
  unfold sortByKey.
  assert (Hgen : ∀ acc, StronglySorted (λ a b, key a ≤ key b) acc →
            StronglySorted (λ a b, key a ≤ key b)
              (foldl (λ acc x, insertByKey key x acc) acc l)).
  { induction l as [|x l IH]; intros acc Hacc; simpl; [done|].
    by apply IH, insertByKey_sorted. }
  apply Hgen. constructor.
Qed.

Lemma StronglySorted_sortedByAt (l : list Item) :
  StronglySorted (λ a b, itemAt a ≤ itemAt b) l → sortedByAt l.
Proof.
  induction 1 as [|x l Hsorted IH Hx]; intros i j a b Hij Ha Hb; [done|].
  destruct i as [|i], j as [|j]; simpl in *; simplify_eq; try lia.
  - eapply (proj1 (Forall_forall _ _) Hx). by eapply list_elem_of_lookup_2.
  - apply (IH i j); [lia|done..].
Qed.

Lemma fmap_EventItem_sorted (plan : list Event) :
  StronglySorted (λ a b, at_ a ≤ at_ b) plan →
  StronglySorted (λ a b, itemAt a ≤ itemAt b) (EventItem <$> plan).
Proof.
  induction 1 as [|x l Hsorted IH Hx]; simpl; constructor; [done|].
  by apply Forall_fmap.
Qed.

Lemma freshState_sorted cfg o st :
  freshState cfg o = Some st → sortedByAt (schedule st).
Proof.
  unfold freshState, generateFullSchedule.
  destruct (specialPhasePlan cfg o) as [sp|]; [|done].
  destruct (0 <? sp_remainingMessages sp); simpl; intros [= <-]; simpl;
    apply StronglySorted_sortedByAt, fmap_EventItem_sorted,
      sortByKey_sorted.
Qed.

Lemma filter_sortedByAt endTs (l : list Item) :
  sortedByAt l → sortedByAt (filter (λ item, itemAt item ≤ endTs) l).
Proof.
  intros Hsorted i j a b Hij Ha Hb.
  apply (filter_sorted_prefix endTs l Hsorted) in Ha, Hb.
  by apply (Hsorted i j).
Qed.

Lemma Reachable_sorted cfg st : Reachable cfg st → sortedByAt (schedule st).
Proof.
  induction 1 as [o persisted st Hstale Hstart
                 |w st Hreach IH
                 |o st st' Hreach IH Hstart].
  - unfold startup in Hstart.
    destruct (loadOrGenerate cfg o persisted) as [st0|] eqn:Hload;
      [|done]. injection Hstart as <-.
    assert (Hfresh : freshState cfg o = Some st0).
    { unfold loadOrGenerate in Hload. destruct persisted as [old|]; [|done].
      by rewrite bool_decide_eq_false_2 in Hload by (by apply Hstale). }
    apply freshState_sorted in Hfresh.
    unfold hardStopTrim. destruct (enforceHardStopAtEnd cfg); [|done].
    by apply filter_sortedByAt.
  - destruct (sendNextIfDue_frame cfg w st) as (-> & _). done.
  - destruct (Reachable_Invariant cfg st Hreach) as (Hsig & _ & _ & Htrim).
    unfold startup, loadOrGenerate in Hstart.
    rewrite bool_decide_eq_true_2 in Hstart by done.
    injection Hstart as <-. by rewrite hardStopTrim_idem.
Qed.

End Runs.

(** C7. When [main] finds a persisted state whose signature is that of the
    configuration and whose cursor is [k], the loop starts from that state
    with the cursor at [k] (a state the program itself has persisted is
    taken as it is; on any plan in timestamp order the hard-stop trim leaves
    every kept entry at its index): the first check that finds entry [k] due
    and at most 30 seconds old issues the request for entry [k], and no
    check of any run ever issues a request for an entry of index below
    [k]. *)
Theorem resume_from_persisted_cursor
    (cfg : Config) (o : Oracle) (st : State) (k : nat) :
  configSignature st = getConfigSignature cfg →
  sentCount st = k →
  ∃ st0, startup cfg o (Some st) = Some st0 ∧
    sentCount st0 = k ∧
    (Reachable cfg st → st0 = st) ∧
    (sortedByAt (schedule st) →
     ∀ j item, schedule st0 !! j = Some item → schedule st !! j = Some item) ∧
    (∀ w item,
       completed st0 = false →
       schedule st0 !! k = Some item →
       ¬ tooOld (internetNow w) item →
       due (internetNow w) item →
       kind (itemEvent item) ≠ OtherKind →
       ∃ req, head (sendNextIfDue cfg w st0).2 = Some (Send k req)) ∧
    ∀ ticks,
      (k ≤ sentCount (run cfg ticks st0).1)%nat ∧
      ∀ j req, Send j req ∈ (run cfg ticks st0).2 → (k ≤ j)%nat.
Proof.
  intros Hsig <-. exists (hardStopTrim cfg st).
  destruct (hardStopTrim_frame cfg st) as (_ & Hcount & _).
  split_and!.
  - unfold startup, loadOrGenerate. by rewrite bool_decide_eq_true_2.
  - done.
  - intros Hreach.
    destruct (Reachable_Invariant cfg st Hreach) as (_ & _ & _ & Htrim).
    by apply hardStopTrim_idem.
  - intros Hsorted j item. unfold hardStopTrim.
    destruct (enforceHardStopAtEnd cfg); [|done]. simpl.
    by apply filter_sorted_prefix.
  - intros w item Hrun Hitem Hfresh Hdue Hkind. rewrite <- Hcount in *.
    destruct (sendNextIfDue_policy cfg w (hardStopTrim cfg st) item)
      as (_ & Hsend & _); [done|done|].
    destruct (Hsend Hfresh Hdue) as (_ & Hhead & _). by apply Hhead.
  - intros ticks.
    destruct (run_frame cfg ticks (hardStopTrim cfg st)) as (_ & Hle & Hsend).
    rewrite Hcount in *. split; [done|].
    intros j req Hin. by apply Hsend in Hin as [? _].
Qed.

Lemma resume_from_persisted_cursor_witness :
  ∃ st0,
    startup (hourConfig 200 false None) plainOracle
      (Some (setSentCount twoBuys 1)) = Some st0 ∧
    sentCount st0 = 1%nat ∧
    (Reachable (hourConfig 200 false None) (setSentCount twoBuys 1) →
     st0 = setSentCount twoBuys 1) ∧
    (sortedByAt (schedule (setSentCount twoBuys 1)) →
     ∀ j item, schedule st0 !! j = Some item →
               schedule (setSentCount twoBuys 1) !! j = Some item) ∧
    (∀ w item,
       completed st0 = false →
       schedule st0 !! 1%nat = Some item →
       ¬ tooOld (internetNow w) item →
       due (internetNow w) item →
       kind (itemEvent item) ≠ OtherKind →
       ∃ req, head (sendNextIfDue (hourConfig 200 false None) w st0).2
              = Some (Send 1 req)) ∧
    ∀ ticks,
      (1 ≤ sentCount (run (hourConfig 200 false None) ticks st0).1)%nat ∧
      ∀ j req, Send j req ∈ (run (hourConfig 200 false None) ticks st0).2 →
               (1 ≤ j)%nat.
Proof.
  apply (resume_from_persisted_cursor (hourConfig 200 false None) plainOracle
           (setSentCount twoBuys 1) 1); reflexivity.
Defined.

(** C8 (as amended). In every reachable state the cursor is at most the
    length of the plan and the completion flag is set only when the cursor
    is at the end of the plan; a state whose cursor is at the end of the
    plan has its flag set by the next check. A check leaves the running
    total as it is or adds exactly [amountPerMessageUsd] to it, and it adds
    only when it has sent a ['buy'] entry with success and moved the cursor
    past it. *)
Theorem reachable_state_invariant (cfg : Config) (st : State) :
  Reachable cfg st →
  (sentCount st ≤ length (schedule st))%nat ∧
  (completed st = true → sentCount st = length (schedule st)) ∧
  ∀ w,
    let r := sendNextIfDue cfg w st in
    (sentCount st = length (schedule st) → completed r.1 = true) ∧
    (totalUsdRaised r.1 = totalUsdRaised st ∨
     (totalUsdRaised r.1 = (totalUsdRaised st + amountPerMessageUsd cfg)%Qc ∧
      ∃ j item req,
        schedule st !! j = Some item ∧ kind (itemEvent item) = Buy ∧
        Send j req ∈ r.2 ∧ sendSucceeds w = true ∧ sentCount r.1 = S j)).
Proof.
  intros Hreach.
  destruct (Reachable_Invariant cfg st Hreach) as (_ & Hle & Hcompl & _).
  split_and!; [done|done|].
  intros w r. subst r.
  destruct (sendNextIfDue_frame cfg w st) as (_ & _ & _ & _ & _ & Hset & Htot).
  done.
Qed.

Lemma oneBuy_reachable : Reachable (hourConfig 100 false None) oneBuy.
Proof.
  apply (reach_fresh _ plainOracle None); [done|]. reflexivity.
Qed.

Lemma reachable_state_invariant_witness :
  (sentCount oneBuy ≤ length (schedule oneBuy))%nat ∧
  (completed oneBuy = true → sentCount oneBuy = length (schedule oneBuy)) ∧
  ∀ w,
    let r := sendNextIfDue (hourConfig 100 false None) w oneBuy in
    (sentCount oneBuy = length (schedule oneBuy) → completed r.1 = true) ∧
    (totalUsdRaised r.1 = totalUsdRaised oneBuy ∨
     (totalUsdRaised r.1
      = (totalUsdRaised oneBuy
         + amountPerMessageUsd (hourConfig 100 false None))%Qc ∧
      ∃ j item req,
        schedule oneBuy !! j = Some item ∧ kind (itemEvent item) = Buy ∧
        Send j req ∈ r.2 ∧ sendSucceeds w = true ∧ sentCount r.1 = S j)).
Proof.
  apply (reachable_state_invariant (hourConfig 100 false None) oneBuy).
  apply (reach_fresh _ plainOracle None); [done|]. reflexivity.
Defined.

(** Right after the last entry has been sent the cursor is at the end of
    the plan and the completion flag is still unset: the flag is set by the
    check that follows. *)
Lemma completed_flag_lags :
  let cfg := hourConfig 100 false None in
  let st := (sendNextIfDue cfg (worldAt 0 true) oneBuy).1 in
  Reachable cfg st ∧
  sentCount st = length (schedule st) ∧
  completed st = false ∧
  completed (sendNextIfDue cfg (worldAt 1000 true) st).1 = true.
Proof.
  intros cfg st. split_and!; [|done..].
  apply reach_check, oneBuy_reachable.
Qed.

(** ** Hour buckets, clamping and the hour span *)

Lemma floorToHourTs_aligned ts : floorToHourTs ts `mod` 3600000 = 0.
Proof.
  unfold floorToHourTs.
  pose proof (Z.div_mod ts 3600000).
  replace (ts - ts `mod` 3600000) with ((ts `div` 3600000) * 3600000) by lia.
  apply Z.mod_mul. lia.
Qed.

Lemma floorToHourTs_unique hourStart ts :
  hourStart `mod` 3600000 = 0 →
  hourStart ≤ ts < hourStart + 3600000 →
  floorToHourTs ts = hourStart.
Proof.
  intros Hal Hin. unfold floorToHourTs.
  pose proof (Z.div_mod hourStart 3600000).
  pose proof (Z.div_mod ts 3600000).
  pose proof (Z.mod_pos_bound ts 3600000).
  assert (ts `div` 3600000 = hourStart `div` 3600000) by nia.
  lia.
Qed.

(** X1. Every timestamp, before 1970 as well, splits into the start of its
    UTC hour, a second of that hour between 0 and 3599 and the
    milliseconds of that second; the hour start is a multiple of an hour
    and is its own hour start. *)
Theorem hour_bucket_decomposition (ts : Z) :
  floorToHourTs ts `mod` 3600000 = 0 ∧
  floorToHourTs (floorToHourTs ts) = floorToHourTs ts ∧
  0 ≤ secondOfHour ts < 3600 ∧
  ts = floorToHourTs ts + secondOfHour ts * 1000 + ts `mod` 1000.
Proof.
  pose proof (floorToHourTs_aligned ts) as Hal.
  pose proof (floorToHourTs_bounds ts) as Hb.
  assert (Hsec : 0 ≤ secondOfHour ts < 3600).
  { unfold secondOfHour.
    split; [apply Z.div_pos; lia|apply Z.div_lt_upper_bound; lia]. }
  assert (Hsplit : ts = floorToHourTs ts + secondOfHour ts * 1000
                        + ts `mod` 1000).
  { unfold secondOfHour.
    set (h := floorToHourTs ts) in *.
    pose proof (Z.div_mod (ts - h) 1000).
    assert ((ts - h) `mod` 1000 = ts `mod` 1000).
    { pose proof (Z.div_mod h 3600000).
      replace (ts - h) with (ts + (- (h `div` 3600000) * 3600) * 1000) by lia.
      apply Z.mod_add. lia. }
    lia. }
  split; [done|]. split; [apply floorToHourTs_unique; [done|lia]|].
  split; [exact Hsec|exact Hsplit].
Qed.

(** X2. The second of an hour and the hour are read back from the
    timestamp built from them, as line 313 does with an accepted
    candidate [hourStart + candSec * 1000]. *)
Theorem hour_second_round_trip (hourStart sec ms : Z) :
  hourStart `mod` 3600000 = 0 →
  0 ≤ sec < 3600 →
  0 ≤ ms < 1000 →
  floorToHourTs (hourStart + sec * 1000 + ms) = hourStart ∧
  secondOfHour (hourStart + sec * 1000 + ms) = sec.
Proof.
  intros Hal Hsec Hms.
  assert (Hh : floorToHourTs (hourStart + sec * 1000 + ms) = hourStart)
    by (apply floorToHourTs_unique; [done|lia]).
  split; [done|]. unfold secondOfHour. rewrite Hh.
  replace (hourStart + sec * 1000 + ms - hourStart) with (ms + sec * 1000)
    by lia.
  rewrite Z.div_add by lia. rewrite Z.div_small by lia. lia.
Qed.

Lemma hour_second_round_trip_witness :
  floorToHourTs (7200000 + 59 * 1000 + 250) = 7200000 ∧
  secondOfHour (7200000 + 59 * 1000 + 250) = 59.
Proof. apply (hour_second_round_trip 7200000 59 250); [reflexivity|lia|lia]. Defined.

(** [clamp] returns a value of the interval, the value itself when it
    lies inside; when the bounds cross, the lower bound wins. *)
Lemma clamp_spec (value min max : Z) :
  (min ≤ max → min ≤ clamp value min max ≤ max) ∧
  (min ≤ value ≤ max → clamp value min max = value) ∧
  (max < min → clamp value min max = min).
Proof. unfold clamp. lia. Qed.

Lemma spanHours_extension_gen (cfg : Config) :
  0 < maxPerHour cfg →
  let initial := Z.max 1 (ceilDiv (endTimeUtc cfg - startTimeUtc cfg) 3600000) in
  1 ≤ spanHours cfg ∧
  endTimeUtc cfg ≤ startTimeUtc cfg + spanHours cfg * 3600000 ∧
  totalMessagesNeeded cfg ≤ spanHours cfg * maxPerHour cfg ∧
  (totalMessagesNeeded cfg ≤ initial * maxPerHour cfg →
   spanHours cfg = initial) ∧
  (initial * maxPerHour cfg < totalMessagesNeeded cfg →
   initial < spanHours cfg ∧
   (spanHours cfg - 1) * maxPerHour cfg < totalMessagesNeeded cfg).
Proof.
  intros Hmax initial.
  assert (Hcover : endTimeUtc cfg - startTimeUtc cfg ≤ initial * 3600000).
  { unfold initial, ceilDiv.
    set (d := endTimeUtc cfg - startTimeUtc cfg).
    pose proof (Z.div_mod (- d) 3600000).
    pose proof (Z.mod_pos_bound (- d) 3600000). lia. }
  unfold spanHours. cbv zeta. fold initial.
  destruct (Z.ltb_spec (initial * maxPerHour cfg) (totalMessagesNeeded cfg))
    as [Hlt|Hge].
  - unfold ceilDiv.
    set (d := totalMessagesNeeded cfg - initial * maxPerHour cfg) in *.
    pose proof (Z.div_mod (- d) (maxPerHour cfg)).
    pose proof (Z.mod_pos_bound (- d) (maxPerHour cfg)).
    assert (1 ≤ initial) by (unfold initial; lia).
    split_and!; try nia.
  - assert (1 ≤ initial) by (unfold initial; lia).
    split_and!; try lia.
Qed.

(** X3. The hour span of lines 340-349, for a positive [maxPerHour]: it
    is at least one hour and covers the configured window; it holds the
    total at [maxPerHour] events an hour; it is the configured window when
    that already holds the total, and otherwise the shortest span that
    does. *)
Theorem spanHours_extension (cfg : Config) :
  0 < maxPerHour cfg →
  let initial := Z.max 1 (ceilDiv (endTimeUtc cfg - startTimeUtc cfg) 3600000) in
  1 ≤ spanHours cfg ∧
  endTimeUtc cfg ≤ startTimeUtc cfg + spanHours cfg * 3600000 ∧
  totalMessagesNeeded cfg ≤ spanHours cfg * maxPerHour cfg ∧
  (totalMessagesNeeded cfg ≤ initial * maxPerHour cfg →
   spanHours cfg = initial) ∧
  (initial * maxPerHour cfg < totalMessagesNeeded cfg →
   initial < spanHours cfg ∧
   (spanHours cfg - 1) * maxPerHour cfg < totalMessagesNeeded cfg).
Proof. apply spanHours_extension_gen. Qed.

Lemma spanHours_extension_witness :
  1 ≤ spanHours (hourConfig 10000 false None) ∧
  spanHours (hourConfig 10000 false None) = 2.
Proof.
  destruct (spanHours_extension (hourConfig 10000 false None)) as (H1 & _);
    [simpl; lia|].
  split; [exact H1|reflexivity].
Defined.

(** ** The clock offset *)

(** X4. After [initializeTimeOffset] the offset is set, so
    [getCurrentUtcTime] returns a time instead of throwing, whereas before
    it throws; an offset that is already set is kept and no service is
    asked, so a second initialisation changes nothing. *)
Theorem initializeTimeOffset_once (timeOffset : option Z) (systemTime : Z)
    (apis : TimeApis) :
  let r := initializeTimeOffset timeOffset systemTime apis in
  getCurrentUtcTime None systemTime = None ∧
  (∀ dateNow, is_Some (getCurrentUtcTime r.1 dateNow)) ∧
  (is_Some timeOffset → r = (timeOffset, [])) ∧
  (∀ systemTime' apis',
     initializeTimeOffset r.1 systemTime' apis' = (r.1, [])).
Proof.
  unfold initializeTimeOffset.
  destruct timeOffset as [off|]; simpl.
  { split_and!; try done; try (intros; by eexists). }
  destruct (worldtimeapi apis), (timeapi_io apis), (worldclockapi apis);
    simpl; split_and!; try done; try (intros; by eexists);
    by intros [? [=]].
Qed.

(** X5. The services are asked in a fixed order and the first answer
    wins: the corrected clock then reads the time that service gave plus
    the time elapsed on the local clock since the request; when none
    answers it reads the local clock. *)
Theorem getCurrentUtcTime_tracks_service (systemTime elapsed : Z)
    (apis : TimeApis) :
  let r := initializeTimeOffset None systemTime apis in
  match worldtimeapi apis, timeapi_io apis, worldclockapi apis with
  | Some t, _, _ =>
      r.2 = [WorldTimeApi] ∧
      getCurrentUtcTime r.1 (systemTime + elapsed) = Some (t + elapsed)
  | None, Some t, _ =>
      r.2 = [WorldTimeApi; TimeApiIo] ∧
      getCurrentUtcTime r.1 (systemTime + elapsed) = Some (t + elapsed)
  | None, None, Some t =>
      r.2 = [WorldTimeApi; TimeApiIo; WorldClockApi] ∧
      getCurrentUtcTime r.1 (systemTime + elapsed) = Some (t + elapsed)
  | None, None, None =>
      r.2 = [WorldTimeApi; TimeApiIo; WorldClockApi] ∧
      getCurrentUtcTime r.1 (systemTime + elapsed)
      = Some (systemTime + elapsed)
  end.
Proof.
  unfold initializeTimeOffset.
  destruct (worldtimeapi apis), (timeapi_io apis), (worldclockapi apis);
    simpl; split; try done; f_equal; lia.
Qed.

(** ** What the interval enforcer moves *)

Section EnforcerMoves.
Import Enforcer.

Lemma gaps_lookup (l : list Z) (k : nat) :
  gaps l !! k
  = match l !! k, l !! S k with
    | Some a, Some b => Some (deltaSecOf b a)
    | _, _ => None
    end.
Proof.
  revert k. induction l as [|a l IH]; intros k; [done|].
  destruct l as [|b l]; [by destruct k as [|[|k]]|].
  destruct k as [|k]; [done|].
  change (gaps (a :: b :: l) !! S k) with (gaps (b :: l) !! k).
  rewrite IH. done.
Qed.

Lemma gaps_lookup_insert_ne (l : list Z) (i k : nat) (x : Z) :
  (S k < i)%nat → gaps (<[i := x]> l) !! k = gaps l !! k.
Proof.
  intros Hk. rewrite !gaps_lookup.
  by rewrite !list_lookup_insert_ne by lia.
Qed.

Lemma gaps_take_insert (l : list Z) (i k : nat) (x : Z) :
  (S k ≤ i)%nat → take k (gaps (<[i := x]> l)) = take k (gaps l).
Proof.
  intros Hk. apply list_eq. intros j.
  destruct (decide (j < k)%nat) as [Hj|Hj].
  - rewrite !lookup_take_lt by done. apply gaps_lookup_insert_ne. lia.
  - by rewrite !lookup_take_ge by lia.
Qed.

Lemma elem_of_take_lookup {A} (l : list A) (k : nat) (x : A) :
  x ∈ take k l ↔ ∃ j, (j < k)%nat ∧ l !! j = Some x.
Proof.
  rewrite list_elem_of_lookup. split.
  - intros [j Hj]. apply lookup_take_Some in Hj as [? ?]. by exists j.
  - intros (j & Hj & Hx). exists j. by rewrite lookup_take_lt.
Qed.

Lemma list_to_set_snoc (l : list Z) (d : Z) :
  list_to_set (l ++ [d]) =@{gset Z} {[d]} ∪ list_to_set l.
Proof.
  rewrite list_to_set_app_L. simpl.
  rewrite (right_id_L ∅ (∪)). apply (comm_L (∪)).
Qed.

Lemma acceptable_delta usedSecs usedInts hourStart prev candSec ts d :
  acceptable usedSecs usedInts hourStart prev candSec = Some (ts, d) →
  d = deltaSecOf ts prev ∧ d ∉ usedInts.
Proof.
  unfold acceptable. repeat case_bool_decide; intros; simplify_eq. done.
Qed.

Lemma firstAcceptable_delta usedSecs usedInts hourStart prev cands ts d :
  firstAcceptable usedSecs usedInts hourStart prev cands = Some (ts, d) →
  d = deltaSecOf ts prev ∧ d ∉ usedInts.
Proof.
  induction cands as [|c cands IH]; simpl; [done|].
  destruct (acceptable _ _ _ _ c) as [[ts' d']|] eqn:Hacc; [|done].
  intros [= -> ->]. by eapply acceptable_delta.
Qed.

Lemma radiusSearch_delta todo r usedSecs usedInts hourStart prev baseSec
    lbSec ubSec ts d :
  radiusSearch todo r usedSecs usedInts hourStart prev baseSec lbSec ubSec
  = Some (ts, d) →
  d = deltaSecOf ts prev ∧ d ∉ usedInts.
Proof.
  revert r. induction todo as [|todo IH]; intros r; simpl; [done|].
  destruct (firstAcceptable _ _ _ _ _) as [[ts' d']|] eqn:Hfa; [|by apply IH].
  intros [= -> ->]. by eapply firstAcceptable_delta.
Qed.

Lemma linearScan_delta todo sec usedSecs usedInts hourStart prev ts d :
  linearScan todo sec usedSecs usedInts hourStart prev = Some (ts, d) →
  d = deltaSecOf ts prev ∧ d ∉ usedInts.
Proof.
  revert sec. induction todo as [|todo IH]; intros sec; simpl; [done|].
  destruct (acceptable _ _ _ _ sec) as [[ts' d']|] eqn:Hacc; [|by apply IH].
  intros [= -> ->]. by eapply acceptable_delta.
Qed.

(** A timestamp found by the search is a whole second of the hour of
    [curr], and its gap to [prev] is a new one. *)
Lemma search_in_hour usedSecs usedInts prev curr upperBound ts d :
  let hourStart := floorToHourTs curr in
  let lowerBound := Z.max hourStart (prev + 1000) in
  search usedSecs usedInts hourStart prev (secondOfHour curr)
    (ceilMsToSec (lowerBound - hourStart))
    (floorMsToSec (upperBound - hourStart)) = Some (ts, d) →
  upperBound ≤ hourStart + 3600000 - 1 →
  (∃ sec, 0 ≤ sec < 3600 ∧ ts = hourStart + sec * 1000) ∧
  d = deltaSecOf ts prev ∧ d ∉ usedInts.
Proof.
  intros hourStart lowerBound. unfold search.
  pose proof (floorToHourTs_bounds curr) as Hh.
  assert (Hbase : 0 ≤ secondOfHour curr < 3600).
  { unfold secondOfHour. fold hourStart.
    split; [apply Z.div_pos; lia|apply Z.div_lt_upper_bound; lia]. }
  assert (Hlb : 0 ≤ ceilMsToSec (lowerBound - hourStart)).
  { unfold ceilMsToSec.
    pose proof (Z.div_mod (- (lowerBound - hourStart)) 1000).
    pose proof (Z.mod_pos_bound (- (lowerBound - hourStart)) 1000). lia. }
  intros Hs Hub.
  assert (Hubs : floorMsToSec (upperBound - hourStart) < 3600).
  { unfold floorMsToSec. apply Z.div_lt_upper_bound; lia. }
  destruct (radiusSearch _ _ _ _ _ _ _ _ _) as [[ts' d']|] eqn:Hrad.
  - injection Hs as -> ->.
    split; [|by eapply radiusSearch_delta].
    apply radiusSearch_elem in Hrad as (c & -> & Hc); [|lia].
    exists c. split; [lia|done].
  - split; [|by eapply linearScan_delta].
    apply linearScan_elem in Hs as (c & -> & ? & ?).
    exists c. split; [lia|done].
Qed.

Lemma gaps_take_S (l : list Z) (i : nat) (prev curr : Z) :
  (1 ≤ i)%nat →
  l !! (i - 1)%nat = Some prev →
  l !! i = Some curr →
  take i (gaps l) = take (i - 1) (gaps l) ++ [deltaSecOf curr prev].
Proof.
  intros Hi Hprev Hcurr.
  replace i with (S (i - 1)) at 1 by lia.
  apply take_S_r. rewrite gaps_lookup, Hprev.
  replace (S (i - 1)) with i by lia. by rewrite Hcurr.
Qed.

Lemma enforcerInvariant_keep input i st prev curr :
  (1 ≤ i)%nat →
  times st !! (i - 1)%nat = Some prev →
  times st !! i = Some curr →
  enforcerInvariant input i st →
  enforcerInvariant input (S i)
    (mk (times st) ({[deltaSecOf curr prev]} ∪ usedIntervals st)
       (hourToSeconds st)).
Proof.
  intros Hi Hprev Hcurr (Hlen & Hsuf & Hhead & Hhour & Hused & Hmoved).
  unfold enforcerInvariant. cbn [times usedIntervals hourToSeconds].
  split_and!; try done.
  - intros j Hj. apply Hsuf. lia.
  - replace (S i - 1)%nat with i by lia.
    rewrite (gaps_take_S _ i prev curr) by done.
    by rewrite list_to_set_snoc, Hused.
  - intros j a b Hj Ha Hb Hne.
    destruct (decide (j = i)) as [->|Hji]; [|apply Hmoved; [lia|done..]].
    rewrite Hsuf in Hb by lia. congruence.
Qed.

Lemma step_enforcerInvariant input i st :
  (1 ≤ i < length input)%nat →
  enforcerInvariant input i st →
  enforcerInvariant input (S i) (step st i).
Proof.
  intros Hi Hinv.
  pose proof Hinv as (Hlen & Hsuf & Hhead & Hhour & Hused & Hmoved).
  unfold step.
  destruct (times st !! (i - 1)%nat) as [prev|] eqn:Hprev;
    [|apply lookup_ge_None in Hprev; lia].
  destruct (times st !! i) as [curr|] eqn:Hcurr;
    [|apply lookup_ge_None in Hcurr; lia].
  case_bool_decide as Hdup; [|apply enforcerInvariant_keep; [lia|done..]].
  cbv zeta.
  match goal with |- context [Z.ltb ?a ?b] => destruct (Z.ltb_spec a b) end;
    [apply enforcerInvariant_keep; [lia|done..]|].
  assert (Hinput : input !! i = Some curr) by (by rewrite <- Hsuf).
  match goal with
  | |- context [search ?x1 ?x2 ?x3 ?x4 ?x5 ?x6 ?x7] =>
      destruct (search x1 x2 x3 x4 x5 x6 x7) as [[ts d]|] eqn:Hs
  end.
  - apply search_in_hour in Hs as ((sec & Hsec & Hts) & Hd & Hnew);
      [|destruct (times st !! S i); lia].
    assert (Hsame : floorToHourTs ts = floorToHourTs curr).
    { rewrite Hts. apply floorToHourTs_unique;
        [apply floorToHourTs_aligned|lia]. }
    unfold enforcerInvariant. cbn [times usedIntervals hourToSeconds].
    split_and!.
    + by rewrite length_insert.
    + intros j Hj. rewrite list_lookup_insert_ne by lia. apply Hsuf. lia.
    + by rewrite list_lookup_insert_ne by lia.
    + intros j a b Ha Hb.
      destruct (decide (j = i)) as [->|Hji].
      * rewrite list_lookup_insert_eq in Hb by lia. simplify_eq. done.
      * rewrite list_lookup_insert_ne in Hb by done. by eapply Hhour.
    + replace (S i - 1)%nat with i by lia.
      rewrite (gaps_take_S _ i prev ts); [|lia| |].
      * rewrite gaps_take_insert by lia.
        by rewrite list_to_set_snoc, Hused, Hd.
      * by rewrite list_lookup_insert_ne by lia.
      * rewrite list_lookup_insert_eq by lia. done.
    + intros j a b Hj Ha Hb Hne.
      destruct (decide (j = i)) as [->|Hji].
      * rewrite list_lookup_insert_eq in Hb by lia. simplify_eq.
        split; [by exists sec|].
        intros d' Hd'. rewrite gaps_take_insert by lia.
        rewrite gaps_lookup in Hd'.
        rewrite list_lookup_insert_ne in Hd' by lia.
        rewrite Hprev in Hd'. replace (S (i - 1)) with i in Hd' by lia.
        rewrite list_lookup_insert_eq in Hd' by lia. simplify_eq.
        rewrite Hused in Hnew. by rewrite elem_of_list_to_set in Hnew.
      * rewrite list_lookup_insert_ne in Hb by done.
        destruct (Hmoved j a b) as [Hgrid Hgap]; [lia|done..|].
        split; [done|]. intros d' Hd'.
        rewrite gaps_take_insert by lia.
        rewrite gaps_lookup_insert_ne in Hd' by lia. by apply Hgap.
  - rewrite list_insert_id by done.
    replace ({[secondOfHour curr]} ∪ _) with
      ({[secondOfHour curr]}
       ∪ default ∅ (hourToSeconds st !! floorToHourTs curr)
         ∖ {[secondOfHour curr]}) by done.
    destruct (enforcerInvariant_keep input i st prev curr)
      as (? & ? & ? & ? & ? & ?); [lia|done..|].
    unfold enforcerInvariant. simpl in *. done.
Qed.

Lemma fold_step_enforcerInvariant input m k st :
  (1 ≤ k)%nat →
  (k + m = length input)%nat →
  enforcerInvariant input k st →
  enforcerInvariant input (k + m) (fold_left step (seq k m) st).
Proof.
  revert k st. induction m as [|m IH]; intros k st Hk Hkm Hinv; simpl.
  { by rewrite Nat.add_0_r. }
  replace (k + S m)%nat with (S k + m)%nat by lia.
  apply IH; [lia|lia|]. apply step_enforcerInvariant; [lia|done].
Qed.

Lemma loop_enforcerInvariant input :
  (2 ≤ length input)%nat →
  enforcerInvariant input (length input)
    (loop (mk input ∅ (initHourToSeconds input))).
Proof.
  intros Hlen. unfold loop. simpl.
  replace (length input) with (1 + (length input - 1))%nat at 1 by lia.
  apply fold_step_enforcerInvariant; [lia|lia|].
  unfold enforcerInvariant. simpl. split_and!; try done.
  - intros j a b Ha Hb. congruence.
  - intros j a b Hj. lia.
Qed.

Lemma fold_step_distinct_gaps input m k st :
  NoDup (gaps input) →
  (1 ≤ k)%nat →
  (k + m = length input)%nat →
  times st = input →
  usedIntervals st = list_to_set (take (k - 1) (gaps input)) →
  times (fold_left step (seq k m) st) = input.
Proof.
  intros Hnd. revert k st.
  induction m as [|m IH]; intros k st Hk Hkm Htimes Hused; simpl; [done|].
  destruct (input !! (k - 1)%nat) as [prev|] eqn:Hprev;
    [|apply lookup_ge_None in Hprev; lia].
  destruct (input !! k) as [curr|] eqn:Hcurr;
    [|apply lookup_ge_None in Hcurr; lia].
  assert (Hgap : gaps input !! (k - 1)%nat = Some (deltaSecOf curr prev)).
  { rewrite gaps_lookup, Hprev. replace (S (k - 1)) with k by lia.
    by rewrite Hcurr. }
  assert (Hstep : step st k
                  = mk input ({[deltaSecOf curr prev]} ∪ usedIntervals st)
                      (hourToSeconds st)).
  { unfold step. rewrite Htimes, Hprev, Hcurr.
    rewrite bool_decide_eq_false_2; [done|].
    rewrite Hused, elem_of_list_to_set, elem_of_take_lookup.
    intros (j & Hj & Hdup).
    pose proof (NoDup_lookup _ _ _ _ Hnd Hdup Hgap). lia. }
  rewrite Hstep. apply IH; [lia|lia|done|]. cbn [usedIntervals].
  replace (S k - 1)%nat with k by lia.
  rewrite (gaps_take_S _ k prev curr) by done.
  by rewrite list_to_set_snoc, Hused.
Qed.

End EnforcerMoves.

Lemma enforceUniqueIntervals_moves_gen (schedule : list Z) (j : nat) (a b : Z) :
  schedule !! j = Some a →
  enforceUniqueIntervals schedule !! j = Some b →
  floorToHourTs b = floorToHourTs a ∧
  (j = 0%nat → b = a) ∧
  (b ≠ a →
   (∃ sec, 0 ≤ sec < 3600 ∧ b = floorToHourTs a + sec * 1000) ∧
   ∀ k d, (S k < j)%nat →
          gaps (enforceUniqueIntervals schedule) !! k = Some d →
          gaps (enforceUniqueIntervals schedule) !! (j - 1)%nat ≠ Some d).
Proof.
  intros Ha Hb. unfold enforceUniqueIntervals in *.
  destruct (Nat.leb_spec (length schedule) 1) as [Hle|Hgt];
    [by simplify_eq|].
  destruct (loop_enforcerInvariant schedule)
    as (Hlen & _ & Hhead & Hhour & _ & Hmoved); [lia|].
  set (out := Enforcer.times _) in *.
  split_and!.
  - by eapply Hhour.
  - intros ->. congruence.
  - intros Hne.
    assert (Hj : (1 ≤ j < length schedule)%nat).
    { pose proof (lookup_lt_Some _ _ _ Ha). split; [|done].
      destruct j; [|lia]. congruence. }
    destruct (Hmoved j a b Hj Ha Hb Hne) as [Hgrid Hgap].
    split; [done|]. intros k d Hk Hd Hdup.
    apply (Hgap d Hdup). apply elem_of_take_lookup. exists k.
    split; [lia|done].
Qed.

(** X6. [enforceUniqueIntervals] keeps every timestamp in its UTC hour
    and never moves the first one. A timestamp that it moves lands on a
    whole second of that hour, and its gap to the timestamp before it
    differs from every gap earlier in the output: a repeated gap survives
    only where the timestamp was left where it was. *)
Theorem enforceUniqueIntervals_moves (schedule : list Z) (j : nat) (a b : Z) :
  schedule !! j = Some a →
  enforceUniqueIntervals schedule !! j = Some b →
  floorToHourTs b = floorToHourTs a ∧
  (j = 0%nat → b = a) ∧
  (b ≠ a →
   (∃ sec, 0 ≤ sec < 3600 ∧ b = floorToHourTs a + sec * 1000) ∧
   ∀ k d, (S k < j)%nat →
          gaps (enforceUniqueIntervals schedule) !! k = Some d →
          gaps (enforceUniqueIntervals schedule) !! (j - 1)%nat ≠ Some d).
Proof. apply enforceUniqueIntervals_moves_gen. Qed.

Lemma enforceUniqueIntervals_moves_witness :
  enforceUniqueIntervals [0; 10000; 20000; 30000] !! 2%nat = Some 21000 ∧
  floorToHourTs 21000 = floorToHourTs 20000.
Proof.
  split; [reflexivity|].
  apply (enforceUniqueIntervals_moves [0; 10000; 20000; 30000] 2 20000 21000);
    reflexivity.
Defined.

(** X7. A schedule whose consecutive gaps, in rounded seconds, are
    pairwise different is returned as it is. *)
Theorem enforceUniqueIntervals_distinct_gaps (schedule : list Z) :
  NoDup (gaps schedule) →
  enforceUniqueIntervals schedule = schedule.
Proof.
  intros Hnd. unfold enforceUniqueIntervals.
  destruct (Nat.leb_spec (length schedule) 1) as [Hle|Hgt]; [done|].
  unfold Enforcer.loop. simpl.
  apply (fold_step_distinct_gaps schedule); [done|lia|lia|done|done].
Qed.

Lemma enforceUniqueIntervals_distinct_gaps_witness :
  enforceUniqueIntervals [0; 10000; 30000; 60000] = [0; 10000; 30000; 60000].
Proof.
  apply enforceUniqueIntervals_distinct_gaps.
  apply (NoDup_ListNoDup [10; 20; 30]).
  repeat constructor; simpl; lia.
Defined.

(** ** Sorting and sampling *)

Section Sampling.

Lemma insertByKey_Permutation {A} (key : A → Z) (x : A) (l : list A) :
  insertByKey key x l ≡ₚ x :: l.
Proof.
  induction l as [|y l IH]; simpl; [done|].
  destruct (key x <? key y); [done|].
  rewrite IH. apply Permutation_swap.
Qed.

Lemma foldl_insertByKey_Permutation {A} (key : A → Z) (l acc : list A) :
  foldl (λ acc x, insertByKey key x acc) acc l ≡ₚ acc ++ l.
Proof.
  revert acc. induction l as [|x l IH]; intros acc; simpl.
  { by rewrite app_nil_r. }
  rewrite IH, insertByKey_Permutation. simpl.
  apply Permutation_middle.
Qed.

Lemma sortByKey_Permutation {A} (key : A → Z) (l : list A) :
  sortByKey key l ≡ₚ l.
Proof. unfold sortByKey. by rewrite foldl_insertByKey_Permutation. Qed.

Lemma StronglySorted_lt_strictlyIncreasing (l : list Z) :
  StronglySorted Z.lt l → strictlyIncreasing l.
Proof.
  induction 1 as [|x l Hsorted IH Hx]; intros i a b Ha Hb; [done|].
  destruct i as [|i]; simpl in *.
  - simplify_eq. eapply (proj1 (Forall_forall _ _) Hx).
    by eapply list_elem_of_lookup_2.
  - by apply (IH i).
Qed.

Lemma strictlyIncreasing_StronglySorted (l : list Z) :
  strictlyIncreasing l → StronglySorted Z.lt l.
Proof.
  induction l as [|x l IH]; intros Hinc; constructor.
  - apply IH. intros i a b Ha Hb. by apply (Hinc (S i)).
  - assert (Htail : strictlyIncreasing l).
    { intros i a b Ha Hb. by apply (Hinc (S i)). }
    specialize (IH Htail).
    destruct l as [|y l]; constructor.
    + by apply (Hinc 0%nat).
    + assert (x < y) by (by apply (Hinc 0%nat)).
      apply StronglySorted_inv in IH as [_ Hy].
      eapply Forall_impl; [exact Hy|]. simpl. intros; lia.
Qed.

Lemma StronglySorted_le_NoDup (l : list Z) :
  StronglySorted Z.le l → NoDup l → StronglySorted Z.lt l.
Proof.
  induction 1 as [|x l Hsorted IH Hx]; intros Hnd; constructor.
  - apply IH. by apply NoDup_cons in Hnd as [_ ?].
  - apply NoDup_cons in Hnd as [Hx' _].
    apply Forall_forall. intros y Hy.
    pose proof (proj1 (Forall_forall _ _) Hx y Hy).
    assert (x ≠ y) by (by intros ->). lia.
Qed.

(** A sorted array without duplicates is strictly increasing. *)
Lemma sortByKey_id_strictlyIncreasing (l : list Z) :
  NoDup l → strictlyIncreasing (sortByKey id l).
Proof.
  intros Hnd. apply StronglySorted_lt_strictlyIncreasing.
  apply StronglySorted_le_NoDup.
  - apply (sortByKey_sorted id).
  - by rewrite sortByKey_Permutation.
Qed.

Lemma range_lookup (n : Z) (i : nat) :
  (i < Z.to_nat n)%nat → range n !! i = Some (Z.of_nat i).
Proof.
  intros Hi. unfold range.
  by rewrite list_lookup_fmap, lookup_seq_lt.
Qed.

Lemma range_length (n : Z) : length (range n) = Z.to_nat n.
Proof. unfold range. by rewrite length_fmap, length_seq. Qed.

Lemma range_valid (max : Z) : 0 ≤ max → validSample max max (range max).
Proof.
  intros Hmax. split_and!.
  - intros i a b Ha Hb.
    pose proof (lookup_lt_Some _ _ _ Ha) as Hla.
    pose proof (lookup_lt_Some _ _ _ Hb) as Hlb.
    rewrite range_length in Hla, Hlb.
    rewrite range_lookup in Ha, Hb by done. simplify_eq. lia.
  - apply Forall_forall. intros s Hs. unfold range in Hs.
    apply list_elem_of_fmap in Hs as (i & -> & Hi).
    apply elem_of_seq in Hi. lia.
  - rewrite range_length. lia.
Qed.

Lemma size_add_le (d : Z) (picked : gset Z) :
  (size ({[d]} ∪ picked) ≤ S (size picked))%nat.
Proof.
  rewrite size_union_alt, size_singleton.
  assert (Hsub : picked ∖ {[d]} ⊆ picked).
  { intros s Hs. by apply elem_of_difference in Hs as [? _]. }
  apply subseteq_size in Hsub. lia.
Qed.

(** The loop of lines 209-211 ends with exactly [count] values, all of
    them drawn. *)
Lemma pickDistinct_spec count draws picked p :
  pickDistinct count draws picked = Some p →
  Z.of_nat (size picked) ≤ count →
  Z.of_nat (size p) = count ∧
  ∀ s, s ∈ p → s ∈ picked ∨ s ∈ draws.
Proof.
  revert picked. induction draws as [|d draws IH]; intros picked; simpl.
  - destruct (Z.ltb_spec (Z.of_nat (size picked)) count); [done|].
    intros [= <-] Hle. split; [lia|]. intros s Hs. by left.
  - destruct (Z.ltb_spec (Z.of_nat (size picked)) count) as [Hlt|Hge].
    + intros Hp _. apply IH in Hp as [Hsize Hfrom].
      * split; [done|]. intros s Hs.
        destruct (Hfrom s Hs) as [Hin|Hin].
        -- apply elem_of_union in Hin as [Hin|Hin]; [|by left].
           apply elem_of_singleton in Hin as ->. right. by left.
        -- right. by right.
      * pose proof (size_add_le d picked). lia.
    + intros [= <-] Hle. split; [lia|]. intros s Hs. by left.
Qed.

Lemma pickDistinct_full count draws picked :
  count ≤ Z.of_nat (size picked) →
  pickDistinct count draws picked = Some picked.
Proof.
  intros Hle.
  destruct draws; simpl;
    by destruct (Z.ltb_spec (Z.of_nat (size picked)) count); [lia|].
Qed.

(** The loop ends once the draws hold [count] different values. *)
Lemma pickDistinct_returns count draws picked :
  count ≤ Z.of_nat (size (picked ∪ list_to_set draws)) →
  is_Some (pickDistinct count draws picked).
Proof.
  revert picked. induction draws as [|d draws IH]; intros picked; simpl.
  - rewrite (right_id_L ∅ (∪)). intros Hle.
    destruct (Z.ltb_spec (Z.of_nat (size picked)) count); [lia|by eexists].
  - intros Hle.
    destruct (Z.ltb_spec (Z.of_nat (size picked)) count); [|by eexists].
    apply IH.
    replace ({[d]} ∪ picked ∪ list_to_set draws)
      with (picked ∪ ({[d]} ∪ list_to_set draws)); [done|].
    rewrite (assoc_L (∪)). f_equal. apply (comm_L (∪)).
Qed.

End Sampling.

(** X8. What the sampling loops of [sampleUniqueSecondsWithinHour] and
    [sampleUniqueSeconds] return, whatever [Math.random] draws: a strictly
    increasing list of seconds between 0 and [max - 1], of length [count]
    when [0 <= count < max], and all the [max] seconds when [count] is
    [max] or more (a request for more than [max] seconds is cut to
    [max]). A second of the result was drawn. *)
Theorem sampleUniqueFrom_valid (max count : Z) (draws l : list Z) :
  0 ≤ max →
  Forall (λ d, 0 ≤ d < max) draws →
  sampleUniqueFrom max count draws = Some l →
  validSample max (Z.min max (Z.max 0 count)) l ∧
  (count < max → ∀ s, s ∈ l → s ∈ draws).
Proof.
  intros Hmax Hdraws. unfold sampleUniqueFrom.
  destruct (Z.leb_spec max count) as [Hge|Hlt].
  { intros [= <-]. split; [|lia].
    replace (Z.min max (Z.max 0 count)) with max by lia.
    by apply range_valid. }
  destruct (pickDistinct count draws ∅) as [p|] eqn:Hp; [|done].
  simpl. intros [= <-].
  assert (Hperm : sortByKey id (elements p) ≡ₚ elements p)
    by apply sortByKey_Permutation.
  assert (Hfrom : ∀ s, s ∈ sortByKey id (elements p) → s ∈ p).
  { intros s. rewrite Hperm. apply elem_of_elements. }
  destruct (Z.le_gt_cases 0 count) as [Hpos|Hneg].
  - apply pickDistinct_spec in Hp as [Hsize Hin];
      [|rewrite size_empty; lia].
    assert (Hdrawn : ∀ s, s ∈ sortByKey id (elements p) → s ∈ draws).
    { intros s Hs. destruct (Hin s (Hfrom s Hs)) as [Hs'|Hs']; [|done].
      by apply elem_of_empty in Hs'. }
    split; [|by intros _].
    split_and!.
    + apply sortByKey_id_strictlyIncreasing, NoDup_elements.
    + apply Forall_forall. intros s Hs.
      by apply (proj1 (Forall_forall _ _) Hdraws), Hdrawn.
    + rewrite Hperm. change (length (elements p)) with (size p). lia.
  - rewrite pickDistinct_full in Hp by (rewrite size_empty; lia).
    injection Hp as <-.
    rewrite elements_empty. split; [|intros _ s Hs; by apply elem_of_nil in Hs].
    split_and!; [done|by constructor|simpl; lia].
Qed.

Lemma sampleUniqueFrom_valid_witness :
  sampleUniqueFrom 3600 3 [17; 5; 17; 2000; 9] = Some [5; 17; 2000] ∧
  validSample 3600 3 [5; 17; 2000].
Proof.
  split; [reflexivity|].
  apply (sampleUniqueFrom_valid 3600 3 [17; 5; 17; 2000; 9] [5; 17; 2000]);
    [lia|repeat constructor; lia|reflexivity].
Defined.

(** X9. The sampling loop ends as soon as [Math.random] has produced
    [count] different values; a request for [max] seconds or more never
    enters it. *)
Theorem sampleUniqueFrom_returns (max count : Z) (draws : list Z) :
  max ≤ count ∨ count ≤ Z.of_nat (size (list_to_set draws : gset Z)) →
  is_Some (sampleUniqueFrom max count draws).
Proof.
  intros Hok. unfold sampleUniqueFrom.
  destruct (Z.leb_spec max count) as [Hge|Hlt]; [by eexists|].
  destruct Hok as [?|Hok]; [lia|].
  destruct (pickDistinct_returns count draws ∅) as [p Hp].
  { by rewrite (left_id_L ∅ (∪)). }
  rewrite Hp. by eexists.
Qed.

Lemma sampleUniqueFrom_returns_witness :
  is_Some (sampleUniqueFrom 3600 2 [7; 7; 8]).
Proof.
  apply sampleUniqueFrom_returns. right. vm_compute. done.
Defined.

(** ** Timers, progress and accounting of the dispatch loop *)

Section Loop.

Lemma skipWrites_no_timer st a b ms : SetTimeout ms ∉ skipWrites st a b.
Proof.
  unfold skipWrites. intros Hin.
  apply list_elem_of_fmap in Hin as (? & ? & _). done.
Qed.

(** A dispatch arms exactly one timer, of one second, as its last
    effect. *)
Lemma dispatch_timer cfg w st ev :
  ∃ tr, (dispatch cfg w st ev).2 = tr ++ [SetTimeout 1000] ∧
        ∀ ms, SetTimeout ms ∉ tr.
Proof.
  unfold dispatch.
  destruct (kind ev), (sendSucceeds w); cbv beta iota zeta delta [snd];
    (eexists; split; [reflexivity|]); intros ms Hin; by in_list.
Qed.

Lemma sendNextIfDue_timer_cases cfg w st :
  let r := sendNextIfDue cfg w st in
  (completed st = true → r = (st, [])) ∧
  (completed r.1 = true → ∀ ms, SetTimeout ms ∉ r.2) ∧
  (completed r.1 = false →
   ∃ tr ms, r.2 = tr ++ [SetTimeout ms] ∧ 0 < ms ≤ 5000 ∧
            ∀ ms', SetTimeout ms' ∉ tr).
Proof.
  destruct (sendNextIfDue_top cfg w st)
    as [[Hdone ->]|[(Hrun & Hge & ->)|(Hrun & item & Hitem & Hcase)]]; simpl.
  - split_and!; [done| |congruence]. intros _ ms Hin. by in_list.
  - split_and!; [congruence| |done]. intros _ ms Hin. by in_list.
  - split; [congruence|].
    remember (sendNextIfDue cfg w st) as r eqn:Hr. clear Hr.
    destruct Hcase
      as [Hall|k' item' ev Hk' Hitem' Hall Hfresh Hdue Hkind Hat Htext Himage
         |k' item' Hk' Hitem' Hall Hnotdue]; simpl.
    + split; [|done]. intros _ ms Hin.
      apply elem_of_app in Hin as [Hin|Hin];
        [by apply skipWrites_no_timer in Hin|by in_list].
    + destruct (dispatch_spec cfg w (setSentCount st k') ev)
        as (_ & _ & Hcompl & _).
      destruct (dispatch_timer cfg w (setSentCount st k') ev)
        as (tr & Htr & Hno).
      simpl in Hcompl. rewrite Hcompl, Hrun, Htr.
      split; [done|]. intros _.
      exists (skipWrites st (sentCount st) k' ++ tr), 1000.
      split_and!; [by rewrite (assoc_L (++))|lia|lia|].
      intros ms Hin. apply elem_of_app in Hin as [Hin|Hin];
        [by apply skipWrites_no_timer in Hin|by apply Hno in Hin].
    + rewrite Hrun. split; [done|]. intros _.
      exists (skipWrites st (sentCount st) k'),
        (Z.min (itemAt item' - internetNow w) 5000).
      unfold due in Hnotdue.
      split_and!; [done|lia|lia|].
      intros ms Hin. by apply skipWrites_no_timer in Hin.
Qed.

Lemma run_completed cfg ticks st :
  completed st = true → run cfg ticks st = (st, []).
Proof.
  intros Hdone. induction ticks as [|w ticks IH]; simpl; [done|].
  unfold sendNextIfDue at 1. rewrite Hdone. by rewrite IH.
Qed.

(** When the request succeeds and the entry at the cursor is due, a check
    finishes the plan or moves the cursor. *)
Lemma sendNextIfDue_progress cfg w st :
  sendSucceeds w = true →
  (∀ item, item ∈ schedule st → due (internetNow w) item) →
  completed st = false →
  completed (sendNextIfDue cfg w st).1 = true ∨
  (sentCount st < sentCount (sendNextIfDue cfg w st).1)%nat.
Proof.
  intros Hok Hdue Hrun.
  destruct (sendNextIfDue_top cfg w st)
    as [[Hdone _]|[(_ & Hge & ->)|(_ & item & Hitem & Hcase)]];
    [congruence|by left|].
  remember (sendNextIfDue cfg w st) as r eqn:Hr. clear Hr.
  destruct Hcase
    as [Hall|k' item' ev Hk' Hitem' Hall Hfresh Hdue' Hkind Hat Htext Himage
       |k' item' Hk' Hitem' Hall Hnotdue]; simpl.
  - by left.
  - right.
    destruct (dispatch_spec cfg w (setSentCount st k') ev)
      as (_ & _ & _ & _ & _ & _ & _ & _ & Hmove & _).
    destruct Hmove as [Hmove _]; [by left|].
    rewrite Hmove. simpl. lia.
  - exfalso. apply Hnotdue, Hdue. by eapply list_elem_of_lookup_2.
Qed.

Lemma run_completes_gen cfg ticks st :
  (∀ w, w ∈ ticks →
        sendSucceeds w = true ∧
        ∀ item, item ∈ schedule st → due (internetNow w) item) →
  (sentCount st ≤ length (schedule st))%nat →
  (completed st = true → sentCount st = length (schedule st)) →
  (length (schedule st) - sentCount st < length ticks)%nat →
  completed (run cfg ticks st).1 = true ∧
  sentCount (run cfg ticks st).1 = length (schedule st).
Proof.
  revert st. induction ticks as [|w ticks IH];
    intros st Hticks Hle Hinv Hlen; simpl in *; [lia|].
  destruct (completed st) eqn:Hrun.
  { unfold sendNextIfDue. rewrite Hrun.
    rewrite run_completed by done. simpl. auto. }
  destruct (Hticks w) as [Hok Hdue]; [by left|].
  pose proof (sendNextIfDue_progress cfg w st Hok Hdue Hrun) as Hprog.
  destruct (sendNextIfDue_frame cfg w st) as (Hs & _ & Hmono & Hle' & Hinv' & _).
  destruct (sendNextIfDue cfg w st) as [st1 tr1]. simpl in *.
  specialize (Hle' Hle).
  assert (Hinv1 : completed st1 = true → sentCount st1 = length (schedule st1)).
  { rewrite Hs. apply Hinv'; [done|congruence]. }
  destruct (completed st1) eqn:Hrun1.
  - rewrite run_completed by done. simpl.
    split; [done|]. rewrite <- Hs. by apply Hinv1.
  - destruct Hprog as [?|Hprog]; [done|].
    destruct (IH st1) as [Hc Hn].
    + intros w' Hw'. rewrite Hs. apply Hticks. by right.
    + by rewrite Hs.
    + intros ?. congruence.
    + rewrite Hs. lia.
    + destruct (run cfg ticks st1) as [st2 tr2]. simpl in *.
      split; [done|]. by rewrite <- Hs.
Qed.

Lemma seq_split (a b c : nat) :
  (a ≤ b ≤ c)%nat → seq a (c - a) = seq a (b - a) ++ seq b (c - b).
Proof.
  intros Habc. replace (c - a)%nat with ((b - a) + (c - b))%nat by lia.
  rewrite seq_app. by replace (a + (b - a))%nat with b by lia.
Qed.

Lemma buysBetween_split plan (a b c : nat) :
  (a ≤ b ≤ c)%nat →
  buysBetween plan a c = (buysBetween plan a b + buysBetween plan b c)%nat.
Proof.
  intros Habc. unfold buysBetween.
  by rewrite (seq_split a b c), filter_app, length_app.
Qed.

Lemma buysBetween_buy plan (a j : nat) item :
  (a ≤ j)%nat →
  plan !! j = Some item →
  kind (itemEvent item) = Buy →
  (1 ≤ buysBetween plan a (S j))%nat.
Proof.
  intros Haj Hitem Hbuy.
  rewrite (buysBetween_split plan a j (S j)) by lia.
  unfold buysBetween at 2. replace (S j - j)%nat with 1%nat by lia. simpl.
  rewrite filter_cons_True; [simpl; lia|].
  rewrite Hitem. simpl. unfold isBuy. by rewrite bool_decide_eq_true_2.
Qed.

Lemma addedTimes_add (n m : nat) (amount x : Qc) :
  addedTimes n amount (addedTimes m amount x) = addedTimes (n + m) amount x.
Proof. unfold addedTimes. by rewrite Nat.iter_add. Qed.

(** One check adds at most one amount, and only for a purchase between the
    old and the new cursor. *)
Lemma sendNextIfDue_total_raised cfg w st :
  let r := sendNextIfDue cfg w st in
  ∃ n, (n ≤ buysBetween (schedule st) (sentCount st) (sentCount r.1))%nat ∧
       totalUsdRaised r.1
       = addedTimes n (amountPerMessageUsd cfg) (totalUsdRaised st).
Proof.
  cbv zeta.
  destruct (sendNextIfDue_frame cfg w st)
    as (_ & _ & _ & _ & _ & _ & [Hsame|[Hadd Hbuy]]).
  - exists 0%nat. split; [lia|done].
  - destruct Hbuy as (j & item & req & Hitem & Hkind & Hin & _ & Hcount).
    apply sendNextIfDue_send in Hin as (_ & _ & _ & _ & _ & Hj & _).
    exists 1%nat. split; [|done]. rewrite Hcount.
    by eapply buysBetween_buy.
Qed.

Lemma run_total_raised_gen cfg ticks st :
  let r := run cfg ticks st in
  ∃ n, (n ≤ buysBetween (schedule st) (sentCount st) (sentCount r.1))%nat ∧
       totalUsdRaised r.1
       = addedTimes n (amountPerMessageUsd cfg) (totalUsdRaised st).
Proof.
  revert st. induction ticks as [|w ticks IH]; intros st; simpl.
  { exists 0%nat. split; [lia|done]. }
  destruct (sendNextIfDue_total_raised cfg w st) as (n1 & Hn1 & Ht1).
  destruct (sendNextIfDue_frame cfg w st) as (Hs & _ & Hmono & _).
  destruct (sendNextIfDue cfg w st) as [st1 tr1]. simpl in *.
  destruct (IH st1) as (n2 & Hn2 & Ht2).
  destruct (run_frame cfg ticks st1) as (_ & Hmono2 & _).
  destruct (run cfg ticks st1) as [st2 tr2]. simpl in *.
  exists (n2 + n1)%nat. split.
  - rewrite (buysBetween_split _ (sentCount st) (sentCount st1)) by lia.
    rewrite Hs in Hn2. lia.
  - by rewrite Ht2, Ht1, addedTimes_add.
Qed.

End Loop.

(** X10. Every check either finds or leaves the plan completed and then
    arms no timer (a check of a completed plan does nothing at all), or
    ends by arming exactly one timer, of more than 0 and at most 5000
    milliseconds: the loop neither stalls nor forks while entries are
    left. *)
Theorem sendNextIfDue_timer (cfg : Config) (w : World) (st : State) :
  let r := sendNextIfDue cfg w st in
  (completed st = true → r = (st, [])) ∧
  (completed r.1 = true → ∀ ms, SetTimeout ms ∉ r.2) ∧
  (completed r.1 = false →
   ∃ tr ms, r.2 = tr ++ [SetTimeout ms] ∧ 0 < ms ≤ 5000 ∧
            ∀ ms', SetTimeout ms' ∉ tr).
Proof. apply sendNextIfDue_timer_cases. Qed.

(** X11. Once the corrected clock has passed every entry and the requests
    succeed, a plan with [n] entries left is completed by [n + 1] checks:
    the cursor ends at the length of the plan and the completion flag is
    set. *)
Theorem run_completes (cfg : Config) (ticks : list World) (st : State) :
  (∀ w, w ∈ ticks →
        sendSucceeds w = true ∧
        ∀ item, item ∈ schedule st → due (internetNow w) item) →
  (sentCount st ≤ length (schedule st))%nat →
  (completed st = true → sentCount st = length (schedule st)) →
  (length (schedule st) - sentCount st < length ticks)%nat →
  completed (run cfg ticks st).1 = true ∧
  sentCount (run cfg ticks st).1 = length (schedule st).
Proof. apply run_completes_gen. Qed.

Lemma run_completes_witness :
  completed
    (run (hourConfig 200 false None)
       [worldAt 30000 true; worldAt 31000 true; worldAt 32000 true]
       twoBuys).1 = true ∧
  sentCount
    (run (hourConfig 200 false None)
       [worldAt 30000 true; worldAt 31000 true; worldAt 32000 true]
       twoBuys).1 = 2%nat.
Proof.
  apply (run_completes (hourConfig 200 false None)
           [worldAt 30000 true; worldAt 31000 true; worldAt 32000 true]
           twoBuys).
  - intros w Hw. split.
    + in_list; by subst.
    + intros item Hitem. unfold due. simpl in Hitem.
      in_list; subst; simpl; unfold t0; lia.
  - simpl. lia.
  - simpl. done.
  - simpl. lia.
Defined.

(** X12. Over any run of checks the running total grows by one
    [amountPerMessageUsd] per purchase sent, and by nothing else: it is
    the old total with the amount added [n] times, where [n] is at most
    the number of ['buy'] entries between the old and the new cursor. *)
Theorem run_total_raised (cfg : Config) (ticks : list World) (st : State) :
  let r := run cfg ticks st in
  ∃ n, (n ≤ buysBetween (schedule st) (sentCount st) (sentCount r.1))%nat ∧
       totalUsdRaised r.1
       = addedTimes n (amountPerMessageUsd cfg) (totalUsdRaised st).
Proof. apply run_total_raised_gen. Qed.

(** ** Start-up, the status endpoint and marker requests *)

Section Startup.



Lemma freshState_items cfg o st :
  freshState cfg o = Some st →
  totalUsdRaised st = startRaisedUsd cfg ∧
  ∀ item, item ∈ schedule st → ∃ e, item = EventItem e.
Proof.
  unfold freshState.
  destruct (generateFullSchedule cfg o) as [[plan e]|]; simpl; [|done].
  intros [= <-]. simpl. split; [done|].
  intros item Hitem. apply list_elem_of_fmap in Hitem as (ev & -> & _).
  by exists ev.
Qed.

End Startup.


(** X14. A state generated at start-up (nothing persisted, or a persisted
    state with another signature) starts from zero whatever had been
    persisted: cursor 0, running total [startRaisedUsd], not completed,
    the signature of the configuration, every entry an object, entries in
    timestamp order; and the next start with the same configuration
    keeps it as it is. *)
Theorem startup_regenerates (cfg : Config) (o : Oracle)
    (persisted : option State) (st : State) :
  (∀ old, persisted = Some old →
          configSignature old ≠ getConfigSignature cfg) →
  startup cfg o persisted = Some st →
  sentCount st = 0%nat ∧
  totalUsdRaised st = startRaisedUsd cfg ∧
  completed st = false ∧
  configSignature st = getConfigSignature cfg ∧
  (∀ item, item ∈ schedule st → ∃ e, item = EventItem e) ∧
  sortedByAt (schedule st) ∧
  ∀ o', startup cfg o' (Some st) = Some st.
Proof.
  intros Hstale Hstart.
  assert (Hreach : Reachable cfg st) by (by eapply reach_fresh).
  pose proof (Reachable_Invariant cfg st Hreach) as (Hsig & _ & _ & Htrim).
  pose proof (Reachable_sorted cfg st Hreach) as Hsorted.
  unfold startup in Hstart.
  destruct (loadOrGenerate cfg o persisted) as [st0|] eqn:Hload; [|done].
  injection Hstart as <-.
  assert (Hfresh : freshState cfg o = Some st0).
  { unfold loadOrGenerate in Hload. destruct persisted as [old|]; [|done].
    by rewrite bool_decide_eq_false_2 in Hload by (by apply Hstale). }
  pose proof (freshState_spec cfg o st0 Hfresh) as (_ & Hcount & Hrun).
  pose proof (freshState_items cfg o st0 Hfresh) as (Htotal & Hitems).
  destruct (hardStopTrim_frame cfg st0) as (_ & Hc & Ht & Hd & _).
  rewrite Hc, Ht, Hd.
  split_and!; try done.
  - intros item Hitem. apply Hitems.
    unfold hardStopTrim in Hitem.
    destruct (enforceHardStopAtEnd cfg); [|done]. simpl in Hitem.
    by apply list_elem_of_filter in Hitem as [_ ?].
  - intros o'. unfold startup, loadOrGenerate.
    rewrite bool_decide_eq_true_2 by done. simpl.
    by rewrite hardStopTrim_idem.
Qed.

Lemma startup_regenerates_witness :
  startup (hourConfig 100 false None) plainOracle None = Some oneBuy ∧
  sentCount oneBuy = 0%nat ∧
  totalUsdRaised oneBuy = startRaisedUsd (hourConfig 100 false None).
Proof.
  assert (Hstart : startup (hourConfig 100 false None) plainOracle None
                   = Some oneBuy) by (by vm_compute).
  split; [exact Hstart|].
  destruct (startup_regenerates (hourConfig 100 false None) plainOracle None
              oneBuy) as (H1 & H2 & _); [done|exact Hstart|].
  split; [exact H1|exact H2].
Defined.

(** X15. What the [/status] endpoint reports for a state the program can
    be in: [sentCount + remaining] is the length of the plan;
    [remaining] is 0 exactly when [nextAt] is [null]; a completed plan
    has nothing remaining; and [nextAt] is the timestamp of the entry at
    the cursor, the earliest of the entries still to come. *)
Theorem statusResponse_consistent (cfg : Config) (st : State) :
  Reachable cfg st →
  let s := statusResponse cfg st in
  Z.of_nat (status_sentCount s) + status_remaining s
  = Z.of_nat (length (schedule st)) ∧
  (status_remaining s = 0 ↔ status_nextAt s = None) ∧
  (status_completed s = true → status_remaining s = 0) ∧
  (∀ t, status_nextAt s = Some t →
        (∃ item, schedule st !! sentCount st = Some item ∧ t = itemAt item) ∧
        ∀ j item, (sentCount st ≤ j)%nat → schedule st !! j = Some item →
                  t ≤ itemAt item).
Proof.
  intros Hreach.
  pose proof (Reachable_Invariant cfg st Hreach) as (_ & Hle & Hdone & _).
  pose proof (Reachable_sorted cfg st Hreach) as Hsorted.
  unfold statusResponse. simpl.
  destruct (Nat.ltb_spec (sentCount st) (length (schedule st))) as [Hlt|Hge].
  - destruct (lookup_lt_is_Some_2 _ _ Hlt) as [item Hitem].
    rewrite Hitem. simpl. split_and!; try lia.
    + split; [lia|done].
    + intros Hc. specialize (Hdone Hc). lia.
    + intros t [= <-]. split; [by exists item|].
      intros j item' Hj Hitem'. by apply (Hsorted (sentCount st) j).
  - split; [lia|]. split; [split; [done|lia]|].
    split; [lia|]. by intros t [=].
Qed.

Lemma statusResponse_consistent_witness :
  status_remaining (statusResponse (hourConfig 100 false None) oneBuy) = 1 ∧
  status_nextAt (statusResponse (hourConfig 100 false None) oneBuy) = Some t0.
Proof.
  destruct (statusResponse_consistent (hourConfig 100 false None) oneBuy)
    as (H1 & _); [apply oneBuy_reachable|].
  split; [simpl in *; lia|reflexivity].
Defined.

(** X16. The request for a ['countdown'] or ['start'] entry: a photo is
    only sent from a file that exists, and that file is the image of the
    entry or, for a launch entry without text, [live.png]; a launch entry
    is never sent without a text, and a text that is there is sent as it
    is. *)
Theorem markerRequest_spec (w : World) (nextEvent : Event) :
  (∀ p caption, markerRequest w nextEvent = SendPhoto p caption →
     existsSync w p = true ∧
     (image nextEvent = Some p ∨
      (p = "live.png" ∧ kind nextEvent = Start ∧
       noText (text nextEvent) = true))) ∧
  (kind nextEvent = Start →
   noText (requestText (markerRequest w nextEvent)) = false) ∧
  (noText (text nextEvent) = false →
   requestText (markerRequest w nextEvent) = text nextEvent).
Proof.
  unfold markerRequest.
  destruct (noText (text nextEvent)) eqn:Hno;
    destruct (decide (kind nextEvent = Start)) as [Hk|Hk];
    [rewrite bool_decide_eq_true_2 by done
    |rewrite bool_decide_eq_false_2 by done
    |rewrite bool_decide_eq_true_2 by done
    |rewrite bool_decide_eq_false_2 by done]; simpl.
  - destruct (existsSync w "live.png") eqn:Hex; simpl;
      split_and!; try done.
    intros p caption [= <- _]. split; [done|]. by right.
  - split_and!; try done.
    destruct (image nextEvent) as [i|]; [|done].
    case_bool_decide; [done|].
    destruct (existsSync w i) eqn:Hex; [|done].
    intros p caption [= <- _]. split; [done|by left].
  - destruct (image nextEvent) as [i|]; [|by split_and!].
    case_bool_decide; [by split_and!|].
    destruct (existsSync w i) eqn:Hex; simpl; split_and!; try done.
    intros p caption [= <- _]. split; [done|by left].
  - destruct (image nextEvent) as [i|]; [|by split_and!].
    case_bool_decide; [by split_and!|].
    destruct (existsSync w i) eqn:Hex; simpl; split_and!; try done.
    intros p caption [= <- _]. split; [done|by left].
Qed.

(** ** The allocation and the events of a generated schedule *)

Section Events.

(** Whether affordable or not, the soft floor leaves every hour at
    [minPerHour] or above and never above where it was, unless it was
    below [minPerHour]. *)
Lemma softFloor_bounds minPerHour idxs (perHour : list Z) :
  Permutation idxs (seq 0 (length perHour)) →
  ∀ j, (j < length perHour)%nat →
       minPerHour ≤ softFloor minPerHour idxs perHour !!! j
                  ≤ Z.max minPerHour (perHour !!! j).
Proof.
  intros Hp. unfold softFloor.
  destruct (raiseToFloor_spec minPerHour perHour) as (H1 & H2 & H3).
  destruct (raiseToFloor minPerHour perHour) as [raised deficit].
  simpl in *. subst raised.
  assert (Hraised : ∀ j, (j < length perHour)%nat →
            ((λ n, Z.max minPerHour n) <$> perHour) !!! j
            = Z.max minPerHour (perHour !!! j)).
  { intros j Hj.
    by rewrite (list_lookup_total_fmap (λ n, Z.max minPerHour n)). }
  destruct (Z.ltb_spec 0 deficit) as [Hd|Hd].
  - destruct (takePass_spec minPerHour idxs
                ((λ n, Z.max minPerHour n) <$> perHour) deficit)
      as (_ & _ & _ & _ & Hbnd); rewrite ?length_fmap in *; try done.
    { by eapply shuffle_NoDup. }
    { intros i. by apply shuffle_in_range. }
    intros j Hj. specialize (Hbnd j).
    rewrite Hraised in Hbnd by done. lia.
  - intros j Hj. rewrite Hraised by done. lia.
Qed.

(** The final pass keeps every hour between 0 and [maxPerHour] when it
    finds it there. *)
Lemma adjustToTotal_bounds maxPerHour total idxs (perHour : list Z) :
  Permutation idxs (seq 0 (length perHour)) →
  ∀ j, Z.min (perHour !!! j) 0
       ≤ adjustToTotal maxPerHour total idxs perHour !!! j
       ≤ Z.max (perHour !!! j) maxPerHour.
Proof.
  intros Hp. unfold adjustToTotal.
  pose proof (shuffle_NoDup _ _ Hp) as Hnd.
  pose proof (λ i, shuffle_in_range _ _ i Hp) as Hrange.
  destruct (Z.ltb_spec 0 (total - sumZ perHour)) as [Hd|Hd].
  - destruct (addPass_spec maxPerHour idxs perHour (total - sumZ perHour))
      as (_ & _ & _ & _ & Hbnd); [done|done|lia|].
    intros j. specialize (Hbnd j). lia.
  - destruct (Z.ltb_spec (total - sumZ perHour) 0) as [Hd'|Hd']; [|intros; lia].
    destruct (takePass_spec 0 idxs perHour (- (total - sumZ perHour)))
      as (_ & _ & _ & _ & Hbnd); [done|done|lia|].
    intros j. specialize (Hbnd j). lia.
Qed.

Lemma perHourAllocation_range_gen cfg o :
  shufflesPermute o →
  0 < maxPerHour cfg →
  0 ≤ minPerHour cfg ≤ maxPerHour cfg →
  length (perHourAllocation cfg o) = Z.to_nat (spanHours cfg) ∧
  Forall (λ n, 0 ≤ n) (perHourAllocation cfg o) ∧
  (sumZ (roundedAllocation cfg o) ≠ totalMessagesNeeded cfg ∨
   Forall (λ n, n ≤ maxPerHour cfg) (roundedAllocation cfg o) →
   Forall (λ n, n ≤ maxPerHour cfg) (perHourAllocation cfg o)).
Proof.
  intros Hsh Hmax [Hmin Hmm]. unfold perHourAllocation.
  set (n := Z.to_nat (spanHours cfg)).
  set (total := totalMessagesNeeded cfg) in *.
  set (p1 := clampAndRebalance _ _ _ _).
  set (p2 := softFloor _ _ p1).
  assert (Hl1 : length p1 = n).
  { unfold p1. rewrite clampAndRebalance_length;
      rewrite ?roundedAllocation_length; done. }
  assert (Hl2 : length p2 = n).
  { unfold p2. rewrite softFloor_length; rewrite ?Hl1; done. }
  assert (Hl3 : length (adjustToTotal (maxPerHour cfg) total
                          (rnd_shuffle o 3 n) p2) = n).
  { rewrite adjustToTotal_length; rewrite ?Hl2; done. }
  pose proof (softFloor_bounds (minPerHour cfg) (rnd_shuffle o 2 n) p1) as Hb2.
  rewrite Hl1 in Hb2. specialize (Hb2 (Hsh 2%nat n)). fold p2 in Hb2.
  pose proof (adjustToTotal_bounds (maxPerHour cfg) total
                (rnd_shuffle o 3 n) p2) as Hb3.
  rewrite Hl2 in Hb3. specialize (Hb3 (Hsh 3%nat n)).
  split_and!; [done| |].
  - apply (Forall_lookup_total_bounds _ p2); [lia|].
    rewrite Hl2. intros j Hj. specialize (Hb2 j Hj). specialize (Hb3 j). lia.
  - intros Hslip.
    assert (Hm1 : Forall (λ n, n ≤ maxPerHour cfg) p1).
    { unfold p1. apply clampAndRebalance_le_max;
        rewrite ?roundedAllocation_length; [done|exact Hslip]. }
    apply (Forall_lookup_total_bounds _ p2); [lia|].
    rewrite Hl2. intros j Hj. specialize (Hb2 j Hj). specialize (Hb3 j).
    assert (p1 !!! j ≤ maxPerHour cfg).
    { eapply (Forall_lookup_total_1 (λ n, n ≤ maxPerHour cfg));
        [done|by rewrite Hl1]. }
    lia.
Qed.

End Events.

(** X17. With [0 <= minPerHour <= maxPerHour] the allocation has one
    entry for each hour of the span and no entry is negative, whether
    the floor is affordable or not; and no entry exceeds [maxPerHour]
    when the clamp of lines 361-387 ran or no rounded hour was above
    [maxPerHour]. *)
Theorem perHourAllocation_range (cfg : Config) (o : Oracle) :
  shufflesPermute o →
  0 < maxPerHour cfg →
  0 ≤ minPerHour cfg ≤ maxPerHour cfg →
  length (perHourAllocation cfg o) = Z.to_nat (spanHours cfg) ∧
  Forall (λ n, 0 ≤ n) (perHourAllocation cfg o) ∧
  (sumZ (roundedAllocation cfg o) ≠ totalMessagesNeeded cfg ∨
   Forall (λ n, n ≤ maxPerHour cfg) (roundedAllocation cfg o) →
   Forall (λ n, n ≤ maxPerHour cfg) (perHourAllocation cfg o)).
Proof. apply perHourAllocation_range_gen. Qed.

Lemma perHourAllocation_range_witness :
  length (perHourAllocation (hourConfig 1000 false None) plainOracle) = 1%nat ∧
  Forall (λ n, 0 ≤ n) (perHourAllocation (hourConfig 1000 false None) plainOracle).
Proof.
  destruct (perHourAllocation_range (hourConfig 1000 false None) plainOracle)
    as (H1 & H2 & _);
    [apply plainOracle_shuffles|simpl; lia|simpl; lia|].
  split; [exact H1|exact H2].
Defined.

Section Generated.

Lemma StronglySorted_lt_NoDup (l : list Z) : StronglySorted Z.lt l → NoDup l.
Proof.
  induction 1 as [|x l Hsorted IH Hx]; constructor; [|done].
  intros Hin. pose proof (proj1 (Forall_forall _ _) Hx x Hin). lia.
Qed.

Lemma strictlyIncreasing_NoDup (l : list Z) : strictlyIncreasing l → NoDup l.
Proof.
  intros. by apply StronglySorted_lt_NoDup, strictlyIncreasing_StronglySorted.
Qed.

Lemma strictlyIncreasing_first (l : list Z) (x y : Z) (j : nat) :
  strictlyIncreasing l → l !! 0%nat = Some x → l !! j = Some y → x ≤ y.
Proof.
  intros Hinc Hx. revert y. induction j as [|j IH]; intros y Hy.
  - simplify_eq. lia.
  - destruct (l !! j) as [z|] eqn:Hz.
    + specialize (IH z eq_refl). pose proof (Hinc j z y Hz Hy). lia.
    + apply lookup_ge_None in Hz. apply lookup_lt_Some in Hy. lia.
Qed.

Lemma enforceUniqueIntervals_order (schedule : list Z) :
  strictlyIncreasing schedule →
  length (enforceUniqueIntervals schedule) = length schedule ∧
  strictlyIncreasing (enforceUniqueIntervals schedule).
Proof.
  intros Hinc. unfold enforceUniqueIntervals.
  destruct (length schedule <=? 1)%nat; [done|].
  unfold Enforcer.loop.
  destruct (fold_step_preserves (length schedule - 1) 1
              (Enforcer.mk schedule ∅ (Enforcer.initHourToSeconds schedule)))
    as [? ?]; [lia|done|].
  done.
Qed.

Lemma validSample_weaken (max max' count : Z) (l : list Z) :
  max ≤ max' → validSample max count l → validSample max' count l.
Proof.
  intros Hle (Hinc & Hin & Hlen). split_and!; [done| |done].
  eapply Forall_impl; [exact Hin|]. simpl. intros; lia.
Qed.

Lemma validSample_nil (max : Z) : validSample max 0 [].
Proof. split_and!; [done|by constructor|done]. Qed.

Lemma sampleUniqueSecondsWithinHour_valid o h count :
  samplesWellFormed o →
  0 ≤ count ≤ 3600 →
  validSample 3600 count (sampleUniqueSecondsWithinHour o h count).
Proof.
  intros [Hwf _] Hcount. unfold sampleUniqueSecondsWithinHour. cbv zeta.
  destruct (Z.leb_spec 3600 count) as [Hge|Hlt].
  { replace count with 3600 by lia. by apply range_valid. }
  destruct (Z.leb_spec count 0) as [Hle|Hgt].
  { replace count with 0 by lia. apply validSample_nil. }
  apply Hwf. lia.
Qed.

Lemma sampleUniqueSeconds_valid o count span :
  samplesWellFormed o →
  0 ≤ count →
  validSample (Z.max 1 span) (Z.min count (Z.max 1 span))
    (sampleUniqueSeconds o count span).
Proof.
  intros [_ Hwf] Hcount. unfold sampleUniqueSeconds. cbv zeta.
  destruct (Z.leb_spec (Z.max 1 span) count) as [Hge|Hlt].
  { replace (Z.min count (Z.max 1 span)) with (Z.max 1 span) by lia.
    apply range_valid. lia. }
  replace (Z.min count (Z.max 1 span)) with count by lia.
  destruct (Z.leb_spec count 0) as [Hle|Hgt].
  { replace count with 0 by lia. apply validSample_nil. }
  apply Hwf. lia.
Qed.

(** The events of lines 444-452, hour by hour from hour [k] on: as many
    as allocated, no two the same, each in the window of its hour. *)
Lemma hourEvents_from o start (perHour : list Z) (k : nat) :
  samplesWellFormed o →
  Forall (λ n, 0 ≤ n ≤ 3600) perHour →
  let events :=
    mjoin (imap (λ h count,
                   (λ s, start + Z.of_nat (k + h) * 3600000 + s * 1000) <$>
                     sampleUniqueSecondsWithinHour o (k + h) count)
             perHour) in
  Z.of_nat (length events) = sumZ perHour ∧
  NoDup events ∧
  Forall (λ x, start + Z.of_nat k * 3600000 ≤ x
               < start + Z.of_nat (k + length perHour) * 3600000) events.
Proof.
  intros Hwf. revert k.
  induction perHour as [|count perHour IH]; intros k Hrange; simpl.
  { split_and!; [done|constructor|constructor]. }
  apply Forall_cons in Hrange as [Hcount Hrange].
  rewrite (imap_ext _ (λ h count,
             (λ s, start + Z.of_nat (S k + h) * 3600000 + s * 1000) <$>
               sampleUniqueSecondsWithinHour o (S k + h) count));
    [|intros h c _; simpl; by replace (k + S h)%nat with (S (k + h)) by lia].
  destruct (IH (S k) Hrange) as (Hlen & Hnd & Hin).
  destruct (sampleUniqueSecondsWithinHour_valid o (k + 0) count Hwf Hcount)
    as (Hinc & Hsec & Hn).
  set (block := (λ s, start + Z.of_nat (k + 0) * 3600000 + s * 1000) <$> _).
  set (rest := mjoin _) in *.
  assert (Hblock : Forall (λ x, start + Z.of_nat k * 3600000 ≤ x
                                < start + Z.of_nat (S k) * 3600000) block).
  { unfold block. apply Forall_fmap.
    eapply Forall_impl; [exact Hsec|]. simpl. intros s Hs. lia. }
  split_and!.
  - rewrite length_app, sumZ_cons. unfold block at 1.
    rewrite length_fmap. lia.
  - apply NoDup_app. split_and!; [|
      |done].
    + unfold block. apply NoDup_fmap_2; [intros x y ?; lia|].
      by apply strictlyIncreasing_NoDup.
    + intros x Hx Hx'.
      pose proof (proj1 (Forall_forall _ _) Hblock x Hx).
      pose proof (proj1 (Forall_forall _ _) Hin x Hx').
      cbv beta in *. lia.
  - apply Forall_app. split.
    + eapply Forall_impl; [exact Hblock|]. simpl. intros; lia.
    + eapply Forall_impl; [exact Hin|]. simpl. intros; lia.
Qed.

Lemma floorToHourTs_below (x limit : Z) :
  limit `mod` 3600000 = 0 → x < limit → floorToHourTs x + 3600000 ≤ limit.
Proof.
  intros Hal Hlt. unfold floorToHourTs.
  pose proof (Z.div_mod x 3600000).
  pose proof (Z.mod_pos_bound x 3600000).
  pose proof (Z.div_mod limit 3600000).
  assert (x `div` 3600000 < limit `div` 3600000) by nia.
  lia.
Qed.

Lemma generateSchedule_events_gen cfg o :
  samplesWellFormed o →
  shufflesPermute o →
  0 ≤ totalMessagesNeeded cfg →
  0 < maxPerHour cfg →
  0 ≤ minPerHour cfg ≤ maxPerHour cfg →
  Forall (λ n, n ≤ 3600) (perHourAllocation cfg o) →
  let g := generateSchedule cfg o in
  Z.of_nat (length (gen_schedule g)) = totalMessagesNeeded cfg ∧
  strictlyIncreasing (gen_schedule g) ∧
  Forall (λ ts, startTimeUtc cfg ≤ ts) (gen_schedule g) ∧
  (startTimeUtc cfg `mod` 3600000 = 0 →
   Forall (λ ts, ts < gen_effectiveEnd g) (gen_schedule g)) ∧
  endTimeUtc cfg ≤ gen_effectiveEnd g.
Proof.
  intros Hwf Hsh Htot Hmax Hmin Hcap.
  pose proof (spanHours_extension_gen cfg Hmax) as (Hh & Hcover & Hfit & _).
  destruct (perHourAllocation_range_gen cfg o Hsh Hmax Hmin)
    as (Hlen & Hpos & _).
  assert (Hsum : sumZ (perHourAllocation cfg o) = totalMessagesNeeded cfg)
    by (apply perHourAllocation_sum; [done|lia|done|done]).
  assert (Hrange : Forall (λ n, 0 ≤ n ≤ 3600) (perHourAllocation cfg o)).
  { apply Forall_forall. intros n Hn.
    pose proof (proj1 (Forall_forall _ _) Hpos n Hn).
    pose proof (proj1 (Forall_forall _ _) Hcap n Hn).
    cbv beta in *. lia. }
  destruct (hourEvents_from o (startTimeUtc cfg) (perHourAllocation cfg o) 0
              Hwf Hrange) as (Hcount & Hnd & Hin).
  change (mjoin _) with
    (hourEvents o (startTimeUtc cfg) (perHourAllocation cfg o)) in *.
  unfold generateSchedule. cbv zeta. cbn [gen_schedule gen_effectiveEnd].
  set (events := hourEvents o (startTimeUtc cfg) (perHourAllocation cfg o))
    in *.
  set (sorted := sortByKey id events).
  assert (Hperm : sorted ≡ₚ events) by apply sortByKey_Permutation.
  assert (Hsorted : strictlyIncreasing sorted)
    by (by apply sortByKey_id_strictlyIncreasing).
  destruct (enforceUniqueIntervals_order sorted Hsorted) as [Hulen Huinc].
  assert (Hwindow : ∀ j a, sorted !! j = Some a →
            startTimeUtc cfg ≤ a
            < startTimeUtc cfg + spanHours cfg * 3600000).
  { intros j a Ha. apply list_elem_of_lookup_2 in Ha. rewrite Hperm in Ha.
    pose proof (proj1 (Forall_forall _ _) Hin a Ha) as Hb.
    simpl in Hb. rewrite Hlen in Hb. lia. }
  split_and!.
  - rewrite Hulen, Hperm. lia.
  - done.
  - apply Forall_forall. intros ts Hts.
    apply list_elem_of_lookup in Hts as [j Hj].
    destruct (enforceUniqueIntervals sorted !! 0%nat) as [u0|] eqn:Hu0;
      [|apply lookup_ge_None in Hu0; apply lookup_lt_Some in Hj; lia].
    destruct (sorted !! 0%nat) as [s0|] eqn:Hs0;
      [|apply lookup_ge_None in Hs0; apply lookup_lt_Some in Hu0; lia].
    destruct (enforceUniqueIntervals_moves_gen sorted 0 s0 u0 Hs0 Hu0)
      as (_ & Hfirst & _).
    rewrite (Hfirst eq_refl) in Hu0.
    pose proof (strictlyIncreasing_first _ _ _ _ Huinc Hu0 Hj).
    pose proof (Hwindow _ _ Hs0). lia.
  - intros Hal. apply Forall_forall. intros ts Hts.
    apply list_elem_of_lookup in Hts as [j Hj].
    destruct (sorted !! j) as [a|] eqn:Ha;
      [|apply lookup_ge_None in Ha; apply lookup_lt_Some in Hj; lia].
    destruct (enforceUniqueIntervals_moves_gen sorted j a ts Ha Hj)
      as (Hhour & _).
    pose proof (Hwindow _ _ Ha) as Hb.
    pose proof (floorToHourTs_bounds ts).
    assert (floorToHourTs a + 3600000
            ≤ startTimeUtc cfg + spanHours cfg * 3600000).
    { apply floorToHourTs_below; [|lia].
      rewrite Z.add_mod, Hal, Z.mod_mul by lia. done. }
    lia.
  - lia.
Qed.

End Generated.

Lemma plainOracle_samples : samplesWellFormed plainOracle.
Proof.
  split; simpl.
  - intros _ count Hcount.
    apply (validSample_weaken count); [lia|]. apply range_valid. lia.
  - intros count span Hcount.
    apply (validSample_weaken count); [lia|]. apply range_valid. lia.
Qed.



(** ** The entries of a full plan *)

Section FullPlan.








End FullPlan.



(** ** The order of a plan with a special phase *)

Section LaunchOrder.

Lemma insertByKey_app_ge {A} (key : A → Z) (x : A) (l1 l2 : list A) :
  Forall (λ y, key y ≤ key x) l1 →
  insertByKey key x (l1 ++ l2) = l1 ++ insertByKey key x l2.
Proof.
  induction 1 as [|y l1 Hy Hl1 IH]; simpl; [done|].
  destruct (Z.ltb_spec (key x) (key y)); [lia|]. by rewrite IH.
Qed.

Lemma foldl_insertByKey_app {A} (key : A → Z) (l acc1 acc2 : list A) :
  (∀ x y, x ∈ l → y ∈ acc1 → key y ≤ key x) →
  foldl (λ acc x, insertByKey key x acc) (acc1 ++ acc2) l
  = acc1 ++ foldl (λ acc x, insertByKey key x acc) acc2 l.
Proof.
  revert acc2. induction l as [|x l IH]; intros acc2 Hle; simpl; [done|].
  rewrite insertByKey_app_ge.
  - apply IH. intros x' y Hx' Hy. apply Hle; [by right|done].
  - apply Forall_forall. intros y Hy. apply Hle; [by left|done].
Qed.

(** Sorting a list whose first part is nowhere after its second part
    sorts the two parts separately: the sort is stable. *)
Lemma sortByKey_app {A} (key : A → Z) (l1 l2 : list A) :
  (∀ x y, x ∈ l1 → y ∈ l2 → key x ≤ key y) →
  sortByKey key (l1 ++ l2) = sortByKey key l1 ++ sortByKey key l2.
Proof.
  intros Hle. unfold sortByKey. rewrite foldl_app.
  rewrite <- (app_nil_r (foldl _ [] l1)) at 1.
  apply foldl_insertByKey_app. intros x y Hx Hy.
  apply (Hle y x); [|done].
  by rewrite <- (sortByKey_Permutation key l1).
Qed.

Lemma sortByKey_sorted_id {A} (key : A → Z) (l : list A) :
  StronglySorted (λ a b, key a ≤ key b) l → sortByKey key l = l.
Proof.
  induction 1 as [|x l Hsorted IH Hx]; [done|].
  change (x :: l) with ([x] ++ l) at 1.
  rewrite sortByKey_app, IH; [done|].
  intros a b Ha Hb. apply list_elem_of_singleton in Ha as ->.
  by apply (proj1 (Forall_forall _ _) Hx).
Qed.

Lemma countdownEntries_sorted presaleStart :
  StronglySorted (λ a b, at_ a ≤ at_ b) (countdownEntries presaleStart) ∧
  Forall (λ c, at_ c ≤ presaleStart) (countdownEntries presaleStart).
Proof.
  unfold countdownEntries. simpl.
  split; repeat constructor; simpl; lia.
Qed.

(** Countdown, launch entry, then purchases that are not before the
    launch: the sort leaves the three groups in this order. *)
Lemma sortByKey_launch presaleStart (buys : list Event) :
  Forall (λ b, presaleStart ≤ at_ b) buys →
  sortByKey at_ (countdownEntries presaleStart
                 ++ [launchEntry presaleStart] ++ buys)
  = countdownEntries presaleStart
    ++ launchEntry presaleStart :: sortByKey at_ buys.
Proof.
  intros Hbuys.
  destruct (countdownEntries_sorted presaleStart) as [Hsorted Hbefore].
  rewrite sortByKey_app.
  - rewrite (sortByKey_sorted_id _ _ Hsorted).
    rewrite sortByKey_app; [done|].
    intros a b Ha Hb. apply list_elem_of_singleton in Ha as ->.
    by apply (proj1 (Forall_forall _ _) Hbuys).
  - intros a b Ha Hb.
    pose proof (proj1 (Forall_forall _ _) Hbefore a Ha) as Hle.
    apply elem_of_app in Hb as [Hb|Hb].
    + apply list_elem_of_singleton in Hb as ->. done.
    + pose proof (proj1 (Forall_forall _ _) Hbuys b Hb). simpl in *. lia.
Qed.

Lemma generateFullSchedule_launch_order_gen cfg o sp presaleStart plan e :
  specialPhase cfg = Some sp →
  truthy (enabled sp) = true →
  presaleStartUtc sp = Some presaleStart →
  0 ≤ burstSpanSec sp →
  samplesWellFormed o →
  shufflesPermute o →
  (0 < amountPerMessageUsd cfg)%Qc →
  0 < maxPerHour cfg →
  0 ≤ minPerHour cfg ≤ maxPerHour cfg →
  (∀ s, specialPhasePlan cfg o = Some s →
        Forall (λ n, n ≤ 3600)
          (perHourAllocation
             (normalConfig cfg (sp_normalStart s) (sp_remainingMessages s))
             o)) →
  generateFullSchedule cfg o = Some (plan, e) →
  ∃ buys,
    plan = countdownEntries presaleStart
           ++ launchEntry presaleStart :: buys ∧
    Forall (λ b, kind b = Buy ∧ presaleStart ≤ at_ b ∧
                 text b = None ∧ image b = None) buys.
Proof.
  intros Hsp Hen Hpre Hspan Hwf Hsh Hamount Hmax Hmin Hcap.
  unfold generateFullSchedule.
  destruct (specialPhasePlan cfg o) as [s|] eqn:Hplan; [|done].
  specialize (Hcap s eq_refl).
  assert (Hs : ∃ burst,
            sp_entries s = countdownEntries presaleStart
                           ++ [launchEntry presaleStart] ++ burst ∧
            Forall (λ b, kind b = Buy ∧ presaleStart ≤ at_ b ∧
                         text b = None ∧ image b = None) burst ∧
            presaleStart ≤ sp_normalStart s).
  { unfold specialPhasePlan in Hplan. rewrite Hsp, Hen, Hpre in Hplan.
    unfold burstSpanSec in Hspan.
    destruct (Z.ltb_spec 0 (default 0 (initialBurstCount sp))) as [Hc|Hc];
      injection Hplan as <-; cbn [sp_entries sp_normalStart].
    - eexists. split; [reflexivity|]. split; [|lia].
      apply Forall_fmap.
      destruct (sampleUniqueSeconds_valid o (default 0 (initialBurstCount sp))
                  (match initialBurstMinutes sp with
                   | Some m => if m =? 0 then 10 else m
                   | None => 10
                   end * 60) Hwf) as (_ & Hsec & _); [lia|].
      eapply Forall_impl; [exact Hsec|]. simpl. intros x Hx.
      split_and!; [done|lia|done|done].
    - exists []. split; [reflexivity|]. split; [constructor|lia]. }
  destruct Hs as (burst & Hentries & Hburst & Hstart).
  assert (Hat : ∀ l, Forall (λ b, kind b = Buy ∧ presaleStart ≤ at_ b ∧
                                   text b = None ∧ image b = None) l →
                     Forall (λ b, presaleStart ≤ at_ b) l).
  { intros l Hl. eapply Forall_impl; [exact Hl|]. simpl. tauto. }
  destruct (Z.ltb_spec 0 (sp_remainingMessages s)) as [Hpos|Hzero].
  - intros [= <- <-].
    set (ncfg := normalConfig cfg (sp_normalStart s)
                   (sp_remainingMessages s)) in *.
    assert (Hntot : totalMessagesNeeded ncfg = sp_remainingMessages s).
    { apply totalMessagesNeeded_normalConfig. intros Heq.
      rewrite Heq in Hamount. by apply Qclt_not_eq in Hamount. }
    destruct (generateSchedule_events_gen ncfg o) as (_ & _ & Hlow & _);
      [done|done|lia|done|done|done|].
    assert (Hall : Forall (λ b, kind b = Buy ∧ presaleStart ≤ at_ b ∧
                                text b = None ∧ image b = None)
                     (burst ++ (buyAt <$> gen_schedule
                                            (generateSchedule ncfg o)))).
    { apply Forall_app. split; [done|]. apply Forall_fmap.
      eapply Forall_impl; [exact Hlow|]. simpl. intros x Hx.
      split_and!; [done|lia|done|done]. }
    exists (sortByKey at_
              (burst ++ (buyAt <$> gen_schedule (generateSchedule ncfg o)))).
    split.
    + rewrite Hentries, <- !(assoc_L (++)).
      rewrite sortByKey_launch; [done|by apply Hat].
    + by rewrite sortByKey_Permutation.
  - intros [= <- <-]. exists (sortByKey at_ burst). split.
    + rewrite Hentries. rewrite sortByKey_launch; [done|by apply Hat].
    + by rewrite sortByKey_Permutation.
Qed.

Lemma specialPhasePlan_setStartTimeUtc cfg o start :
  specialPhaseOn cfg = true →
  specialPhasePlan (setStartTimeUtc cfg start) o = specialPhasePlan cfg o.
Proof.
  unfold specialPhaseOn, specialPhasePlan. simpl.
  destruct (specialPhase cfg) as [sp|]; [|done].
  by intros ->.
Qed.

Lemma generateFullSchedule_setStartTimeUtc cfg o start :
  specialPhaseOn cfg = true →
  generateFullSchedule (setStartTimeUtc cfg start) o
  = generateFullSchedule cfg o.
Proof.
  intros Hon. unfold generateFullSchedule.
  rewrite specialPhasePlan_setStartTimeUtc by done.
  destruct (specialPhasePlan cfg o) as [s|] eqn:Hplan; [|done].
  destruct (0 <? sp_remainingMessages s); [done|].
  cbv zeta. f_equal. f_equal.
  destruct (last (sortByKey at_ (sp_entries s))) as [x|] eqn:Hlast; [done|].
  apply last_None in Hlast.
  assert (Hnil : sp_entries s = []).
  { apply Permutation_nil_r. rewrite <- Hlast.
    by rewrite sortByKey_Permutation. }
  unfold specialPhaseOn, specialPhasePlan in *.
  destruct (specialPhase cfg) as [sp|]; [|done]. rewrite Hon in Hplan.
  destruct (presaleStartUtc sp); [|done]. simpl in Hplan.
  destruct (0 <? default 0 (initialBurstCount sp));
    injection Hplan as <-; done.
Qed.

Lemma filter_isSend_skipWrites st a b :
  filter (λ e, isSend e = true) (skipWrites st a b) = [].
Proof.
  apply filter_none. apply Forall_forall. intros x Hx.
  unfold skipWrites in Hx. apply list_elem_of_fmap in Hx as (j & -> & _).
  done.
Qed.

Lemma dispatch_one_request cfg w st ev :
  (length (filter (λ e, isSend e = true) (dispatch cfg w st ev).2) ≤ 1)%nat.
Proof.
  unfold dispatch. destruct (kind ev), (sendSucceeds w); simpl; lia.
Qed.

Lemma sendNextIfDue_one_request cfg w st :
  (length (filter (λ e, isSend e = true) (sendNextIfDue cfg w st).2) ≤ 1)%nat.
Proof.
  destruct (sendNextIfDue_top cfg w st)
    as [[_ ->]|[(_ & _ & ->)|(_ & item & _ & Hcase)]]; simpl; [lia|lia|].
  remember (sendNextIfDue cfg w st) as r eqn:Hr. clear Hr.
  destruct Hcase; simpl; rewrite filter_app, filter_isSend_skipWrites; simpl.
  - lia.
  - apply dispatch_one_request.
  - lia.
Qed.

Lemma run_requests_gen cfg ticks st :
  (length (filter (λ e, isSend e = true) (run cfg ticks st).2)
   ≤ length ticks)%nat.
Proof.
  revert st. induction ticks as [|w ticks IH]; intros st; simpl; [lia|].
  pose proof (sendNextIfDue_one_request cfg w st) as H1.
  destruct (sendNextIfDue cfg w st) as [st1 tr1]. simpl in *.
  specialize (IH st1). destruct (run cfg ticks st1) as [st2 tr2]. simpl in *.
  rewrite filter_app, length_app. lia.
Qed.

End LaunchOrder.

(** X20. With the special phase enabled and a burst span that is not
    negative, the plan is the seven countdown entries in the order 59,
    30, 5, 4, 3, 2, 1 minutes, then the launch entry, then purchases only:
    no purchase is planned before the launch, and a purchase planned at
    the very instant of the launch comes after the launch entry. *)
Theorem generateFullSchedule_launch_order (cfg : Config) (o : Oracle)
    (sp : SpecialPhase) (presaleStart : Z) (plan : list Event) (e : Z) :
  specialPhase cfg = Some sp →
  truthy (enabled sp) = true →
  presaleStartUtc sp = Some presaleStart →
  0 ≤ burstSpanSec sp →
  samplesWellFormed o →
  shufflesPermute o →
  (0 < amountPerMessageUsd cfg)%Qc →
  0 < maxPerHour cfg →
  0 ≤ minPerHour cfg ≤ maxPerHour cfg →
  (∀ s, specialPhasePlan cfg o = Some s →
        Forall (λ n, n ≤ 3600)
          (perHourAllocation
             (normalConfig cfg (sp_normalStart s) (sp_remainingMessages s))
             o)) →
  generateFullSchedule cfg o = Some (plan, e) →
  ∃ buys,
    plan = countdownEntries presaleStart
           ++ launchEntry presaleStart :: buys ∧
    Forall (λ b, kind b = Buy ∧ presaleStart ≤ at_ b ∧
                 text b = None ∧ image b = None) buys.
Proof. apply generateFullSchedule_launch_order_gen. Qed.

Lemma generateFullSchedule_launch_order_witness :
  ∃ plan e buys,
    generateFullSchedule (hourConfig 1000 false (Some burstPhase)) plainOracle
    = Some (plan, e) ∧
    plan = countdownEntries t0 ++ launchEntry t0 :: buys.
Proof.
  destruct (generateFullSchedule (hourConfig 1000 false (Some burstPhase))
              plainOracle) as [[plan e]|] eqn:Hgen; [|by vm_compute in Hgen].
  destruct (generateFullSchedule_launch_order
              (hourConfig 1000 false (Some burstPhase)) plainOracle
              burstPhase t0 plan e)
    as (buys & Hplan & _).
  - reflexivity.
  - reflexivity.
  - reflexivity.
  - by vm_compute.
  - apply plainOracle_samples.
  - apply plainOracle_shuffles.
  - reflexivity.
  - simpl. lia.
  - simpl. lia.
  - intros s Hs. vm_compute in Hs. injection Hs as <-.
    vm_compute. repeat constructor. by vm_compute.
  - exact Hgen.
  - exists plan, e, buys. split; [reflexivity|exact Hplan].
Defined.

(** X21. With the special phase enabled, [startTimeUtc] has no part in the
    plan: the normal schedule starts at the launch, or at the end of the
    burst, whatever [startTimeUtc] says. *)
Theorem generateFullSchedule_ignores_startTimeUtc (cfg : Config) (o : Oracle)
    (start : Z) :
  specialPhaseOn cfg = true →
  generateFullSchedule (setStartTimeUtc cfg start) o
  = generateFullSchedule cfg o.
Proof. apply generateFullSchedule_setStartTimeUtc. Qed.

Lemma generateFullSchedule_ignores_startTimeUtc_witness :
  generateFullSchedule
    (setStartTimeUtc (hourConfig 1000 false (Some burstPhase)) 0) plainOracle
  = generateFullSchedule (hourConfig 1000 false (Some burstPhase)) plainOracle.
Proof.
  apply generateFullSchedule_ignores_startTimeUtc. reflexivity.
Defined.

(** X22. A check issues at most one Telegram request, so a run issues at
    most one request per timer tick. *)
Theorem run_requests (cfg : Config) (ticks : list World) (st : State) :
  (length (filter (λ e, isSend e = true) (run cfg ticks st).2)
   ≤ length ticks)%nat.
Proof. apply run_requests_gen. Qed.
